(** * Furlang IR generation: a shallow embedding of the two lowerers

    The repository holds two tree-walking lowerers from a typed AST to
    calls on an SSA builder (the external library goory):

    - [Irgen]     embeds src/irgen/irgen.go, the expression-oriented
                  lowerer (one [expression] switch handles every node);
    - [IrgenStmt] embeds src/unnamed/part_001, the statement-oriented
                  lowerer ([statement] / [expression] split).

    The builder is not part of the repository.  It is modelled by what the
    lowerers hand to it: every block records, in order, the builder calls
    it received, and the result of a call is named by a counter of the
    module.  Go pointers to blocks and functions are indices into the
    module's block and function stores. *)

From stdpp Require Import base option list gmap strings.
From Stdlib Require Import ZArith.

(** Induction over ASTs that nest [list] and [option]. *)
Scheme All for list.
Scheme All for option.

(** ** Go control effects: normal return, panic, process exit *)

Module Go.

Inductive Panic : Type :=
| PanicMessage (msg : string)      (* panic("...") with a constant message *)
| NodeNotHandled                   (* panic(fmt.Sprintf("Node not handled: %s", ...)) *)
| UnknownExpressionNode            (* panic(fmt.Sprintf("Unknown expression node: %s", ...)) *)
| InterfaceIsNil                   (* x.(T) on a nil interface value *)
| InterfaceWrongType               (* x.(T) on a value whose dynamic type is not T *)
| NilPointerDereference            (* method call or field access through nil *)
| IndexOutOfRange.                 (* s[i] with i >= len(s) *)

Inductive Outcome (St A : Type) : Type :=
| Returned (a : A) (s : St)         (* the call returned a to its caller *)
| Panicked (p : Panic)             (* the goroutine unwinds; nothing is returned *)
| Fatal (format arg : string).     (* log.Fatalf(format, arg), then os.Exit(1) *)
Arguments Returned {St A} a s.
Arguments Panicked {St A} p.
Arguments Fatal {St A} format arg.

Definition M (St A : Type) : Type := St -> Outcome St A.

Definition pure {St A} (a : A) : M St A := fun s => Returned a s.
Definition panic {St A} (p : Panic) : M St A := fun _ => Panicked p.
Definition fatal {St A} (format arg : string) : M St A := fun _ => Fatal format arg.
Definition bind {St A B} (m : M St A) (k : A -> M St B) : M St B :=
  fun s => match m s with
           | Returned a s' => k a s'
           | Panicked p => Panicked p
           | Fatal format arg => Fatal format arg
           end.
Definition get {St} : M St St := fun s => Returned s s.
Definition modify {St} (f : St -> St) : M St unit := fun s => Returned tt (f s).

(** [for _, x := range l { f(x) }] *)
Definition each {St A} (f : A -> M St unit) : list A -> M St unit :=
  fix go (l : list A) : M St unit :=
    match l with
    | [] => pure tt
    | x :: l' => bind (f x) (fun _ => go l')
    end.

(** [for i, x := range l { f(i, x) }], counting from [i] *)
Definition eachFrom {St A} (f : nat -> A -> M St unit) : nat -> list A -> M St unit :=
  fix go (i : nat) (l : list A) : M St unit :=
    match l with
    | [] => pure tt
    | x :: l' => bind (f i x) (fun _ => go (S i) l')
    end.

(** [for i, x := range l { out[i] = f(x) }] *)
Definition collect {St A B} (f : A -> M St B) : list A -> M St (list B) :=
  fix go (l : list A) : M St (list B) :=
    match l with
    | [] => pure []
    | x :: l' => bind (f x) (fun y => bind (go l') (fun ys => pure (y :: ys)))
    end.

End Go.
Import Go.

Notation "'do' x <- m ; k" := (bind m (fun x => k))
  (at level 10, x name, m at level 100, k at level 200).
Notation "'do' ( x , y ) <- m ; k" := (bind m (fun '(x, y) => k))
  (at level 10, x name, y name, m at level 100, k at level 200).

(** ** Tokens and types of the front end (packages lexer and types) *)

Module Lexer.

(** The operator and literal tags the lowerers switch on; [OTHER] stands
    for the remaining tags of the lexer. *)
Inductive TokenType : Type :=
| ADD | SUB | MUL | QUO | REM | EQL | NEQ | GTR | LSS
| INT | FLOAT | IDENT
| OTHER (code : nat).

(** A token as the statement-oriented lowerer reads it: [Type()] and
    [Value()]. *)
Record Token : Type := mkToken {
  tokenType : TokenType;
  tokenValue : string
}.

End Lexer.

Module Types.

Inductive Type_ : Type :=
| IntType (bits : N)
| FloatType (bits : N)
| BoolType
| Array (elem : Type_) (length : N).

(** The assertion of [node.Type] to a pointer to [types.Array], followed
    by [Type()]: the element type, when the type is an array. *)
Definition asArray (t : Type_) : option Type_ :=
  match t with
  | Array elem _ => Some elem
  | _ => None
  end.

End Types.

(** ** The builder as the lowerers see it (package goory) *)

Module Goory.

(** Builder types.  [Llvm t] and [LlvmBase t] stand for the results of
    [t.Llvm()] and [t.Base().Llvm()], methods of the front end's types. *)
Inductive Type_ : Type :=
| Llvm (t : Types.Type_)
| LlvmBase (t : Types.Type_)
| IntType (bits : N)
| DoubleType
| BoolType.

Inductive Value : Type :=
| ConstantInt (t : Type_) (v : Z)          (* goory.Constant(t, int) *)
| ConstantFloat (t : Type_) (bits : Z)     (* goory.Constant(t, float64), by its bits *)
| ConstantBool (b : bool)                  (* goory.Constant(goory.BoolType(), b) *)
| ConstantAtoi (t : Type_) (text : string) (* goory.Constant(t, strconv.Atoi(text)) *)
| ConstantParseFloat (t : Type_) (text : string)
| Temp (id : nat)                          (* result of an instruction *)
| Pointer (id : nat)                       (* result of Alloca or Getelementptr *)
| Argument (fn : nat) (index : nat)        (* result of AddArgument *)
| FunctionValue (fn : nat).                (* a *goory.Function used as a value *)

Inductive BinaryOp : Type :=
| Add | Sub | Mul | Div | Srem             (* signed integer family; Div is sdiv *)
| Fadd | Fsub | Fmul | Fdiv.               (* floating family *)
Inductive IntPredicate : Type := IntEq | IntNe | IntSgt | IntSlt.
Inductive FloatPredicate : Type := FloatOeq | FloatOne | FloatOgt | FloatOlt.

(** One constructor per builder call on a block.  Operands are what the
    lowerer passed, nil ([None]) included. *)
Inductive Instr : Type :=
| Alloca (res : nat) (t : Type_)
| Load (res : nat) (ptr : Value)
| Store (ptr : Value) (v : option Value)
| Binary (op : BinaryOp) (res : nat) (lhs rhs : option Value)
| Icmp (p : IntPredicate) (res : nat) (lhs rhs : option Value)
| Fcmp (p : FloatPredicate) (res : nat) (lhs rhs : option Value)
| Cast (res : nat) (v : option Value) (t : Type_)
| Call (res : nat) (callee : option nat) (operands : list (option Value))
| Getelementptr (res : nat) (t : Type_) (ptr : Value) (indices : list Value)
| Extractvalue (res : nat) (agg : Value) (index : option Value)
| Br (target : nat)
| CondBr (cond : option Value) (trueBlock falseBlock : nat)
| Ret (v : option Value).

Definition isTerminator (i : Instr) : bool :=
  match i with
  | Br _ | CondBr _ _ _ | Ret _ => true
  | _ => false
  end.

(** The blocks an instruction branches to. *)
Definition targets (i : Instr) : list nat :=
  match i with
  | Br t => [t]
  | CondBr _ t f => [t; f]
  | _ => []
  end.

Record Block : Type := mkBlock {
  owner : nat;               (* Function(): index of the owning function *)
  instrs : list Instr
}.

Record Function : Type := mkFunction {
  name : string;
  returnType : Type_;
  arguments : list (Type_ * string);
  entry : nat                (* Entry(): index of the entry block *)
}.

Record IRModule : Type := mkModule {
  moduleName : string;
  functions : list Function;
  blocks : list Block;
  temps : nat                (* next temporary name *)
}.

Definition NewModule (n : string) : IRModule :=
  {| moduleName := n; functions := []; blocks := []; temps := 0 |}.

(** [m.NewFunction(name, ret)]: a function with a fresh, empty entry block. *)
Definition NewFunction (n : string) (r : Type_) (m : IRModule) : nat * IRModule :=
  let f := length (functions m) in
  (f, {| moduleName := moduleName m;
         functions := functions m ++
           [{| name := n; returnType := r; arguments := []; entry := length (blocks m) |}];
         blocks := blocks m ++ [{| owner := f; instrs := [] |}];
         temps := temps m |}).

(** [f.AddArgument(t, name)] *)
Definition AddArgument (f : nat) (t : Type_) (n : string) (m : IRModule) : Value * IRModule :=
  let index := from_option (fun fn => length (arguments fn)) 0 (functions m !! f) in
  (Argument f index,
   {| moduleName := moduleName m;
      functions := alter (fun fn => {| name := name fn; returnType := returnType fn;
                                        arguments := arguments fn ++ [(t, n)];
                                        entry := entry fn |}) f (functions m);
      blocks := blocks m;
      temps := temps m |}).

(** [b.Function().AddBlock()]: a fresh, empty, unterminated block of the
    function that owns [b]. *)
Definition AddBlock (b : nat) (m : IRModule) : nat * IRModule :=
  let f := from_option owner 0 (blocks m !! b) in
  (length (blocks m),
   {| moduleName := moduleName m; functions := functions m;
      blocks := blocks m ++ [{| owner := f; instrs := [] |}];
      temps := temps m |}).

(** Appending one recorded call to block [b]. *)
Definition append (b : nat) (i : Instr) (m : IRModule) : IRModule :=
  {| moduleName := moduleName m; functions := functions m;
     blocks := alter (fun blk => {| owner := owner blk; instrs := instrs blk ++ [i] |}) b (blocks m);
     temps := temps m |}.

(** A call that yields a value takes the next temporary name. *)
Definition appendNamed (b : nat) (mk : nat -> Instr) (m : IRModule) : nat * IRModule :=
  let id := temps m in
  let m' := append b (mk id) m in
  (id, {| moduleName := moduleName m'; functions := functions m';
          blocks := blocks m'; temps := S id |}).

(** [b.Terminated()]: the block has received a branch or a return. *)
Definition Terminated (b : nat) (m : IRModule) : bool :=
  from_option (fun blk => existsb isTerminator (instrs blk)) false (blocks m !! b).

Definition instrsOf (b : nat) (m : IRModule) : list Instr :=
  from_option instrs [] (blocks m !! b).

End Goory.

(** ** The AST of the expression-oriented lowerer (package ast, as
    src/irgen/irgen.go uses it) *)

Module Ast.

Inductive Expression : Type :=
| Nil                                        (* the nil interface value *)
| Return (Value : Expression)
| Cast (Type_ : Types.Type_) (Expression_ : Expression)
| Assignment (Name : string) (Type_ : Types.Type_) (Declare_ : bool)
             (Expression_ : Expression)
| Call (Function_ : string) (Arguments : list Expression)
| If (node : IfNode)
| For (Index Condition Increment : Expression) (Block_ : list Expression)
| ArrayList (Name : string) (Type_ : Types.Type_) (List : list Expression)
| ArrayValue (Array : string) (Index : Expression)
| Block (Expressions : list Expression)      (* a pointer to ast.Block *)
| Binary (IsFp : bool) (Op : Lexer.TokenType) (Lhs Rhs : Expression)
| Integer (Value : Z)
| Float (bits : Z)                           (* a float64, by its bits *)
| Ident (Value : string)
| Other                                      (* a node type the switch does not list *)
with IfNode : Type :=
| mkIf (Condition : Expression) (Block_ : list Expression) (Else : option IfNode).

Scheme Expression_mut := Induction for Expression Sort Prop
  with IfNode_mut := Induction for IfNode Sort Prop.
Combined Scheme Expression_IfNode_mut from Expression_mut, IfNode_mut.

Record Param : Type := mkParam {
  paramType : Types.Type_;
  paramIdent : string
}.

Record Function : Type := mkFunction {
  Name : string;
  Parameters : list Param;
  ReturnType : Types.Type_;
  Body : list Expression
}.

Record Ast : Type := mkAst { Functions : list Function }.

Definition isNil (e : Expression) : bool :=
  match e with Nil => true | _ => false end.

End Ast.

(** ** src/irgen/irgen.go: the expression-oriented lowerer *)

Module Irgen.

Import Goory.

(** [type scope map[string]gooryvalues.Value] *)
Abbreviation scope := (gmap string Value).

Record Irgen : Type := mkIrgen {
  root : Ast.Ast;
  currentFunction : option Ast.Function;  (* [None]: the zero value *)
  functions : gmap string nat;
  scopes : list scope;
  currentScope : nat;
  module : IRModule;
  block : option nat                      (* [None]: nil *)
}.

Definition setCurrentFunction (f : option Ast.Function) (g : Irgen) : Irgen :=
  mkIrgen (root g) f (functions g) (scopes g) (currentScope g) (module g) (block g).
Definition setFunctions (fs : gmap string nat) (g : Irgen) : Irgen :=
  mkIrgen (root g) (currentFunction g) fs (scopes g) (currentScope g) (module g) (block g).
Definition setScopes (ss : list scope) (g : Irgen) : Irgen :=
  mkIrgen (root g) (currentFunction g) (functions g) ss (currentScope g) (module g) (block g).
Definition setCurrentScope (n : nat) (g : Irgen) : Irgen :=
  mkIrgen (root g) (currentFunction g) (functions g) (scopes g) n (module g) (block g).
Definition setModule (m : IRModule) (g : Irgen) : Irgen :=
  mkIrgen (root g) (currentFunction g) (functions g) (scopes g) (currentScope g) m (block g).
Definition setBlock (b : option nat) (g : Irgen) : Irgen :=
  mkIrgen (root g) (currentFunction g) (functions g) (scopes g) (currentScope g) (module g) b.

Abbreviation LM := (M Irgen).

(** *** Builder calls through the lowerer's state *)

(** The receiver [g.block] of a builder call: a call through nil panics. *)
Definition theBlock : LM nat :=
  fun g => match block g with
           | Some b => Returned b g
           | None => Panicked NilPointerDereference
           end.

Definition emitAt (b : nat) (i : Instr) : LM unit :=
  modify (fun g => setModule (append b i (module g)) g).

Definition emitNamedAt (b : nat) (mk : nat -> Instr) : LM nat :=
  fun g => let '(id, m) := appendNamed b mk (module g) in Returned id (setModule m g).

Definition emit (i : Instr) : LM unit := do b <- theBlock; emitAt b i.
Definition emitNamed (mk : nat -> Instr) : LM nat := do b <- theBlock; emitNamedAt b mk.

(** [g.block.Function().AddBlock()] *)
Definition addBlock : LM nat :=
  do b <- theBlock;
  fun g => let '(n, m) := AddBlock b (module g) in Returned n (setModule m g).

Definition terminated (b : nat) : LM bool :=
  fun g => Returned (Terminated b (module g)) g.

(** [function.AddArgument(t, name)] *)
Definition addArgument (f : nat) (t : Type_) (n : string) : LM Value :=
  fun g => Returned (AddArgument f t n (module g)).1
                    (setModule (AddArgument f t n (module g)).2 g).

(** A block pointer used as the receiver of a call. *)
Definition deref (b : option nat) : LM nat :=
  match b with
  | Some n => pure n
  | None => panic NilPointerDereference
  end.

(** [x != nil] *)
Definition notNil {A} (x : option A) : bool :=
  match x with Some _ => true | None => false end.

(** *** Scopes *)

(** [newScope]: a thousand fresh, empty frames. *)
Definition newScope : LM unit := modify (setScopes (replicate 1000 ∅)).

(** The loop of [find]: from frame [search] down to frame 0.  The outer
    [None] is an index out of range. *)
Fixpoint findFrom (ss : list scope) (v : string) (search : nat) : option (option Value) :=
  match ss !! search with
  | None => None
  | Some sc =>
      match sc !! v with
      | Some value => Some (Some value)
      | None => match search with
                | O => Some None
                | S search' => findFrom ss v search'
                end
      end
  end.

Definition find (v : string) : LM (option Value) :=
  fun g => match findFrom (scopes g) v (currentScope g) with
           | Some r => Returned r g
           | None => Panicked IndexOutOfRange
           end.

(** [g.scopes[g.currentScope][name] = value] *)
Definition bindName (n : string) (value : Value) : LM unit :=
  fun g => match scopes g !! currentScope g with
           | Some sc => Returned tt (setScopes (<[currentScope g := <[n := value]> sc]> (scopes g)) g)
           | None => Panicked IndexOutOfRange
           end.

Section Lowerer.

(** Whether goory's function handle implements [value.Pointer] is a fact of
    the builder; the lowerer is embedded for either answer. *)
Variable function_is_pointer : bool.

(** [x.(gooryvalues.Pointer)] *)
Definition asPointer (x : option Value) : LM Value :=
  match x with
  | None => panic InterfaceIsNil
  | Some (Pointer id) => pure (Pointer id)
  | Some (FunctionValue f) =>
      if function_is_pointer then pure (FunctionValue f) else panic InterfaceWrongType
  | Some _ => panic InterfaceWrongType
  end.

Definition integer (v : Z) : LM (option Value) := pure (Some (ConstantInt (IntType 64) v)).
Definition float (bits : Z) : LM (option Value) := pure (Some (ConstantFloat DoubleType bits)).

Definition boolNode (v : string) : LM (option Value) :=
  if String.eqb v "true" then pure (Some (ConstantBool true))
  else if String.eqb v "false" then pure (Some (ConstantBool false))
  else panic (PanicMessage "Ident is not a bool").

Definition ident (v : string) : LM (option Value) :=
  if String.eqb v "true" || String.eqb v "false" then boolNode v
  else
    do x <- find v;
    do p <- asPointer x;
    do id <- emitNamed (fun id => Load id p);
    pure (Some (Temp id)).

(** The two switches of [binary], after both operands were lowered. *)
Definition binaryInstr (IsFp : bool) (Op : Lexer.TokenType) (lhs rhs : option Value)
  : option (nat -> Instr) :=
  if IsFp then
    match Op with
    | Lexer.ADD => Some (fun id => Binary Fadd id lhs rhs)
    | Lexer.SUB => Some (fun id => Binary Fsub id lhs rhs)
    | Lexer.MUL => Some (fun id => Binary Fmul id lhs rhs)
    | Lexer.QUO => Some (fun id => Binary Fdiv id lhs rhs)
    | Lexer.NEQ => Some (fun id => Fcmp FloatOne id lhs rhs)
    | Lexer.EQL => Some (fun id => Fcmp FloatOeq id lhs rhs)
    | Lexer.GTR => Some (fun id => Fcmp FloatOgt id lhs rhs)
    | Lexer.LSS => Some (fun id => Fcmp FloatOlt id lhs rhs)
    | _ => None
    end
  else
    match Op with
    | Lexer.ADD => Some (fun id => Binary Add id lhs rhs)
    | Lexer.SUB => Some (fun id => Binary Sub id lhs rhs)
    | Lexer.MUL => Some (fun id => Binary Mul id lhs rhs)
    | Lexer.QUO => Some (fun id => Binary Div id lhs rhs)
    | Lexer.REM => Some (fun id => Binary Srem id lhs rhs)
    | Lexer.NEQ => Some (fun id => Icmp IntNe id lhs rhs)
    | Lexer.EQL => Some (fun id => Icmp IntEq id lhs rhs)
    | Lexer.GTR => Some (fun id => Icmp IntSgt id lhs rhs)
    | Lexer.LSS => Some (fun id => Icmp IntSlt id lhs rhs)
    | _ => None
    end.

Section Methods.

(** The methods below call back into [expression]; they are written over
    the recursive reference and closed by the fixpoint that follows. *)
Variable expression : Ast.Expression -> LM (option Value).

Definition blockNode_ (Expressions : list Ast.Expression) : LM (nat * option nat) :=
  do g0 <- get;
  let oldScope := currentScope g0 in
  let oldBlock := block g0 in
  do newBlock <- addBlock;
  do _ <- modify (fun g => setCurrentScope (S (currentScope g)) g);
  do _ <- modify (setBlock (Some newBlock));
  do _ <- each (fun e => do _ <- expression e; pure tt) Expressions;
  do g1 <- get;
  let endLocation := block g1 in
  do _ <- modify (setCurrentScope oldScope);
  do _ <- modify (setBlock oldBlock);
  pure (newBlock, endLocation).

Definition cast_ (Type_ : Types.Type_) (Expression_ : Ast.Expression) : LM (option Value) :=
  do value <- expression Expression_;
  do id <- emitNamed (fun id => Cast id value (Llvm Type_));
  pure (Some (Temp id)).

Definition assignment_ (Name : string) (Type_ : Types.Type_) (Declare_ : bool)
    (Expression_ : Ast.Expression) : LM unit :=
  (* Check if assignment is a reassignment *)
  do found <- find Name;
  let reassign := negb Declare_ && notNil found in
  do alloc <-
    (if reassign then pure found
     else
       (* Allocate space for new value and store it in scope *)
       do id <- emitNamed (fun id => Alloca id (Llvm Type_));
       do _ <- bindName Name (Pointer id);
       pure (Some (Pointer id)));
  (* Compile value to assign *)
  do value <- expression Expression_;
  (* Store value *)
  match value with
  | Some v =>
      do p <- asPointer alloc;
      emit (Store p (Some v))
  | None => pure tt
  end.

Definition call_ (Function_ : string) (Arguments : list Ast.Expression) : LM (option Value) :=
  (* Find function in scope *)
  do g <- get;
  let function := functions g !! Function_ in
  (* Get argument values *)
  do args <- collect expression Arguments;
  (* Call function with values *)
  do id <- emitNamed (fun id => Call id function args);
  pure (Some (Temp id)).

Definition forNode_ (Index Condition Increment : Ast.Expression)
    (Block_ : list Ast.Expression) : LM unit :=
  (* Compile for index *)
  do _ <- expression Index;
  (* Branch into for loop *)
  do condition <- expression Condition;
  do (forStart, forEnd) <- blockNode_ Block_;
  do exitBlock <- addBlock;
  do _ <- emit (CondBr condition forStart exitBlock);
  (* Branch at end to loop or exit *)
  do _ <- modify (setBlock forEnd);
  do _ <- expression Increment;
  do condition' <- expression Condition;
  do _ <- emit (CondBr condition' forStart exitBlock);
  (* Continue compiling from exit block *)
  modify (setBlock (Some exitBlock)).

Definition array_ (Name : string) (Type_ : Types.Type_) (List : list Ast.Expression)
  : LM (option Value) :=
  do alloc <- find Name;
  do _ <- eachFrom (fun i val =>
      (* Get pointer to element in array *)
      do elem <- match Types.asArray Type_ with
                 | Some elem => pure elem
                 | None => panic InterfaceWrongType
                 end;
      do p <- asPointer alloc;
      do id <- emitNamed (fun id =>
                 Getelementptr id (Llvm elem) p
                   [ConstantInt (IntType 64) 0; ConstantInt (IntType 64) (Z.of_nat i)]);
      (* Store value at index pointer *)
      do value <- expression val;
      emit (Store (Pointer id) value)) 0 List;
  pure None.

Definition arrayValue_ (Array : string) (Index : Ast.Expression) : LM (option Value) :=
  do arrayAlloc <- find Array;
  do p <- asPointer arrayAlloc;
  do array <- emitNamed (fun id => Load id p);
  do index <- expression Index;
  do id <- emitNamed (fun id => Extractvalue id (Temp array) index);
  pure (Some (Temp id)).

Definition binary_ (IsFp : bool) (Op : Lexer.TokenType) (Lhs Rhs : Ast.Expression)
  : LM (option Value) :=
  do lhs <- expression Lhs;
  do rhs <- expression Rhs;
  match binaryInstr IsFp Op lhs rhs with
  | Some mk => do id <- emitNamed mk; pure (Some (Temp id))
  | None => panic (PanicMessage "Unhandled binary operator")
  end.

Definition ret_ (Value_ : Ast.Expression) : LM unit :=
  do value <- expression Value_;
  do g <- get;
  do t <- match currentFunction g with
          | Some f => pure (Llvm (Ast.ReturnType f))
          | None => panic NilPointerDereference
          end;
  do id <- emitNamed (fun id => Cast id value t);
  emit (Ret (Some (Temp id))).

End Methods.

Fixpoint expression (node : Ast.Expression) {struct node} : LM (option Value) :=
  match node with
  | Ast.Return Value_ => do _ <- ret_ expression Value_; pure None
  | Ast.Cast Type_ e => cast_ expression Type_ e
  | Ast.Assignment Name Type_ Declare_ e =>
      do _ <- assignment_ expression Name Type_ Declare_ e; pure None
  | Ast.Call Function_ Arguments => call_ expression Function_ Arguments
  | Ast.If n =>
      do next <- ifNode n;
      do _ <- modify (setBlock (Some next));
      pure None
  | Ast.For Index Condition Increment Block_ =>
      do _ <- forNode_ expression Index Condition Increment Block_; pure None
  | Ast.ArrayList Name Type_ List => array_ expression Name Type_ List
  | Ast.ArrayValue Array Index => arrayValue_ expression Array Index
  | Ast.Block Expressions =>
      do (start, end_) <- blockNode_ expression Expressions;
      do _ <- emit (Br start);
      do _ <- modify (setBlock end_);
      pure None
  | Ast.Binary IsFp Op Lhs Rhs => binary_ expression IsFp Op Lhs Rhs
  | Ast.Integer v => integer v
  | Ast.Float bits => float bits
  | Ast.Ident v => ident v
  | Ast.Nil | Ast.Other => panic NodeNotHandled
  end

with ifNode (node : Ast.IfNode) {struct node} : LM nat :=
  match node with
  | Ast.mkIf Condition Block_ Else =>
      do (trueStart, trueEnd) <- blockNode_ expression Block_;
      do condition <- expression Condition;
      do nextBlock <- addBlock;
      do (falseStart, falseEnd) <-
        match Else with
        | None =>
            (* If node has no else so condition branch should branch to next block *)
            pure (nextBlock, Some nextBlock)
        | Some (Ast.mkIf ElseCondition ElseBlock _) =>
            do (falseStart, falseEnd) <- blockNode_ expression ElseBlock;
            (* If else node has a condition insert a new block with a conditional check *)
            do _ <-
              (if Ast.isNil ElseCondition then pure tt
               else
                 do falseConditionCheck <- addBlock;
                 do c <- expression ElseCondition;
                 emitAt falseConditionCheck (CondBr c falseStart nextBlock));
            pure (falseStart, falseEnd)
        end;
      do _ <- emit (CondBr condition trueStart falseStart);
      (* Check if else if chain continues *)
      do _ <-
        match Else with
        | Some (Ast.mkIf _ _ (Some ElseElse)) => do _ <- ifNode ElseElse; pure tt
        | _ => pure tt
        end;
      (* If blocks dont terminate brach to next block *)
      do te <- deref trueEnd;
      do t <- terminated te;
      do _ <- (if t then pure tt else emitAt te (Br nextBlock));
      do fe <- deref falseEnd;
      do f <- terminated fe;
      do _ <- (if f then pure tt else emitAt fe (Br nextBlock));
      pure nextBlock
  end.

(** [function], up to the loop over the body: the scope is cleared, the
    function's handle is looked up and bound, its entry block becomes the
    current block and the parameters get their slots.  Returns the handle. *)
Definition prologue (node : Ast.Function) : LM nat :=
  (* Clear scope *)
  do _ <- modify (setCurrentFunction (Some node));
  do _ <- newScope;
  do _ <- modify (setCurrentScope 0);
  do g <- get;
  do function <- match functions g !! Ast.Name node with
                 | Some f => pure f
                 | None => panic NilPointerDereference
                 end;
  do entry <- match Goory.functions (module g) !! function with
              | Some fn => pure (Goory.entry fn)
              | None => panic NilPointerDereference
              end;
  do _ <- modify (setBlock (Some entry));
  (* Add function to scope *)
  do _ <- bindName (Ast.Name node) (FunctionValue function);
  (* Add arguments to scope *)
  do _ <- modify (fun g => setCurrentScope (S (currentScope g)) g);
  do _ <- each (fun arg =>
      let argType := Llvm (Ast.paramType arg) in
      do argValue <- addArgument function argType (Ast.paramIdent arg);
      do id <- emitNamed (fun id => Alloca id argType);
      do _ <- emit (Store (Pointer id) (Some argValue));
      bindName (Ast.paramIdent arg) (Pointer id)) (Ast.Parameters node);
  pure function.

Definition function (node : Ast.Function) : LM unit :=
  do _ <- prologue node;
  (* Add expressions to function body *)
  each (fun e => do _ <- expression e; pure tt) (Ast.Body node).

(** [Generate] returns the text of the module; the embedding returns the
    module that is printed. *)
Definition Generate : LM IRModule :=
  do g <- get;
  do _ <- each function (Ast.Functions (root g));
  do g' <- get;
  pure (module g').

End Lowerer.

(** [NewIrgen] creates a new ir generator. *)
Definition NewIrgen (ast : Ast.Ast) : Irgen :=
  let g := {| root := ast; currentFunction := None; functions := ∅; scopes := [];
              currentScope := 0; module := NewModule "furlang"; block := None |} in
  (* Create new functions for each function in the ast *)
  let g := fold_left (fun g f =>
               let '(function, m) := NewFunction (Ast.Name f) (Llvm (Ast.ReturnType f)) (module g) in
               setFunctions (<[Ast.Name f := function]> (functions g)) (setModule m g))
             (Ast.Functions ast) g in
  setScopes (replicate 1000 ∅) g.

End Irgen.

(** ** The AST of the statement-oriented lowerer (package ast, as
    src/unnamed/part_001 uses it) *)

Module Ast2.

Inductive Expression : Type :=
| NilExpression                              (* the nil interface value *)
| BinaryExpression (Left Right : Expression) (Operator : Lexer.Token) (IsFp : bool)
| CastExpression (Type_ : Types.Type_) (Expression_ : Expression)
| LiteralExpression (Value : Lexer.Token)
| IdentExpression (Value : Lexer.Token)
| CallExpression (Function_ : Expression) (Elements : list Expression)
| OtherExpression.                           (* a node type the switch does not list *)

(** What a declare statement holds; only variable declarations are handled. *)
Inductive Declaration : Type :=
| VaribleDeclaration (Name : Lexer.Token) (Type_ : Types.Type_) (Value : Expression)
| OtherDeclaration.

Inductive Statement : Type :=
| IfStatment_ (node : IfStatment)
| ReturnStatement (Result : Expression)
| DeclareStatement (Statement_ : Declaration)
| AssignmentStatement (Left Right : Expression)
| OtherStatement                             (* a statement the switch does not list *)
with IfStatment : Type :=
| mkIfStatment (Condition : Expression) (Body : list Statement) (Else : option IfStatment).

Scheme Statement_mut := Induction for Statement Sort Prop
  with IfStatment_mut := Induction for IfStatment Sort Prop.
Combined Scheme Statement_IfStatment_mut from Statement_mut, IfStatment_mut.

Record ArgumentDeclaration : Type := mkArgument {
  argName : Lexer.Token;
  argType : Types.Type_
}.

Record FunctionDeclaration : Type := mkFunctionDeclaration {
  Name : Lexer.Token;
  Return : Types.Type_;
  Arguments : list ArgumentDeclaration;
  Body : list Statement
}.

Record Ast : Type := mkAst { Functions : list FunctionDeclaration }.

Definition isNil (e : Expression) : bool :=
  match e with NilExpression => true | _ => false end.

End Ast2.

(** ** src/unnamed/part_001: the statement-oriented lowerer *)

Module IrgenStmt.

Import Goory.

(** The scope type of this lowerer ([NewScope], [Push], [AddVar], [GetVar],
    [AddFunction], [GetFunction]) is declared outside the files at hand; the
    lowerer is embedded over its interface.  [GetVar] and [GetFunction]
    return [None] when the second result is false. *)
Record ScopeImpl : Type := mkScopeImpl {
  Scope : Type;
  NewScope : Scope;
  Push : Scope -> Scope;
  AddVar : string -> Value -> Scope -> Scope;
  GetVar : string -> Scope -> option Value;
  AddFunction : string -> nat -> Scope -> Scope;
  GetFunction : string -> Scope -> option nat
}.

Section Lowerer.

Variable scopeImpl : ScopeImpl.

Record Irgen : Type := mkIrgen {
  tree : Ast2.Ast;
  module : IRModule;
  parentBlock : option nat;               (* [None]: nil *)
  scope : Scope scopeImpl
}.

Definition setModule (m : IRModule) (g : Irgen) : Irgen :=
  mkIrgen (tree g) m (parentBlock g) (scope g).
Definition setParentBlock (b : option nat) (g : Irgen) : Irgen :=
  mkIrgen (tree g) (module g) b (scope g).
Definition setScope (s : Scope scopeImpl) (g : Irgen) : Irgen :=
  mkIrgen (tree g) (module g) (parentBlock g) s.

Definition NewIrgen (tree : Ast2.Ast) : Irgen :=
  {| tree := tree; module := NewModule "test"; parentBlock := None;
     scope := NewScope scopeImpl |}.

Abbreviation LM := (M Irgen).

Definition deref (b : option nat) : LM nat :=
  match b with
  | Some n => pure n
  | None => panic NilPointerDereference
  end.

Definition theBlock : LM nat := do g <- get; deref (parentBlock g).

Definition emitAt (b : nat) (i : Instr) : LM unit :=
  modify (fun g => setModule (append b i (module g)) g).
Definition emitNamedAt (b : nat) (mk : nat -> Instr) : LM nat :=
  fun g => let '(id, m) := appendNamed b mk (module g) in Returned id (setModule m g).
Definition emit (i : Instr) : LM unit := do b <- theBlock; emitAt b i.
Definition emitNamed (mk : nat -> Instr) : LM nat := do b <- theBlock; emitNamedAt b mk.

(** [g.parentBlock.Function().AddBlock()] *)
Definition addBlock : LM nat :=
  do b <- theBlock;
  fun g => let '(n, m) := AddBlock b (module g) in Returned n (setModule m g).

Definition terminated (b : nat) : LM bool :=
  fun g => Returned (Terminated b (module g)) g.

(** [g.module.NewFunction(name, ret)] *)
Definition newFunction (n : string) (r : Type_) : LM nat :=
  fun g => Returned (NewFunction n r (module g)).1
                    (setModule (NewFunction n r (module g)).2 g).

(** [f.AddArgument(t, name)] *)
Definition addArgument (f : nat) (t : Type_) (n : string) : LM Value :=
  fun g => Returned (AddArgument f t n (module g)).1
                    (setModule (AddArgument f t n (module g)).2 g).

(** *** Expressions *)

Definition literalExp (Value_ : Lexer.Token) : LM (option Value) :=
  match Lexer.tokenType Value_ with
  | Lexer.INT =>
      pure (Some (ConstantAtoi (Llvm (Types.IntType 0)) (Lexer.tokenValue Value_)))
  | Lexer.FLOAT =>
      pure (Some (ConstantParseFloat (Llvm (Types.FloatType 0)) (Lexer.tokenValue Value_)))
  | _ => panic (PanicMessage "Unknown literal type")
  end.

Definition identExp (Value_ : Lexer.Token) : LM (option Value) :=
  let ident := Lexer.tokenValue Value_ in
  if String.eqb ident "true" then pure (Some (ConstantBool true))
  else if String.eqb ident "false" then pure (Some (ConstantBool false))
  else
    do g <- get;
    match GetVar scopeImpl ident (scope g) with
    | None => fatal "%q was not is scope" ident
    | Some item =>
        do id <- emitNamed (fun id => Load id item);
        pure (Some (Temp id))
    end.

(** The two switches of [binaryExp], after both operands were lowered. *)
Definition binaryInstr (IsFp : bool) (Op : Lexer.TokenType) (left right : option Value)
  : option (nat -> Instr) :=
  if IsFp then
    match Op with
    | Lexer.ADD => Some (fun id => Binary Fadd id left right)
    | Lexer.SUB => Some (fun id => Binary Fsub id left right)
    | Lexer.MUL => Some (fun id => Binary Fmul id left right)
    | Lexer.QUO => Some (fun id => Binary Fdiv id left right)
    | Lexer.EQL => Some (fun id => Fcmp FloatOeq id left right)
    | Lexer.NEQ => Some (fun id => Fcmp FloatOne id left right)
    | Lexer.GTR => Some (fun id => Fcmp FloatOgt id left right)
    | Lexer.LSS => Some (fun id => Fcmp FloatOlt id left right)
    | _ => None
    end
  else
    match Op with
    | Lexer.ADD => Some (fun id => Binary Add id left right)
    | Lexer.SUB => Some (fun id => Binary Sub id left right)
    | Lexer.MUL => Some (fun id => Binary Mul id left right)
    | Lexer.QUO => Some (fun id => Binary Div id left right)
    | Lexer.EQL => Some (fun id => Icmp IntEq id left right)
    | Lexer.NEQ => Some (fun id => Icmp IntNe id left right)
    | Lexer.GTR => Some (fun id => Icmp IntSgt id left right)
    | Lexer.LSS => Some (fun id => Icmp IntSlt id left right)
    | Lexer.REM => Some (fun id => Binary Srem id left right)
    | _ => None
    end.

Fixpoint expression (node : Ast2.Expression) {struct node} : LM (option Value) :=
  match node with
  | Ast2.BinaryExpression Left Right Operator IsFp =>
      (* binaryExp *)
      do left <- expression Left;
      do right <- expression Right;
      match binaryInstr IsFp (Lexer.tokenType Operator) left right with
      | Some mk => do id <- emitNamed mk; pure (Some (Temp id))
      | None => panic (PanicMessage "Unhandled binary operator")
      end
  | Ast2.CastExpression Type_ e =>
      (* castExp *)
      do exp <- expression e;
      do id <- emitNamed (fun id => Cast id exp (Llvm Type_));
      pure (Some (Temp id))
  | Ast2.LiteralExpression v => literalExp v
  | Ast2.IdentExpression v => identExp v
  | Ast2.CallExpression Function_ Elements =>
      (* callExp *)
      do funcName <- match Function_ with
                     | Ast2.IdentExpression v => pure (Lexer.tokenValue v)
                     | Ast2.NilExpression => panic InterfaceIsNil
                     | _ => panic InterfaceWrongType
                     end;
      do g <- get;
      let function := GetFunction scopeImpl funcName (scope g) in
      do args <- collect expression Elements;
      do id <- emitNamed (fun id => Call id function args);
      pure (Some (Temp id))
  | Ast2.NilExpression | Ast2.OtherExpression => panic UnknownExpressionNode
  end.

Definition binaryExp (Left Right : Ast2.Expression) (Operator : Lexer.Token) (IsFp : bool)
  : LM (option Value) :=
  expression (Ast2.BinaryExpression Left Right Operator IsFp).

(** *** Statements *)

Definition returnSmt (Result : Ast2.Expression) : LM unit :=
  do exp <- expression Result;
  emit (Ret exp).

Definition declareSmt (Statement_ : Ast2.Declaration) : LM unit :=
  match Statement_ with
  | Ast2.VaribleDeclaration Name Type_ Value_ =>
      let name := Lexer.tokenValue Name in
      do exp <- expression Value_;
      do id <- emitNamed (fun id => Alloca id (LlvmBase Type_));
      do _ <- emit (Store (Pointer id) exp);
      modify (fun g => setScope (AddVar scopeImpl name (Pointer id) (scope g)) g)
  | Ast2.OtherDeclaration => panic InterfaceWrongType
  end.

Definition assignmentSmt (Left Right : Ast2.Expression) : LM unit :=
  do name <- match Left with
             | Ast2.IdentExpression v => pure (Lexer.tokenValue v)
             | Ast2.NilExpression => panic InterfaceIsNil
             | _ => panic InterfaceWrongType
             end;
  do exp <- expression Right;
  do g <- get;
  match GetVar scopeImpl name (scope g) with
  | None => fatal "%q was not in scope" name
  | Some alloc =>
      do _ <- emit (Store alloc exp);
      modify (fun g => setScope (AddVar scopeImpl name alloc (scope g)) g)
  end.

Section Methods.

Variable statement : Ast2.Statement -> LM unit.

Definition block_ (Statements : list Ast2.Statement) : LM unit :=
  (* Push new scope *)
  do _ <- modify (fun g => setScope (Push scopeImpl (scope g)) g);
  each statement Statements.

End Methods.

Fixpoint statement (node : Ast2.Statement) {struct node} : LM unit :=
  match node with
  | Ast2.IfStatment_ n =>
      do endBlock <- addBlock;
      ifSmt n None endBlock
  | Ast2.ReturnStatement Result => returnSmt Result
  | Ast2.DeclareStatement d => declareSmt d
  | Ast2.AssignmentStatement Left Right => assignmentSmt Left Right
  | Ast2.OtherStatement => pure tt
  end

with ifSmt (node : Ast2.IfStatment) (block : option nat) (endBlock : nat) {struct node}
  : LM unit :=
  match node with
  | Ast2.mkIfStatment Condition Body Else =>
      do g0 <- get;
      let parent := parentBlock g0 in
      do block <- match block with
                  | Some b => pure b
                  | None => addBlock
                  end;
      (* falseBlock either points to and else/else if block to be generated or
         the last block to continue execution *)
      do falseBlock <- match Else with
                       | Some _ => addBlock
                       | None => pure endBlock
                       end;
      (* Generate true block *)
      do _ <- modify (setParentBlock (Some block));
      do _ <- block_ statement Body;
      (* Didnt terminate block so continue exection at end block *)
      do t <- terminated block;
      do _ <- (if t then pure tt else emitAt block (Br endBlock));
      (* Add the conditional branch *)
      do _ <-
        (if Ast2.isNil Condition then pure tt
         else
           do _ <- modify (setParentBlock parent);
           do condition <- expression Condition;
           do p <- deref parent;
           emitAt p (CondBr condition block falseBlock));
      do _ <- modify (setParentBlock (Some falseBlock));
      (* Check for else statement *)
      do _ <- match Else with
              | Some els => ifSmt els (Some falseBlock) endBlock
              | None => pure tt
              end;
      modify (setParentBlock (Some endBlock))
  end.

Definition block := block_ statement.

(** [function], up to the call of [block]: the function is created in the
    module and bound, its entry block becomes the current block and the
    arguments get their slots.  Returns the handle. *)
Definition prologue (node : Ast2.FunctionDeclaration) : LM nat :=
  (* Create new function in module *)
  let fName := Lexer.tokenValue (Ast2.Name node) in
  do f <- newFunction fName (Llvm (Ast2.Return node));
  do _ <- modify (fun g => setScope (AddFunction scopeImpl fName f (scope g)) g);
  do g <- get;
  do _ <- modify (setParentBlock (Goory.entry <$> Goory.functions (module g) !! f));
  (* Add arguments to function *)
  do _ <- each (fun arg =>
      let name := Lexer.tokenValue (Ast2.argName arg) in
      let argType := Llvm (Ast2.argType arg) in
      do argValue <- addArgument f argType name;
      do id <- emitNamed (fun id => Alloca id argType);
      do _ <- emit (Store (Pointer id) (Some argValue));
      modify (fun g => setScope (AddVar scopeImpl name (Pointer id) (scope g)) g))
      (Ast2.Arguments node);
  pure f.

Definition function (node : Ast2.FunctionDeclaration) : LM unit :=
  do _ <- prologue node;
  block (Ast2.Body node).

(** [Generate] returns the text of the module; the embedding returns the
    module that is printed. *)
Definition Generate : LM IRModule :=
  do g <- get;
  do _ <- each function (Ast2.Functions (tree g));
  do g' <- get;
  pure (module g').

End Lowerer.

End IrgenStmt.

(** Modelled from the spec: the scope type of src/unnamed/part_001
    ([NewScope], [Push], [AddVar], [GetVar], [AddFunction], [GetFunction]),
    whose declaration is not among the files at hand.  Spec 3 and 4.2: a stack
    of frames, the top one innermost; each frame maps an identifier to a
    value handle, a slot or a function handle; push allocates a new empty
    frame; bind inserts into the top frame; lookup scans from top to bottom
    and returns the first binding or reports undefined; functions are bound
    in an outermost module frame. *)
Module SpecScope.

Import Goory.

Inductive Handle : Type :=
| Slot (v : Value)
| FunctionHandle (f : nat).

Abbreviation Scope := (list (gmap string Handle)).

Definition NewScope : Scope := [∅].

Definition Push (s : Scope) : Scope := ∅ :: s.

Definition bind (n : string) (h : Handle) (s : Scope) : Scope :=
  match s with
  | frame :: rest => <[n := h]> frame :: rest
  | [] => [ {[ n := h ]} ]
  end.

Fixpoint lookup (n : string) (s : Scope) : option Handle :=
  match s with
  | frame :: rest =>
      match frame !! n with
      | Some h => Some h
      | None => lookup n rest
      end
  | [] => None
  end.

Definition AddVar (n : string) (v : Value) (s : Scope) : Scope := bind n (Slot v) s.
Definition AddFunction (n : string) (f : nat) (s : Scope) : Scope := bind n (FunctionHandle f) s.

Definition GetVar (n : string) (s : Scope) : option Value :=
  match lookup n s with
  | Some (Slot v) => Some v
  | _ => None
  end.

Definition GetFunction (n : string) (s : Scope) : option nat :=
  match lookup n s with
  | Some (FunctionHandle f) => Some f
  | _ => None
  end.

Definition impl : IrgenStmt.ScopeImpl :=
  IrgenStmt.mkScopeImpl Scope NewScope Push AddVar GetVar AddFunction GetFunction.

End SpecScope.

(** ** The operator table of the specification

    Written from the table of spec 4.5, to be compared with the switches of
    [binary] and [binaryExp]. *)

Module SpecTable.

Import Goory.

Inductive Opcode : Type :=
| add | sub | mul | sdiv | srem
| icmp_eq | icmp_ne | icmp_sgt | icmp_slt
| fadd | fsub | fmul | fdiv
| fcmp_oeq | fcmp_one | fcmp_ogt | fcmp_olt.

(** Column "Integer" when [isFloat] is false, column "Float" when true;
    [None] is "unsupported" or an operator outside the table. *)
Definition opcode (isFloat : bool) (op : Lexer.TokenType) : option Opcode :=
  match op, isFloat with
  | Lexer.ADD, false => Some add      | Lexer.ADD, true => Some fadd
  | Lexer.SUB, false => Some sub      | Lexer.SUB, true => Some fsub
  | Lexer.MUL, false => Some mul      | Lexer.MUL, true => Some fmul
  | Lexer.QUO, false => Some sdiv     | Lexer.QUO, true => Some fdiv
  | Lexer.REM, false => Some srem     | Lexer.REM, true => None
  | Lexer.EQL, false => Some icmp_eq  | Lexer.EQL, true => Some fcmp_oeq
  | Lexer.NEQ, false => Some icmp_ne  | Lexer.NEQ, true => Some fcmp_one
  | Lexer.GTR, false => Some icmp_sgt | Lexer.GTR, true => Some fcmp_ogt
  | Lexer.LSS, false => Some icmp_slt | Lexer.LSS, true => Some fcmp_olt
  | _, _ => None
  end.

Definition isFloatOpcode (o : Opcode) : bool :=
  match o with
  | fadd | fsub | fmul | fdiv | fcmp_oeq | fcmp_one | fcmp_ogt | fcmp_olt => true
  | _ => false
  end.

(** The builder call that emits an opcode (spec 4.1: the facade's signed
    integer ops, floating ops, integer compares, float compares). *)
Definition instr (o : Opcode) (id : nat) (lhs rhs : option Value) : Instr :=
  match o with
  | add => Binary Add id lhs rhs
  | sub => Binary Sub id lhs rhs
  | mul => Binary Mul id lhs rhs
  | sdiv => Binary Div id lhs rhs
  | srem => Binary Srem id lhs rhs
  | icmp_eq => Icmp IntEq id lhs rhs
  | icmp_ne => Icmp IntNe id lhs rhs
  | icmp_sgt => Icmp IntSgt id lhs rhs
  | icmp_slt => Icmp IntSlt id lhs rhs
  | fadd => Binary Fadd id lhs rhs
  | fsub => Binary Fsub id lhs rhs
  | fmul => Binary Fmul id lhs rhs
  | fdiv => Binary Fdiv id lhs rhs
  | fcmp_oeq => Fcmp FloatOeq id lhs rhs
  | fcmp_one => Fcmp FloatOne id lhs rhs
  | fcmp_ogt => Fcmp FloatOgt id lhs rhs
  | fcmp_olt => Fcmp FloatOlt id lhs rhs
  end.

End SpecTable.

(** ** How a module grows during lowering *)

Module Growth.

Import Goory.

Definition nblocks (m : IRModule) : nat := length (blocks m).

(** Every block an instruction branches to lies in [lo, hi). *)
Definition targetsIn (lo hi : nat) (i : Instr) : Prop :=
  Forall (fun t => lo <= t < hi) (targets i).

(** From module [m] with current block [cur] to module [m'] with current
    block [cur']: blocks are only added; an old block is changed only if it
    is [cur], and then only by appending; every instruction added branches
    only to added blocks; the current block stays or moves to an added block. *)
Record Extends (m : IRModule) (cur : option nat) (m' : IRModule) (cur' : option nat)
  : Prop := mkExtends {
  ext_functions : functions m' = functions m;
  ext_temps : temps m <= temps m';
  ext_nblocks : nblocks m <= nblocks m';
  ext_cur : cur' = cur \/ exists b', cur' = Some b' /\ nblocks m <= b' < nblocks m';
  ext_old : forall b blk, blocks m !! b = Some blk ->
      exists suffix,
        blocks m' !! b = Some (mkBlock (owner blk) (instrs blk ++ suffix))
        /\ (cur <> Some b -> suffix = [])
        /\ Forall (targetsIn (nblocks m) (nblocks m')) suffix;
  ext_new : forall b blk, nblocks m <= b -> blocks m' !! b = Some blk ->
      Forall (targetsIn (nblocks m) (nblocks m')) (instrs blk)
}.

(** Every branch of the module goes to a block of the module. *)
Definition closed (m : IRModule) : Prop :=
  forall b blk, blocks m !! b = Some blk -> Forall (targetsIn 0 (nblocks m)) (instrs blk).

(** No instruction of the module branches to block [k]. *)
Definition untargeted (k : nat) (m : IRModule) : Prop :=
  forall b blk i, blocks m !! b = Some blk -> i ∈ instrs blk -> k ∉ targets i.

Definition validBlock (m : IRModule) (cur : option nat) : Prop :=
  exists b, cur = Some b /\ b < nblocks m.

End Growth.

(** ** What one lowering call may change in the lowerer's state *)

Module IrgenStep.

Import Goory Growth Irgen.

(** From [g] to [g']: the module grows as [Extends] says, around the current
    block; the function table, the AST, the current function, the current
    scope index and the number of frames are kept. *)
Record Step (g g' : Irgen) : Prop := mkStep {
  step_ext : Extends (module g) (block g) (module g') (block g');
  step_functions : functions g' = functions g;
  step_root : root g' = root g;
  step_currentFunction : currentFunction g' = currentFunction g;
  step_currentScope : currentScope g' = currentScope g;
  step_scopes : length (scopes g') = length (scopes g)
}.

(** What [blockNode] does to the state: it adds blocks and fills them, and
    leaves every block that existed as it was. *)
Record Quiet (g g' : Irgen) : Prop := mkQuiet {
  quiet_ext : Extends (module g) None (module g') None;
  quiet_block : block g' = block g;
  quiet_functions : functions g' = functions g;
  quiet_root : root g' = root g;
  quiet_currentFunction : currentFunction g' = currentFunction g;
  quiet_currentScope : currentScope g' = currentScope g;
  quiet_scopes : length (scopes g') = length (scopes g)
}.

End IrgenStep.

(** The same for the statement-oriented lowerer, around its parent block. *)
Module StmtStep.

Import Goory Growth.

Definition Grows {Sc : IrgenStmt.ScopeImpl} (g g' : IrgenStmt.Irgen Sc) : Prop :=
  Extends (IrgenStmt.module Sc g) (IrgenStmt.parentBlock Sc g)
          (IrgenStmt.module Sc g') (IrgenStmt.parentBlock Sc g').

End StmtStep.

(** ** The array initializer as the specification words it

    Spec 4.5, ArrayList: for each initializer expression at index i, compute
    an element pointer into the target array slot at (0, i) and store the
    lowered value there.  [arrayRun slot elem i l g g'] is that, for the
    initializers [l] counted from [i], from state [g] to state [g']; it is to
    be compared with the loop of [array]. *)

Module SpecArray.

Import Goory Irgen.

(** The state in which the initializer of a declaration is lowered: the slot
    is allocated in block [b] and the name is bound to it in the current
    frame, which was [sc]. *)
Definition declared (Name : string) (Type_ : Types.Type_) (b : nat) (sc : scope) (g : Irgen)
  : Irgen :=
  setScopes (<[currentScope g := <[Name := Pointer (temps (module g))]> sc]> (scopes g))
    (setModule (appendNamed b (fun id => Alloca id (Llvm Type_)) (module g)).2 g).

Inductive arrayRun (function_is_pointer : bool) (slot : Value) (elem : Types.Type_)
  : nat -> list Ast.Expression -> Irgen -> Irgen -> Prop :=
| arrayRun_nil i g : arrayRun function_is_pointer slot elem i [] g g
| arrayRun_cons i val rest g b value g2 b2 g' :
    (* the element pointer, computed in the current block *)
    block g = Some b ->
    (* the value, lowered after the pointer *)
    expression function_is_pointer val
      (setModule (appendNamed b (fun id =>
           Getelementptr id (Llvm elem) slot
             [ConstantInt (IntType 64) 0; ConstantInt (IntType 64) (Z.of_nat i)])
         (module g)).2 g) = Returned value g2 ->
    (* the store through the element pointer, in the block then current *)
    block g2 = Some b2 ->
    arrayRun function_is_pointer slot elem (S i) rest
      (setModule (append b2 (Store (Pointer (temps (module g))) value) (module g2)) g2) g' ->
    arrayRun function_is_pointer slot elem i (val :: rest) g g'.

End SpecArray.

(** ** The parameter slots as the specification words them

    Spec 4.3, step 4: in the entry block, for each parameter, a stack slot
    of the parameter's type, then a store of the incoming parameter value
    into the slot.  [paramSlots fn t a tys] is that sequence for parameters
    of types [tys] of function [fn], when the next temporary is [t] and the
    function already has [a] arguments. *)

Module SpecPrologue.

Import Goory.

Fixpoint paramSlots (fn t a : nat) (tys : list Type_) : list Instr :=
  match tys with
  | [] => []
  | ty :: rest =>
      Alloca t ty :: Store (Pointer t) (Some (Argument fn a)) :: paramSlots fn (S t) (S a) rest
  end.

(** Every function of the module has its entry block in the module. *)
Definition entriesValid (m : IRModule) : Prop :=
  forall f fn, functions m !! f = Some fn -> entry fn < length (blocks m).

(** The scope of the statement-oriented lowerer after its prologue: each
    argument name bound, in order, to the slot of its position. *)
Fixpoint bindArguments (Sc : IrgenStmt.ScopeImpl) (t : nat) (names : list string)
    (s : IrgenStmt.Scope Sc) : IrgenStmt.Scope Sc :=
  match names with
  | [] => s
  | n :: rest => bindArguments Sc (S t) rest (IrgenStmt.AddVar Sc n (Pointer t) s)
  end.

End SpecPrologue.

(** ** What the claims say of a run, as predicates on its states *)

Module Shape.

Import Goory Growth Irgen SpecArray SpecPrologue.

(** A declaration-assignment of [Name] with initializer [e], from [g] to
    [g']: the slot is allocated in the current block and bound in the current
    frame, the initializer is lowered in that state, where the name resolves
    to the slot, and one store into the slot follows exactly when the
    initializer gave a value. *)
Definition declares (fip : bool) (Name : string) (Type_ : Types.Type_) (e : Ast.Expression)
    (g : Irgen) (v : option Value) (g' : Irgen) : Prop :=
  exists b sc value g2,
    block g = Some b
    /\ scopes g !! currentScope g = Some sc
    /\ findFrom (scopes (declared Name Type_ b sc g)) Name
         (currentScope (declared Name Type_ b sc g))
       = Some (Some (Pointer (temps (module g))))
    /\ expression fip e (declared Name Type_ b sc g) = Returned value g2
    /\ v = None
    /\ match value with
       | Some x =>
           exists b2, block g2 = Some b2
             /\ g' = setModule
                       (append b2 (Store (Pointer (temps (module g))) (Some x)) (module g2)) g2
       | None => g' = g2
       end.

(** A declaration of [Name] whose initializer is an array list for the same
    name, from [g] to [g']: after the slot is allocated and bound, the run is
    the element-wise run into that slot, and nothing follows it. *)
Definition declaresArray (fip : bool) (Name : string) (Type_ ArrayType : Types.Type_)
    (List : list Ast.Expression) (g g' : Irgen) : Prop :=
  exists b sc,
    block g = Some b
    /\ scopes g !! currentScope g = Some sc
    /\ (List = [] -> g' = declared Name Type_ b sc g)
    /\ (List <> [] ->
          exists elem,
            Types.asArray ArrayType = Some elem
            /\ arrayRun fip (Pointer (temps (module g))) elem 0 List
                 (declared Name Type_ b sc g) g').

(** A for loop, from [g] to [g']: the condition is lowered twice, in the
    state the index left and in the state the increment left at the end of
    the body; each time its value feeds a conditional branch to the start of
    the body or to the exit block, appended to the block then current; the
    only blocks the loop itself creates are the start of the body and the
    exit block, which is empty and current at the end. *)
Definition loops (fip : bool) (Index Condition Increment : Ast.Expression)
    (Block_ : list Ast.Expression) (g : Irgen) (v : option Value) (g' : Irgen) : Prop :=
  exists i g1 c1 g2 b2 forStart forEnd g3 inc g5 c2 g6 b6,
    expression fip Index g = Returned i g1
    /\ expression fip Condition g1 = Returned c1 g2
    /\ block g2 = Some b2
    /\ blockNode_ (expression fip) Block_ g2 = Returned (forStart, Some forEnd) g3
    /\ forStart = nblocks (module g2)
    /\ expression fip Increment
         (setBlock (Some forEnd)
            (setModule (append b2 (CondBr c1 forStart (nblocks (module g3)))
                          (AddBlock b2 (module g3)).2) g3))
       = Returned inc g5
    /\ expression fip Condition g5 = Returned c2 g6
    /\ block g6 = Some b6
    /\ g' = setBlock (Some (nblocks (module g3)))
              (setModule (append b6 (CondBr c2 forStart (nblocks (module g3))) (module g6)) g6)
    /\ instrsOf b2 (module g')
       = instrsOf b2 (module g2) ++ [CondBr c1 forStart (nblocks (module g3))]
    /\ instrsOf b6 (module g')
       = instrsOf b6 (module g6) ++ [CondBr c2 forStart (nblocks (module g3))]
    /\ instrsOf (nblocks (module g3)) (module g') = []
    /\ nblocks (module g') = nblocks (module g6)
    /\ v = None.

(** An if whose else arm has condition [c'], from [g] to [g']: the check
    block is the block created after the else body was lowered; in the end it
    holds the branch on the else condition and nothing else; the branch of
    the enclosing if, in the block current after the else condition, has the
    start of the else body as its false target; and no instruction of the
    module branches to the check block. *)
Definition danglingCheck (fip : bool) (c : Ast.Expression) (b : list Ast.Expression)
    (c' : Ast.Expression) (b' : list Ast.Expression) (g : Irgen) (next : nat) (g' : Irgen)
  : Prop :=
  exists trueStart trueEnd gT cond gC cur0 falseStart falseEnd gF cv gV cur,
    blockNode_ (expression fip) b g = Returned (trueStart, trueEnd) gT
    /\ expression fip c gT = Returned cond gC
    /\ block gC = Some cur0
    /\ next = nblocks (module gC)
    /\ blockNode_ (expression fip) b' (setModule (AddBlock cur0 (module gC)).2 gC)
       = Returned (falseStart, falseEnd) gF
    /\ expression fip c' (setModule (AddBlock cur0 (module gF)).2 gF) = Returned cv gV
    /\ block gV = Some cur
    /\ nblocks (module g) <= nblocks (module gF) < nblocks (module g')
    /\ instrsOf (nblocks (module gF)) (module g') = [CondBr cv falseStart next]
    /\ CondBr cond trueStart falseStart ∈ instrsOf cur (module g')
    /\ falseStart < nblocks (module gF)
    /\ untargeted (nblocks (module gF)) (module g').



End Shape.

(** ** Programs and states used as concrete inputs *)

Module Examples.

Import Goory.

Definition i64 : Types.Type_ := Types.IntType 64.
Definition f64 : Types.Type_ := Types.FloatType 64.

(** The state of the expression-oriented lowerer when the body of a
    function [main] without parameters is about to be lowered. *)
Definition emptyMain : Ast.Ast := Ast.mkAst [Ast.mkFunction "main" [] i64 []].

Definition inMain (function_is_pointer : bool) : Irgen.Irgen :=
  match Irgen.function function_is_pointer (Ast.mkFunction "main" [] i64 [])
          (Irgen.NewIrgen emptyMain) with
  | Returned _ g => g
  | _ => Irgen.NewIrgen emptyMain
  end.

(** The same for the statement-oriented lowerer, over the scope type
    modelled from the specification. *)
Definition tok (t : Lexer.TokenType) (v : string) : Lexer.Token := Lexer.mkToken t v.

Definition emptyMain2 : Ast2.Ast :=
  Ast2.mkAst [Ast2.mkFunctionDeclaration (tok Lexer.IDENT "main") i64 [] []].

Definition inMain2 : IrgenStmt.Irgen SpecScope.impl :=
  match IrgenStmt.function SpecScope.impl
          (Ast2.mkFunctionDeclaration (tok Lexer.IDENT "main") i64 [] [])
          (IrgenStmt.NewIrgen SpecScope.impl emptyMain2) with
  | Returned _ g => g
  | _ => IrgenStmt.NewIrgen SpecScope.impl emptyMain2
  end.

(** The float64 values 1.5 and 2.0, by their bits. *)
Definition bits_1_5 : Z := 4609434218613702656.
Definition bits_2_0 : Z := 4611686018427387904.

(** [proc main() -> f64 { return 1.5 % 2.0 }], typed as a float remainder. *)
Definition floatRem : Ast.Expression :=
  Ast.Binary true Lexer.REM (Ast.Float bits_1_5) (Ast.Float bits_2_0).
Definition floatRemProgram : Ast.Ast :=
  Ast.mkAst [Ast.mkFunction "main" [] f64 [Ast.Return floatRem]].

Definition floatRem2 : Ast2.Expression :=
  Ast2.BinaryExpression (Ast2.LiteralExpression (tok Lexer.FLOAT "1.5"))
                        (Ast2.LiteralExpression (tok Lexer.FLOAT "2.0"))
                        (tok Lexer.REM "%") true.
Definition floatRemProgram2 : Ast2.Ast :=
  Ast2.mkAst [Ast2.mkFunctionDeclaration (tok Lexer.IDENT "main") f64 []
                [Ast2.ReturnStatement floatRem2]].

(** The blocks of the module a run of [Generate] returned, if it returned. *)
Definition emitted {St} (o : Outcome St IRModule) : option (list Block) :=
  match o with
  | Returned m _ => Some (blocks m)
  | _ => None
  end.

(** [proc main() -> i64 { return y }]: [y] is bound nowhere. *)
Definition unboundUse : Ast.Ast :=
  Ast.mkAst [Ast.mkFunction "main" [] i64 [Ast.Return (Ast.Ident "y")]].

(** [proc main() -> i64 { x = 1; return x }]: [x] is assigned, not declared. *)
Definition unboundAssign : Ast.Ast :=
  Ast.mkAst [Ast.mkFunction "main" [] i64
    [Ast.Assignment "x" i64 false (Ast.Integer 1); Ast.Return (Ast.Ident "x")]].

(** [proc main() -> i64 { { x := 7 } { return x } }]: [x] is declared in the
    first block and used in its sibling. *)
Definition siblingBlocks : Ast.Ast :=
  Ast.mkAst [Ast.mkFunction "main" [] i64
    [Ast.Block [Ast.Assignment "x" i64 true (Ast.Integer 7)];
     Ast.Block [Ast.Return (Ast.Ident "x")]]].

(** [proc main() -> i64 { { x := 7 } return x }]: [x] is used after its block. *)
Definition afterBlock : Ast.Ast :=
  Ast.mkAst [Ast.mkFunction "main" [] i64
    [Ast.Block [Ast.Assignment "x" i64 true (Ast.Integer 7)];
     Ast.Return (Ast.Ident "x")]].

(** [proc main() -> i64 { if true { let x = 7 }; return x }] for the
    statement-oriented lowerer. *)
Definition afterBlock2 : Ast2.Ast :=
  Ast2.mkAst [Ast2.mkFunctionDeclaration (tok Lexer.IDENT "main") i64 []
    [Ast2.IfStatment_ (Ast2.mkIfStatment (Ast2.IdentExpression (tok Lexer.IDENT "true"))
        [Ast2.DeclareStatement
           (Ast2.VaribleDeclaration (tok Lexer.IDENT "x") i64
              (Ast2.LiteralExpression (tok Lexer.INT "7")))]
        None);
     Ast2.ReturnStatement (Ast2.IdentExpression (tok Lexer.IDENT "x"))]].

(** [proc first() -> i64 { return second() }  proc second() -> i64 { return 123 }]:
    a call to a function declared later. *)
Definition forwardCall : Ast.Ast :=
  Ast.mkAst [Ast.mkFunction "first" [] i64 [Ast.Return (Ast.Call "second" [])];
             Ast.mkFunction "second" [] i64 [Ast.Return (Ast.Integer 123)]].



(** The state in which the body of [first] is lowered. *)
Definition inFirst : Irgen.Irgen :=
  match Irgen.prologue (Ast.mkFunction "first" [] i64 [Ast.Return (Ast.Call "second" [])])
          (Irgen.NewIrgen forwardCall) with
  | Returned _ g => g
  | _ => Irgen.NewIrgen forwardCall
  end.


(** The state a call leaves, or [g] when it does not return. *)
Definition stateAfter {St A} (m : M St A) (g : St) : St :=
  match m g with
  | Returned _ g' => g'
  | _ => g
  end.

(** [proc identity(n i64) -> i64 { return n }] *)
Definition identity : Ast.Function :=
  Ast.mkFunction "identity" [Ast.mkParam i64 "n"] i64 [Ast.Return (Ast.Ident "n")].
Definition identityProgram : Ast.Ast := Ast.mkAst [identity].

Definition identity2 : Ast2.FunctionDeclaration :=
  Ast2.mkFunctionDeclaration (tok Lexer.IDENT "identity")
    i64 [Ast2.mkArgument (tok Lexer.IDENT "n") i64]
    [Ast2.ReturnStatement (Ast2.IdentExpression (tok Lexer.IDENT "n"))].
Definition identityProgram2 : Ast2.Ast := Ast2.mkAst [identity2].

(** [for i := 0; i < 123; i = i + 1 { }] *)
Definition countLoop : Ast.Expression :=
  Ast.For (Ast.Assignment "i" i64 true (Ast.Integer 0))
          (Ast.Binary false Lexer.LSS (Ast.Ident "i") (Ast.Integer 123))
          (Ast.Assignment "i" i64 false
             (Ast.Binary false Lexer.ADD (Ast.Ident "i") (Ast.Integer 1)))
          [].

(** [if true { return 1 } else if false { return 2 }] *)
Definition elseIf : Ast.IfNode :=
  Ast.mkIf (Ast.Ident "true") [Ast.Return (Ast.Integer 1)]
    (Some (Ast.mkIf (Ast.Ident "false") [Ast.Return (Ast.Integer 2)] None)).

(** [a := {121, 1, 1}] with [a] of type [3]i64 *)
Definition arrayType : Types.Type_ := Types.Array i64 3.
Definition arrayElements : list Ast.Expression :=
  [Ast.Integer 121; Ast.Integer 1; Ast.Integer 1].
Definition arrayDeclaration : Ast.Expression :=
  Ast.Assignment "a" arrayType true (Ast.ArrayList "a" arrayType arrayElements).

End Examples.

(** ** Single constructs: predicates and programs for the properties that
    follow the claims *)

Module Construct.

Import Goory Growth Irgen.

(** The call did not return to its caller: it panicked or ended the process. *)
Definition unwinds {St A} (o : Outcome St A) : Prop :=
  match o with
  | Returned _ _ => False
  | _ => True
  end.

(** [e] inside [n] nested blocks: [{ { ... e ... } }]. *)
Fixpoint nest (n : nat) (e : Ast.Expression) : Ast.Expression :=
  match n with
  | O => e
  | S n' => Ast.Block [nest n' e]
  end.

(** A frame binds [v] to [x] innermost among the frames [0 .. cs]. *)
Definition innermost (ss : list scope) (cs : nat) (v : string) (x : Value) : Prop :=
  exists i sc,
    i <= cs /\ ss !! i = Some sc /\ sc !! v = Some x
    /\ forall j scj, i < j <= cs -> ss !! j = Some scj -> scj !! v = None.

(** No frame among [0 .. cs] binds [v]. *)
Definition unbound (ss : list scope) (cs : nat) (v : string) : Prop :=
  forall i sc, i <= cs -> ss !! i = Some sc -> sc !! v = None.

(** What a function of the AST asks of its handle: name, return type and
    the parameters in order. *)
Definition signature (f : Ast.Function) : string * Type_ * list (Type_ * string) :=
  (Ast.Name f, Llvm (Ast.ReturnType f),
   map (fun p => (Llvm (Ast.paramType p), Ast.paramIdent p)) (Ast.Parameters f)).

Definition signature2 (f : Ast2.FunctionDeclaration) : string * Type_ * list (Type_ * string) :=
  (Lexer.tokenValue (Ast2.Name f), Llvm (Ast2.Return f),
   map (fun a => (Llvm (Ast2.argType a), Lexer.tokenValue (Ast2.argName a)))
       (Ast2.Arguments f)).

(** What a handle of the module holds. *)
Definition signatureOf (fn : Goory.Function) : string * Type_ * list (Type_ * string) :=
  (name fn, returnType fn, arguments fn).

(** A handle after [AddArgument] was called for each of [args], in order. *)
Definition withArguments (args : list (Type_ * string)) (fn : Goory.Function)
  : Goory.Function :=
  {| name := name fn; returnType := returnType fn;
     arguments := arguments fn ++ args; entry := entry fn |}.

(** The parameters of a function of the AST, as [AddArgument] receives them. *)
Definition parameterList (f : Ast.Function) : list (Type_ * string) :=
  map (fun p => (Llvm (Ast.paramType p), Ast.paramIdent p)) (Ast.Parameters f).

(** Module [m'] holds what [m] held: no block is lost and every block is
    what it was, extended at its end. *)
Definition prefixes (m m' : IRModule) : Prop :=
  nblocks m <= nblocks m'
  /\ forall b, exists suffix, instrsOf b m' = instrsOf b m ++ suffix.

(** A run of the statement-oriented lowerer that is straight-line code:
    from [g] to [g'] the parent block, the scope, the AST, the functions and
    the number of blocks are kept, and the blocks differ at most in the
    parent block, which received instructions that are not terminators. *)
Definition straight {Sc : IrgenStmt.ScopeImpl} (g g' : IrgenStmt.Irgen Sc) : Prop :=
  IrgenStmt.parentBlock Sc g' = IrgenStmt.parentBlock Sc g
  /\ IrgenStmt.scope Sc g' = IrgenStmt.scope Sc g
  /\ IrgenStmt.tree Sc g' = IrgenStmt.tree Sc g
  /\ Goory.functions (IrgenStmt.module Sc g') = Goory.functions (IrgenStmt.module Sc g)
  /\ nblocks (IrgenStmt.module Sc g') = nblocks (IrgenStmt.module Sc g)
  /\ temps (IrgenStmt.module Sc g) <= temps (IrgenStmt.module Sc g')
  /\ forall b, exists suffix,
       instrsOf b (IrgenStmt.module Sc g') = instrsOf b (IrgenStmt.module Sc g) ++ suffix
       /\ Forall (fun i => isTerminator i = false) suffix
       /\ (IrgenStmt.parentBlock Sc g <> Some b -> suffix = []).

(** [proc main(main i64) -> i64 { }]: the parameter carries the name of
    the function. *)
Definition shadowing : Ast.Function :=
  Ast.mkFunction "main" [Ast.mkParam Examples.i64 "main"] Examples.i64 [].

(** [if true { let x = 7 }] for the statement-oriented lowerer. *)
Definition ifThen2 : Ast2.Statement :=
  Ast2.IfStatment_
    (Ast2.mkIfStatment
       (Ast2.IdentExpression (Examples.tok Lexer.IDENT "true"))
       [Ast2.DeclareStatement
          (Ast2.VaribleDeclaration (Examples.tok Lexer.IDENT "x") Examples.i64
             (Ast2.LiteralExpression (Examples.tok Lexer.INT "7")))]
       None).

(** [if true { return 1 } else if false { return 2 }] for the
    statement-oriented lowerer. *)
Definition elseIf2 : Ast2.Statement :=
  Ast2.IfStatment_
    (Ast2.mkIfStatment
       (Ast2.IdentExpression (Examples.tok Lexer.IDENT "true"))
       [Ast2.ReturnStatement (Ast2.LiteralExpression (Examples.tok Lexer.INT "1"))]
       (Some (Ast2.mkIfStatment
                (Ast2.IdentExpression (Examples.tok Lexer.IDENT "false"))
                [Ast2.ReturnStatement (Ast2.LiteralExpression (Examples.tok Lexer.INT "2"))]
                None))).

Definition inShadowing : Irgen :=
  Examples.stateAfter (prologue shadowing) (NewIrgen (Ast.mkAst [shadowing])).

End Construct.

Import Go Goory Growth.
Import Irgen IrgenStep.

Section GrowthFacts.

Lemma targetsIn_mono lo hi lo' hi' i :
  lo' <= lo -> hi <= hi' -> targetsIn lo hi i -> targetsIn lo' hi' i.
Proof.
  intros Hlo Hhi H. unfold targetsIn in *. eapply Forall_impl; [exact H |].
  intros t [? ?]. simpl. lia.
Qed.

Lemma Forall_targetsIn_mono lo hi lo' hi' (l : list Instr) :
  lo' <= lo -> hi <= hi' -> Forall (targetsIn lo hi) l -> Forall (targetsIn lo' hi') l.
Proof.
  intros ? ? H. eapply Forall_impl; [exact H |]. intros i. by apply targetsIn_mono.
Qed.

Lemma Extends_refl m cur : Extends m cur m cur.
Proof.
  split; try done; try lia.
  - by left.
  - intros b blk Hb. exists []. rewrite app_nil_r. destruct blk; auto.
  - intros b blk Hge Hb. apply lookup_lt_Some in Hb. unfold nblocks in *. lia.
Qed.

Lemma Extends_trans m0 c0 m1 c1 m2 c2 :
  Extends m0 c0 m1 c1 -> Extends m1 c1 m2 c2 -> Extends m0 c0 m2 c2.
Proof.
  intros [F1 T1 N1 C1 O1 W1] [F2 T2 N2 C2 O2 W2]. split.
  - congruence.
  - lia.
  - lia.
  - destruct C2 as [-> | (b' & -> & Hb')].
    + destruct C1 as [-> | (b' & -> & Hb')]; [by left | right; exists b'; split; [done | lia]].
    + right. exists b'. split; [done | lia].
  - intros b blk Hb.
    destruct (O1 b blk Hb) as (s1 & Hb1 & Hs1 & Ht1).
    destruct (O2 b _ Hb1) as (s2 & Hb2 & Hs2 & Ht2). simpl in *.
    exists (s1 ++ s2). split; [by rewrite app_assoc | split].
    + intros Hne. rewrite (Hs1 Hne). simpl. apply Hs2.
      destruct C1 as [-> | (b' & -> & Hb')]; [done |].
      apply lookup_lt_Some in Hb. unfold nblocks in *. intros [= ->]. lia.
    + apply Forall_app. split.
      * eapply Forall_targetsIn_mono; [| | exact Ht1]; lia.
      * eapply Forall_targetsIn_mono; [| | exact Ht2]; lia.
  - intros b blk Hge Hb.
    destruct (decide (b < nblocks m1)) as [Hlt | Hge1].
    + destruct (lookup_lt_is_Some_2 (blocks m1) b Hlt) as [blk1 Hblk1].
      destruct (O2 b _ Hblk1) as (s2 & Hb2 & _ & Ht2).
      rewrite Hb in Hb2. injection Hb2 as ->. simpl.
      apply Forall_app. split.
      * eapply Forall_targetsIn_mono; [| | exact (W1 b blk1 Hge Hblk1)]; lia.
      * eapply Forall_targetsIn_mono; [| | exact Ht2]; lia.
    + eapply Forall_targetsIn_mono; [| | apply (W2 b blk); [lia | done]]; lia.
Qed.

(** Appending to the current block, or to a block that was added. *)
Lemma Extends_append m0 c0 m c b i :
  Extends m0 c0 m c ->
  c0 = Some b \/ nblocks m0 <= b ->
  targetsIn (nblocks m0) (nblocks m) i ->
  Extends m0 c0 (append b i m) c.
Proof.
  intros [F T N C O W] Hb Hi.
  assert (Hn : nblocks (append b i m) = nblocks m).
  { unfold nblocks, append. simpl. by rewrite length_alter. }
  split; rewrite ?Hn; try done.
  - intros b0 blk Hb0. destruct (O b0 blk Hb0) as (s & Hs & Hne & Ht).
    unfold append; simpl.
    destruct (decide (b = b0)) as [-> | Hneq].
    + rewrite list_lookup_alter_eq, Hs. simpl.
      exists (s ++ [i]). rewrite app_assoc. split; [done | split].
      * intros Hc. destruct Hb as [-> | Hge]; [done |].
        apply lookup_lt_Some in Hb0. unfold nblocks in *. lia.
      * apply Forall_app. split; [done | by constructor].
    + rewrite list_lookup_alter_ne by done. eauto.
  - intros b0 blk Hge. unfold append; simpl.
    destruct (decide (b = b0)) as [-> | Hneq].
    + rewrite list_lookup_alter_eq. destruct (blocks m !! b0) as [blk0|] eqn:E; [| done].
      simpl. intros [= <-]. simpl. apply Forall_app. split; [by eapply W | by constructor].
    + rewrite list_lookup_alter_ne by done. by apply W.
Qed.

Lemma Extends_appendNamed m0 c0 m c b mk :
  Extends m0 c0 m c ->
  c0 = Some b \/ nblocks m0 <= b ->
  targetsIn (nblocks m0) (nblocks m) (mk (temps m)) ->
  Extends m0 c0 (appendNamed b mk m).2 c.
Proof.
  intros H Hb Hi. pose proof (Extends_append _ _ _ _ _ _ H Hb Hi) as [F T N C O W].
  unfold appendNamed. simpl. split; simpl in *; try done. lia.
Qed.

Lemma Extends_AddBlock m0 c0 m c b :
  Extends m0 c0 m c -> Extends m0 c0 (AddBlock b m).2 c.
Proof.
  intros [F T N C O W]. split; simpl; try done.
  - unfold nblocks in *. simpl. rewrite length_app. lia.
  - destruct C as [-> | (b' & -> & Hb')]; [by left |].
    right. exists b'. split; [done |]. unfold nblocks in *. simpl. rewrite length_app. lia.
  - intros b0 blk Hb0. destruct (O b0 blk Hb0) as (s & Hs & Hne & Ht).
    exists s. split; [| split; [done |]].
    + apply lookup_app_l_Some. done.
    + eapply Forall_targetsIn_mono; [| | exact Ht]; [lia |].
      unfold nblocks; simpl; rewrite length_app; lia.
  - intros b0 blk Hge Hb0. unfold nblocks in *. simpl in *.
    destruct (decide (b0 < length (blocks m))) as [Hlt | Hnlt].
    + rewrite lookup_app_l in Hb0 by done.
      eapply Forall_targetsIn_mono; [| | exact (W b0 blk Hge Hb0)]; [lia |].
      rewrite length_app; lia.
    + rewrite lookup_app_r in Hb0 by lia.
      destruct (b0 - length (blocks m)) as [|k]; simpl in Hb0; [| done].
      injection Hb0 as <-. simpl. constructor.
Qed.

Lemma AddBlock_fst b m : (AddBlock b m).1 = nblocks m.
Proof. done. Qed.

Lemma AddBlock_nblocks b m : nblocks (AddBlock b m).2 = S (nblocks m).
Proof. unfold nblocks. simpl. rewrite length_app. simpl. lia. Qed.

(** Moving the current block to a block that was added, or back. *)
Lemma Extends_cur m0 c0 m c c' :
  Extends m0 c0 m c ->
  c' = c0 \/ (exists b', c' = Some b' /\ nblocks m0 <= b' < nblocks m) ->
  Extends m0 c0 m c'.
Proof. intros [F T N C O W] Hc. by split. Qed.

(** Where the current block can be after a step. *)
Lemma Extends_cur_inv m0 c0 m b :
  Extends m0 c0 m (Some b) -> c0 = Some b \/ nblocks m0 <= b.
Proof.
  intros [F T N C O W]. destruct C as [<- | (b' & [= <-] & Hb')]; [by left | right; lia].
Qed.

Lemma Extends_valid m0 c0 m c :
  Extends m0 c0 m c -> validBlock m0 c0 -> validBlock m c.
Proof.
  intros [F T N C O W] (b & -> & Hb).
  destruct C as [-> | (b' & -> & Hb')]; [exists b | exists b']; split; try done; lia.
Qed.

Lemma Extends_closed m0 c0 m c :
  Extends m0 c0 m c -> closed m0 -> closed m.
Proof.
  intros [F T N C O W] Hcl b blk Hb.
  destruct (decide (b < nblocks m0)) as [Hlt | Hge].
  - destruct (lookup_lt_is_Some_2 (blocks m0) b Hlt) as [blk0 Hblk0].
    destruct (O b blk0 Hblk0) as (s & Hs & _ & Ht).
    rewrite Hb in Hs. injection Hs as ->. simpl. apply Forall_app. split.
    + eapply Forall_targetsIn_mono; [| | exact (Hcl b blk0 Hblk0)]; lia.
    + eapply Forall_targetsIn_mono; [| | exact Ht]; lia.
  - eapply Forall_targetsIn_mono; [| | apply (W b blk); [lia | done]]; lia.
Qed.

Lemma Extends_untargeted k m0 c0 m c :
  Extends m0 c0 m c -> k < nblocks m0 -> untargeted k m0 -> untargeted k m.
Proof.
  intros [F T N C O W] Hk Hun b blk i Hb Hi Hin.
  assert (Hfresh : forall j, targetsIn (nblocks m0) (nblocks m) j -> k ∉ targets j).
  { intros j Hj Hkj. unfold targetsIn in Hj. rewrite Forall_forall in Hj.
    specialize (Hj k Hkj). lia. }
  destruct (decide (b < nblocks m0)) as [Hlt | Hge].
  - destruct (lookup_lt_is_Some_2 (blocks m0) b Hlt) as [blk0 Hblk0].
    destruct (O b blk0 Hblk0) as (s & Hs & _ & Ht).
    rewrite Hb in Hs. injection Hs as ->. simpl in Hi.
    apply elem_of_app in Hi as [Hi | Hi].
    + by apply (Hun b blk0 i).
    + rewrite Forall_forall in Ht. by apply (Hfresh i (Ht i Hi)).
  - assert (Hw := W b blk ltac:(lia) Hb). rewrite Forall_forall in Hw.
    by apply (Hfresh i (Hw i Hi)).
Qed.

Lemma closed_untargeted k m : closed m -> nblocks m <= k -> untargeted k m.
Proof.
  intros Hcl Hk b blk i Hb Hi Hin.
  specialize (Hcl b blk Hb). rewrite Forall_forall in Hcl.
  specialize (Hcl i Hi). unfold targetsIn in Hcl. rewrite Forall_forall in Hcl.
  specialize (Hcl k Hin). lia.
Qed.

End GrowthFacts.

(** * Inversion of the monad *)

Lemma bind_Returned {St A B} (m : M St A) (k : A -> M St B) g b g' :
  bind m k g = Returned b g' ->
  exists a g1, m g = Returned a g1 /\ k a g1 = Returned b g'.
Proof. unfold bind. destruct (m g) as [a g1| |]; [eauto | done | done]. Qed.

Lemma pure_Returned {St A} (a b : A) (g g' : St) :
  pure a g = Returned b g' -> b = a /\ g' = g.
Proof. by intros [= -> ->]. Qed.

Lemma get_Returned {St} (g a g' : St) : get g = Returned a g' -> a = g /\ g' = g.
Proof. by intros [= -> ->]. Qed.

Lemma modify_Returned {St} (f : St -> St) g u g' :
  modify f g = Returned u g' -> g' = f g.
Proof. by intros [= _ ->]. Qed.

Lemma panic_Returned {St A} p g (a : A) (g' : St) : panic p g = Returned a g' -> False.
Proof. done. Qed.

Lemma fatal_Returned {St A} f x g (a : A) (g' : St) : fatal f x g = Returned a g' -> False.
Proof. done. Qed.

(** Decompose a hypothesis [H : (do x <- m; k) g = Returned a g'] into the
    calls it is made of. *)
Ltac invM H :=
  lazymatch type of H with
  | bind _ _ _ = Returned _ _ =>
      let a := fresh "a" in let g := fresh "g" in let H1 := fresh H in
      apply bind_Returned in H as (a & g & H1 & H);
      invM H1; invM H
  | pure _ _ = Returned _ _ =>
      apply pure_Returned in H as [? ?]; subst
  | get _ = Returned _ _ =>
      apply get_Returned in H as [? ?]; subst
  | modify _ _ = Returned _ _ =>
      apply modify_Returned in H; subst
  | panic _ _ = Returned _ _ => destruct (panic_Returned _ _ _ _ H)
  | fatal _ _ _ = Returned _ _ => destruct (fatal_Returned _ _ _ _ _ H)
  | (match ?x with _ => _ end) _ = Returned _ _ =>
      let E := fresh "E" in destruct x eqn:E; invM H
  | _ => idtac
  end.

Section IrgenPrims.
Import Irgen IrgenStep.

Lemma Step_refl g : Step g g.
Proof. split; try done. apply Extends_refl. Qed.

Lemma Step_trans g0 g1 g2 : Step g0 g1 -> Step g1 g2 -> Step g0 g2.
Proof.
  intros [E1 F1 R1 C1 S1 L1] [E2 F2 R2 C2 S2 L2].
  split; try congruence. eapply Extends_trans; eassumption.
Qed.

Lemma theBlock_Returned g b g' :
  theBlock g = Returned b g' -> g' = g /\ block g = Some b.
Proof. unfold theBlock. destruct (block g); [by intros [= -> ->] | done]. Qed.

Lemma deref_Returned x g b g' : deref x g = Returned b g' -> g' = g /\ x = Some b.
Proof. destruct x; [by intros [= -> ->] | done]. Qed.

Lemma terminated_Returned b g t g' :
  terminated b g = Returned t g' -> g' = g /\ t = Terminated b (module g).
Proof. by intros [= <- <-]. Qed.

Lemma find_Returned v g x g' :
  find v g = Returned x g' -> g' = g /\ findFrom (scopes g) v (currentScope g) = Some x.
Proof. unfold find. destruct (findFrom _ _ _); [by intros [= -> ->] | done]. Qed.

Lemma asPointer_Returned fip x g p g' :
  asPointer fip x g = Returned p g' -> g' = g /\ x = Some p.
Proof.
  unfold asPointer. destruct x as [[]|]; try done; try by intros [= -> ->].
  destruct fip; [by intros [= -> ->] | done].
Qed.

Lemma bindName_Returned n v g u g' :
  bindName n v g = Returned u g' ->
  exists sc, scopes g !! currentScope g = Some sc /\
    g' = setScopes (<[currentScope g := <[n := v]> sc]> (scopes g)) g.
Proof.
  unfold bindName. destruct (scopes g !! currentScope g) as [sc|]; [| done].
  intros [= _ <-]. eauto.
Qed.

Lemma emitAt_Returned b i g u g' :
  emitAt b i g = Returned u g' -> g' = setModule (append b i (module g)) g.
Proof. by intros [= _ <-]. Qed.

Lemma emitNamedAt_Returned b mk g id g' :
  emitNamedAt b mk g = Returned id g' ->
  id = temps (module g) /\ g' = setModule (appendNamed b mk (module g)).2 g.
Proof. by intros [= <- <-]. Qed.

Lemma emit_Returned i g u g' :
  emit i g = Returned u g' ->
  exists b, block g = Some b /\ g' = setModule (append b i (module g)) g.
Proof.
  unfold emit. intros H. apply bind_Returned in H as (b & g1 & H1 & H).
  apply theBlock_Returned in H1 as [-> Hb]. apply emitAt_Returned in H. eauto.
Qed.

Lemma emitNamed_Returned mk g id g' :
  emitNamed mk g = Returned id g' ->
  exists b, block g = Some b /\ id = temps (module g) /\
    g' = setModule (appendNamed b mk (module g)).2 g.
Proof.
  unfold emitNamed. intros H. apply bind_Returned in H as (b & g1 & H1 & H).
  apply theBlock_Returned in H1 as [-> Hb]. apply emitNamedAt_Returned in H as [-> ->]. eauto.
Qed.

Lemma addBlock_Returned g n g' :
  addBlock g = Returned n g' ->
  exists b, block g = Some b /\ n = nblocks (module g) /\
    g' = setModule (AddBlock b (module g)).2 g.
Proof.
  unfold addBlock. intros H. apply bind_Returned in H as (b & g1 & H1 & H).
  apply theBlock_Returned in H1 as [-> Hb]. injection H as <- <-. eauto.
Qed.

Lemma addArgument_Returned f t n g v g' :
  addArgument f t n g = Returned v g' ->
  v = (AddArgument f t n (module g)).1 /\ g' = setModule (AddArgument f t n (module g)).2 g.
Proof. by intros [= <- <-]. Qed.

(** Steps relative to a start state [g0]. *)

Lemma Step_emit g0 g i u g' :
  Step g0 g -> emit i g = Returned u g' ->
  targetsIn (nblocks (module g0)) (nblocks (module g)) i ->
  Step g0 g'.
Proof.
  intros [E F R C S L] H Hi. apply emit_Returned in H as (b & Hb & ->).
  split; simpl; try done.
  rewrite Hb in *. apply Extends_append; [done | | done].
  by eapply Extends_cur_inv.
Qed.

Lemma Step_emitNamed g0 g mk id g' :
  Step g0 g -> emitNamed mk g = Returned id g' ->
  (forall n, targets (mk n) = []) ->
  Step g0 g'.
Proof.
  intros [E F R C S L] H Hi. apply emitNamed_Returned in H as (b & Hb & -> & ->).
  split; simpl; try done.
  rewrite Hb in *. apply Extends_appendNamed; [done | | ].
  - by eapply Extends_cur_inv.
  - unfold targetsIn. rewrite Hi. constructor.
Qed.

Lemma Step_emitAt g0 g b i u g' :
  Step g0 g -> emitAt b i g = Returned u g' ->
  nblocks (module g0) <= b ->
  targetsIn (nblocks (module g0)) (nblocks (module g)) i ->
  Step g0 g'.
Proof.
  intros [E F R C S L] H Hb Hi. apply emitAt_Returned in H as ->.
  split; simpl; try done. apply Extends_append; auto.
Qed.

Lemma Step_addBlock g0 g n g' :
  Step g0 g -> addBlock g = Returned n g' ->
  Step g0 g' /\ n = nblocks (module g) /\ nblocks (module g') = S n.
Proof.
  intros [E F R C S L] H. apply addBlock_Returned in H as (b & Hb & -> & ->).
  split; [| split; [done | simpl; apply AddBlock_nblocks]].
  split; simpl; try done. by apply Extends_AddBlock.
Qed.

Lemma Step_setBlock g0 g b :
  Step g0 g -> nblocks (module g0) <= b < nblocks (module g) ->
  Step g0 (setBlock (Some b) g).
Proof.
  intros [E F R C S L] Hb. split; simpl; try done.
  eapply Extends_cur; [exact E |]. right. eauto.
Qed.

Lemma Step_bindName g0 g n v u g' :
  Step g0 g -> bindName n v g = Returned u g' -> Step g0 g'.
Proof.
  intros [E F R C S L] H. apply bindName_Returned in H as (sc & Hsc & ->).
  split; simpl; try done. by rewrite length_insert.
Qed.

Lemma Step_nblocks g0 g : Step g0 g -> nblocks (module g0) <= nblocks (module g).
Proof. intros [[] ? ? ? ? ?]. done. Qed.

End IrgenPrims.

Lemma list_all_Forall {A} (P : A -> Prop) (l : list A) : list_all A P l -> Forall P l.
Proof. induction 1; constructor; auto. Qed.

(** Induction over the AST as [expression] and [ifNode] walk it: an if node
    reaches into its else arm. *)
Lemma Expression_IfNode_ind (P : Ast.Expression -> Prop) (Q : Ast.IfNode -> Prop) :
  P Ast.Nil -> P Ast.Other ->
  (forall v, P v -> P (Ast.Return v)) ->
  (forall t e, P e -> P (Ast.Cast t e)) ->
  (forall n t d e, P e -> P (Ast.Assignment n t d e)) ->
  (forall f args, Forall P args -> P (Ast.Call f args)) ->
  (forall n, Q n -> P (Ast.If n)) ->
  (forall i c inc b, P i -> P c -> P inc -> Forall P b -> P (Ast.For i c inc b)) ->
  (forall n t l, Forall P l -> P (Ast.ArrayList n t l)) ->
  (forall a i, P i -> P (Ast.ArrayValue a i)) ->
  (forall l, Forall P l -> P (Ast.Block l)) ->
  (forall f o l r, P l -> P r -> P (Ast.Binary f o l r)) ->
  (forall v, P (Ast.Integer v)) ->
  (forall b, P (Ast.Float b)) ->
  (forall v, P (Ast.Ident v)) ->
  (forall c b, P c -> Forall P b -> Q (Ast.mkIf c b None)) ->
  (forall c b c' b' e', P c -> Forall P b -> P c' -> Forall P b' ->
     (forall n2, e' = Some n2 -> Q n2) -> Q (Ast.mkIf c b (Some (Ast.mkIf c' b' e')))) ->
  (forall e, P e) /\ (forall n, Q n).
Proof.
  intros HNil HOther HRet HCast HAsg HCall HIf HFor HAL HAV HBlk HBin HInt HFlt HId HQ0 HQ1.
  pose (Q' := fun n => Q n /\
     match n with Ast.mkIf c b e => P c /\ Forall P b /\ forall n2, e = Some n2 -> Q n2 end).
  assert (H : (forall e, P e) /\ (forall n, Q' n)).
  { apply Ast.Expression_IfNode_mut; eauto using list_all_Forall.
    - intros n [Hn _]. auto.
    - intros c Hc b Hb e He. apply list_all_Forall in Hb.
      destruct He as [[c' b' e'] [Hel (Hc' & Hb' & He')] | ].
      + split; [by apply HQ1 |]. split; [done | split; [done |]].
        by intros n2 [= <-].
      + split; [by apply HQ0 | done]. }
  destruct H as [HP HQ']. split; [done |]. intros n. apply HQ'.
Qed.

Lemma Extends_None_any m m' c : Extends m None m' None -> Extends m c m' c.
Proof.
  intros [F T N C O W]. split; try done; [by left |].
  intros b blk Hb. destruct (O b blk Hb) as (s & Hs & Hne & Ht).
  exists s. split; [done | split; [| done]]. intros _. by apply Hne.
Qed.

(** Local facts of the builder calls. *)
Lemma emit_facts i g u g' :
  emit i g = Returned u g' ->
  nblocks (module g') = nblocks (module g) /\ block g' = block g.
Proof.
  intros H. apply emit_Returned in H as (b & Hb & ->). simpl. split; [| done].
  unfold nblocks, append. simpl. by rewrite length_alter.
Qed.

Lemma emitNamed_facts mk g id g' :
  emitNamed mk g = Returned id g' ->
  nblocks (module g') = nblocks (module g) /\ block g' = block g.
Proof.
  intros H. apply emitNamed_Returned in H as (b & Hb & -> & ->). simpl. split; [| done].
  unfold nblocks, append. simpl. by rewrite length_alter.
Qed.

Lemma emitAt_facts b i g u g' :
  emitAt b i g = Returned u g' ->
  nblocks (module g') = nblocks (module g) /\ block g' = block g.
Proof.
  intros H. apply emitAt_Returned in H as ->. simpl. split; [| done].
  unfold nblocks, append. simpl. by rewrite length_alter.
Qed.

Lemma addBlock_facts g n g' :
  addBlock g = Returned n g' ->
  n = nblocks (module g) /\ nblocks (module g') = S (nblocks (module g)) /\ block g' = block g.
Proof.
  intros H. apply addBlock_Returned in H as (b & Hb & -> & ->). simpl.
  split; [done | split; [apply AddBlock_nblocks | done]].
Qed.

Lemma bindName_facts n v g u g' :
  bindName n v g = Returned u g' ->
  module g' = module g /\ block g' = block g.
Proof. intros H. apply bindName_Returned in H as (sc & Hsc & ->). done. Qed.

Lemma Step_block_fresh g0 g b :
  Step g0 g -> block g = Some b -> block g0 = Some b \/ nblocks (module g0) <= b < nblocks (module g).
Proof.
  intros [[F T N C O W] _ _ _ _ _] Hb. rewrite Hb in C.
  destruct C as [<- | (b' & [= <-] & Hb')]; auto.
Qed.

Section Loops.
Context {A : Type}.

Lemma each_Step (f : A -> LM unit) (l : list A) :
  Forall (fun x => forall g u g', f x g = Returned u g' -> Step g g') l ->
  forall g u g', each f l g = Returned u g' -> Step g g'.
Proof.
  induction 1 as [| x l Hx Hl IH]; intros g u g' H; simpl in H.
  - invM H. apply Step_refl.
  - invM H. eapply Step_trans; eauto.
Qed.

Lemma eachFrom_Step (f : nat -> A -> LM unit) (l : list A) :
  Forall (fun x => forall i g u g', f i x g = Returned u g' -> Step g g') l ->
  forall i g u g', eachFrom f i l g = Returned u g' -> Step g g'.
Proof.
  induction 1 as [| x l Hx Hl IH]; intros i g u g' H; simpl in H.
  - invM H. apply Step_refl.
  - invM H. eapply Step_trans; eauto.
Qed.

Lemma collect_Step {B} (f : A -> LM B) (l : list A) :
  Forall (fun x => forall g u g', f x g = Returned u g' -> Step g g') l ->
  forall g u g', collect f l g = Returned u g' -> Step g g'.
Proof.
  induction 1 as [| x l Hx Hl IH]; intros g u g' H; simpl in H.
  - invM H. apply Step_refl.
  - invM H. eapply Step_trans; eauto.
Qed.

End Loops.

Lemma Quiet_Step g g' : Quiet g g' -> Step g g'.
Proof.
  intros [E B F R C S L]. split; try done. rewrite B. by apply Extends_None_any.
Qed.

Section BlockNode.
Variable E : Ast.Expression -> LM (option Value).

Lemma blockNode_spec (l : list Ast.Expression) :
  Forall (fun e => forall g v g', E e g = Returned v g' -> Step g g') l ->
  forall g s e g', blockNode_ E l g = Returned (s, e) g' ->
    Quiet g g' /\ s = nblocks (module g) /\
    exists b, e = Some b /\ nblocks (module g) <= b < nblocks (module g').
Proof.
  intros Hl g s e g' H. unfold blockNode_ in H. invM H. simplify_eq.
  match goal with H : addBlock _ = Returned _ _ |- _ =>
    apply addBlock_Returned in H as (b & Hb & -> & ->) end.
  match goal with H : each _ _ _ = Returned _ _ |- _ =>
    eapply each_Step in H as [Ex F R C S L] end.
  2:{ eapply Forall_impl; [exact Hl |]. intros x Hx g2 u g2' H2. invM H2. eauto. }
  simpl in *.
  assert (E1 : Extends (module g) None (module g1) (block g1)).
  { eapply Extends_trans; [| exact Ex].
    eapply Extends_cur; [apply Extends_AddBlock, Extends_refl |].
    right. eexists. split; [done |]. unfold nblocks. simpl. rewrite length_app. simpl. lia. }
  split; [| split; [done |]].
  - split; simpl; try done. eapply Extends_cur; [exact E1 | by left].
  - destruct E1 as [_ _ N [HC | (b' & HC & Hb')] _ _]; [| by eauto].
    destruct Ex as [_ _ N' [HC' | (b' & HC' & Hb')] _ _]; rewrite HC' in HC; try done.
Qed.

End BlockNode.

(** Collect, along a decomposed run, where the run stands relative to its
    start: one [Step] from the start to the latest state, and the block
    counts in between. *)
Ltac chain1 :=
  match goal with
  | HS : Step ?g0 ?g, H : emitNamed _ ?g = Returned _ ?g' |- _ =>
      let HS' := fresh "HS" in
      assert (HS' : Step g0 g') by (eapply Step_emitNamed; [exact HS | exact H | done]);
      destruct (emitNamed_facts _ _ _ _ H) as [? ?]; clear HS
  | HS : Step ?g0 ?g, H : emit _ ?g = Returned _ ?g' |- _ =>
      let HS' := fresh "HS" in
      assert (HS' : Step g0 g')
        by (eapply Step_emit; [exact HS | exact H | unfold targetsIn; simpl; repeat constructor; lia]);
      destruct (emit_facts _ _ _ _ H) as [? ?]; clear HS
  | HS : Step ?g0 ?g, H : emitAt ?b _ ?g = Returned _ ?g' |- _ =>
      let HS' := fresh "HS" in
      assert (HS' : Step g0 g')
        by (eapply Step_emitAt; [exact HS | exact H | lia | unfold targetsIn; simpl; repeat constructor; lia]);
      destruct (emitAt_facts _ _ _ _ _ H) as [? ?]; clear HS
  | HS : Step ?g0 ?g, H : addBlock ?g = Returned _ ?g' |- _ =>
      let HS' := fresh "HS" in
      destruct (Step_addBlock _ _ _ _ HS H) as (HS' & _ & _);
      destruct (addBlock_facts _ _ _ H) as (? & ? & ?); clear HS
  | HS : Step ?g0 ?g, H : bindName _ _ ?g = Returned _ ?g' |- _ =>
      let HS' := fresh "HS" in
      assert (HS' := Step_bindName _ _ _ _ _ _ HS H);
      destruct (bindName_facts _ _ _ _ _ H) as [? ?]; clear HS
  | HS : Step ?g0 ?g, H : find _ ?g = Returned _ ?g' |- _ =>
      apply find_Returned in H as [-> ?]
  | HS : Step ?g0 ?g, H : asPointer _ _ ?g = Returned _ ?g' |- _ =>
      apply asPointer_Returned in H as [-> ?]
  | HS : Step ?g0 ?g, H : deref _ ?g = Returned _ ?g' |- _ =>
      apply deref_Returned in H as [-> H]; try (injection H as H); subst
  | HS : Step ?g0 ?g, H : terminated _ ?g = Returned _ ?g' |- _ =>
      apply terminated_Returned in H as [-> ?]
  | HS : Step ?g0 ?g, IH : Forall _ ?l, H : blockNode_ _ ?l ?g = Returned _ ?g' |- _ =>
      let HS' := fresh "HS" in let HQ := fresh "HQ" in
      destruct (blockNode_spec _ _ IH _ _ _ _ H) as (HQ & ? & (? & ? & ?));
      assert (HS' := Step_trans _ _ _ HS (Quiet_Step _ _ HQ));
      pose proof (Step_nblocks _ _ (Quiet_Step _ _ HQ));
      pose proof (quiet_block _ _ HQ);
      clear HS; subst
  | HS : Step ?g0 ?g, H : _ (setBlock (Some ?b) ?g) = Returned _ _ |- _ =>
      let HS' := fresh "HS" in
      assert (HS' : Step g0 (setBlock (Some b) g)) by (apply Step_setBlock; [exact HS | lia]);
      clear HS
  | HS : Step ?g0 ?g,
    IH : (forall g next g', ifNode ?fip ?n g = Returned next g' -> Step g g' /\ _),
    H : ifNode ?fip ?n ?g = Returned _ ?g' |- _ =>
      let HS' := fresh "HS" in let HS1 := fresh "HS" in
      destruct (IH _ _ _ H) as [HS1 ?];
      assert (HS' := Step_trans _ _ _ HS HS1);
      pose proof (Step_nblocks _ _ HS1); clear HS HS1
  | HS : Step ?g0 ?g, IH : (forall g v g', ?f g = Returned v g' -> Step g g'),
      H : ?f ?g = Returned _ ?g' |- _ =>
      let HS' := fresh "HS" in
      assert (HS' := Step_trans _ _ _ HS (IH _ _ _ H));
      pose proof (Step_nblocks _ _ (IH _ _ _ H)); clear HS
  end.
Ltac simp_state :=
  cbn [module block functions root currentFunction currentScope scopes
       setBlock setModule setScopes setCurrentScope setFunctions setCurrentFunction] in *.
Ltac chain := repeat (simp_state; chain1); simp_state.

Section ExpressionStep.
Variable fip : bool.

Lemma ident_Step v g x g' : ident fip v g = Returned x g' -> Step g g'.
Proof.
  unfold ident, boolNode. intros H.
  destruct (String.eqb v "true" || String.eqb v "false").
  - destruct (String.eqb v "true"); [invM H; apply Step_refl |].
    destruct (String.eqb v "false"); invM H; apply Step_refl.
  - invM H. pose proof (Step_refl g) as HS. chain. done.
Qed.

Lemma binaryInstr_targets f o l r mk :
  binaryInstr f o l r = Some mk -> forall n, targets (mk n) = [].
Proof. destruct f, o; simpl; intros [= <-]; done. Qed.

Theorem lowering_Step :
  (forall e g v g', expression fip e g = Returned v g' -> Step g g') /\
  (forall n g next g', ifNode fip n g = Returned next g' ->
     Step g g' /\ nblocks (module g) <= next < nblocks (module g')).
Proof.
  apply Expression_IfNode_ind.
  - (* Nil *) intros g v g' H. cbn [expression] in H. invM H.
  - (* Other *) intros g v g' H. cbn [expression] in H. invM H.
  - (* Return *) intros e IH g v g' H. cbn [expression] in H. unfold ret_ in H. invM H.
    pose proof (Step_refl g) as HS. chain. done.
  - (* Cast *) intros t e IH g v g' H. cbn [expression] in H. unfold cast_ in H. invM H.
    pose proof (Step_refl g) as HS. chain. done.
  - (* Assignment *) intros n t d e IH g v g' H. cbn [expression] in H.
    unfold assignment_ in H. invM H; pose proof (Step_refl g) as HS; chain; done.
  - (* Call *) intros f args IH g v g' H. cbn [expression] in H. unfold call_ in H. invM H.
    match goal with H : collect _ _ _ = Returned _ _ |- _ =>
      apply (collect_Step _ _ IH) in H end.
    chain. done.
  - (* If *) intros n IH g v g' H. cbn [expression] in H. invM H.
    match goal with H : ifNode _ _ _ = Returned _ _ |- _ =>
      destruct (IH _ _ _ H) as [HS Hn] end.
    by apply Step_setBlock.
  - (* For *) intros i c inc b IHi IHc IHinc IHb g v g' H. cbn [expression] in H.
    unfold forNode_ in H. invM H.
    pose proof (Step_refl g) as HS. chain.
    apply Step_setBlock; [done | lia].
  - (* ArrayList *) intros n t l IH g v g' H. cbn [expression] in H. unfold array_ in H.
    invM H. pose proof (Step_refl g) as HS. chain.
    match goal with H : eachFrom _ _ _ _ = Returned _ _ |- _ =>
      eapply eachFrom_Step in H; [done |] end.
    eapply Forall_impl; [exact IH |]. intros x Hx k gx u gx' Hbody.
    invM Hbody. pose proof (Step_refl gx) as HS1. chain. done.
  - (* ArrayValue *) intros a i IH g v g' H. cbn [expression] in H. unfold arrayValue_ in H.
    invM H. pose proof (Step_refl g) as HS. chain. done.
  - (* Block *) intros l IH g v g' H. cbn [expression] in H. invM H.
    pose proof (Step_refl g) as HS. chain.
    apply Step_setBlock; [done | lia].
  - (* Binary *) intros f o l r IHl IHr g v g' H. cbn [expression] in H. unfold binary_ in H.
    invM H. pose proof (Step_refl g) as HS. chain.
    eapply Step_emitNamed; [exact HS | eassumption | by eapply binaryInstr_targets].
  - (* Integer *) intros z g v g' H. cbn [expression] in H. unfold integer in H. invM H.
    apply Step_refl.
  - (* Float *) intros z g v g' H. cbn [expression] in H. unfold float in H. invM H.
    apply Step_refl.
  - (* Ident *) intros x g v g' H. cbn [expression] in H. by eapply ident_Step.
  - (* if without else *) intros c b IHc IHb g next g' H. cbn [ifNode] in H. invM H.
    all: pose proof (Step_refl g) as HS; chain.
    all: split; [done | lia].
  - (* if with an else arm *)
    intros c b c' b' e' IHc IHb IHc' IHb' IHe' g next g' H.
    destruct e' as [n2 |]; [specialize (IHe' n2 eq_refl) | clear IHe'].
    all: cbn [ifNode] in H; invM H.
    all: pose proof (Step_refl g) as HS; chain.
    all: split; [done | lia].
Qed.

Lemma expression_Step e g v g' : expression fip e g = Returned v g' -> Step g g'.
Proof. apply lowering_Step. Qed.

Lemma ifNode_Step n g next g' :
  ifNode fip n g = Returned next g' ->
  Step g g' /\ nblocks (module g) <= next < nblocks (module g').
Proof. apply lowering_Step. Qed.

End ExpressionStep.

(** * Facts about the builder calls shared by the claims *)

Lemma alter_insert {A} (f : A -> A) (l : list A) (i : nat) (x : A) :
  l !! i = Some x -> alter f i l = <[i := f x]> l.
Proof.
  intros H. rewrite list_insert_alter. apply list_alter_ext; [| done].
  intros y Hy. congruence.
Qed.

Lemma append_blocks b i m blk :
  blocks m !! b = Some blk ->
  blocks (append b i m) = <[b := mkBlock (owner blk) (instrs blk ++ [i])]> (blocks m).
Proof. intros H. unfold append. simpl. by rewrite (alter_insert _ _ _ _ H). Qed.

Lemma appendNamed_blocks b mk m blk :
  blocks m !! b = Some blk ->
  blocks (appendNamed b mk m).2 =
    <[b := mkBlock (owner blk) (instrs blk ++ [mk (temps m)])]> (blocks m).
Proof. intros H. unfold appendNamed. simpl. by rewrite (alter_insert _ _ _ _ H). Qed.

Lemma instrsOf_append_eq b i m :
  b < nblocks m -> instrsOf b (append b i m) = instrsOf b m ++ [i].
Proof.
  intros Hb. destruct (lookup_lt_is_Some_2 (blocks m) b Hb) as [blk Hblk].
  unfold instrsOf. rewrite (append_blocks _ _ _ _ Hblk).
  rewrite list_lookup_insert_eq by done. by rewrite Hblk.
Qed.

Lemma instrsOf_append_ne b b' i m :
  b <> b' -> instrsOf b' (append b i m) = instrsOf b' m.
Proof. intros Hne. unfold instrsOf, append. simpl. by rewrite list_lookup_alter_ne. Qed.

(** The switches of [binary] against the table of the specification. *)
Lemma binaryInstr_table IsFp Op lhs rhs :
  binaryInstr IsFp Op lhs rhs =
    (fun o id => SpecTable.instr o id lhs rhs) <$> SpecTable.opcode IsFp Op.
Proof. destruct IsFp, Op; reflexivity. Qed.

Lemma opcode_family IsFp Op o :
  SpecTable.opcode IsFp Op = Some o -> SpecTable.isFloatOpcode o = IsFp.
Proof. destruct IsFp, Op; simpl; intros [= <-]; reflexivity. Qed.

Lemma opcode_float_REM : SpecTable.opcode true Lexer.REM = None.
Proof. reflexivity. Qed.

Section IrgenBinary.
Variable fip : bool.

Lemma binary_emits IsFp Op Lhs Rhs o g lhs g1 rhs g2 b blk :
  SpecTable.opcode IsFp Op = Some o ->
  expression fip Lhs g = Returned lhs g1 ->
  expression fip Rhs g1 = Returned rhs g2 ->
  block g2 = Some b ->
  blocks (module g2) !! b = Some blk ->
  let id := temps (module g2) in
  exists m',
    expression fip (Ast.Binary IsFp Op Lhs Rhs) g = Returned (Some (Temp id)) (setModule m' g2)
    /\ blocks m' =
         <[b := mkBlock (owner blk) (instrs blk ++ [SpecTable.instr o id lhs rhs])]>
           (blocks (module g2))
    /\ Goory.functions m' = Goory.functions (module g2)
    /\ temps m' = S id
    /\ SpecTable.isFloatOpcode o = IsFp.
Proof.
  intros Ho HL HR Hb Hblk id.
  exists (appendNamed b (fun id => SpecTable.instr o id lhs rhs) (module g2)).2.
  split; [| split; [| split; [done | split; [done | by eapply opcode_family]]]].
  - cbn [expression]. unfold binary_, bind. rewrite HL, HR.
    rewrite binaryInstr_table, Ho. simpl.
    unfold emitNamed, bind, theBlock. rewrite Hb. reflexivity.
  - by rewrite (appendNamed_blocks _ _ _ _ Hblk).
Qed.

(** The outcome of a float remainder. *)
Lemma binary_float_REM Lhs Rhs g :
  expression fip (Ast.Binary true Lexer.REM Lhs Rhs) g =
    match expression fip Lhs g with
    | Returned lhs g1 =>
        match expression fip Rhs g1 with
        | Returned rhs g2 => Panicked (PanicMessage "Unhandled binary operator")
        | Panicked p => Panicked p
        | Fatal f x => Fatal f x
        end
    | Panicked p => Panicked p
    | Fatal f x => Fatal f x
    end.
Proof.
  cbn [expression]. unfold binary_, bind.
  destruct (expression fip Lhs g) as [lhs g1 | |]; [| done | done].
  destruct (expression fip Rhs g1) as [rhs g2 | |]; done.
Qed.

End IrgenBinary.

Module StmtFacts.
Import IrgenStmt.

Section Stmt.
Variable S : ScopeImpl.

Lemma binaryExp_table IsFp Op lhs rhs :
  binaryInstr IsFp Op lhs rhs =
    (fun o id => SpecTable.instr o id lhs rhs) <$> SpecTable.opcode IsFp Op.
Proof. destruct IsFp, Op; reflexivity. Qed.

Lemma binaryExp_emits IsFp Operator Left Right o (g : Irgen S) lv g1 rv g2 b blk :
  SpecTable.opcode IsFp (Lexer.tokenType Operator) = Some o ->
  expression S Left g = Returned lv g1 ->
  expression S Right g1 = Returned rv g2 ->
  parentBlock S g2 = Some b ->
  blocks (module S g2) !! b = Some blk ->
  let id := temps (module S g2) in
  exists m',
    binaryExp S Left Right Operator IsFp g = Returned (Some (Temp id)) (setModule S m' g2)
    /\ blocks m' =
         <[b := mkBlock (owner blk) (instrs blk ++ [SpecTable.instr o id lv rv])]>
           (blocks (module S g2))
    /\ Goory.functions m' = Goory.functions (module S g2)
    /\ temps m' = Datatypes.S id
    /\ SpecTable.isFloatOpcode o = IsFp.
Proof.
  intros Ho HL HR Hb Hblk id.
  exists (appendNamed b (fun id => SpecTable.instr o id lv rv) (module S g2)).2.
  split; [| split; [| split; [done | split; [done | by eapply opcode_family]]]].
  - unfold binaryExp. cbn [expression]. unfold bind. rewrite HL, HR.
    rewrite binaryExp_table, Ho. simpl.
    unfold emitNamed, bind, theBlock, get, deref, bind. rewrite Hb. reflexivity.
  - by rewrite (appendNamed_blocks _ _ _ _ Hblk).
Qed.

Lemma binaryExp_float_REM Left Right Operator (g : Irgen S) :
  Lexer.tokenType Operator = Lexer.REM ->
  binaryExp S Left Right Operator true g =
    match expression S Left g with
    | Returned lv g1 =>
        match expression S Right g1 with
        | Returned rv g2 => Panicked (PanicMessage "Unhandled binary operator")
        | Panicked p => Panicked p
        | Fatal f x => Fatal f x
        end
    | Panicked p => Panicked p
    | Fatal f x => Fatal f x
    end.
Proof.
  intros HOp. unfold binaryExp. cbn [expression]. unfold bind. rewrite HOp.
  destruct (expression S Left g) as [lv g1 | |]; [| done | done].
  destruct (expression S Right g1) as [rv g2 | |]; done.
Qed.

End Stmt.
End StmtFacts.

(** * Names: lookup, assignment, function handles *)

(** [find] reports "no binding" exactly when no frame from the current one
    down to frame 0 binds the name. *)
Lemma findFrom_None (ss : list scope) (v : string) (n : nat) :
  findFrom ss v n = Some None <->
  forall i, i <= n -> exists sc, ss !! i = Some sc /\ sc !! v = None.
Proof.
  induction n as [| n IH]; simpl.
  - split.
    + intros H i Hi. assert (i = 0) as -> by lia.
      destruct (ss !! 0) as [sc |]; [| done].
      destruct (sc !! v) eqn:E; [done | eauto].
    + intros H. destruct (H 0 ltac:(lia)) as (sc & -> & ->). done.
  - split.
    + intros H i Hi.
      destruct (ss !! S n) as [sc |] eqn:E1; [| done].
      destruct (sc !! v) eqn:E2; [done |].
      destruct (decide (i = S n)) as [-> | Hne]; [eauto |].
      apply IH; [done | lia].
    + intros H. destruct (H (S n) ltac:(lia)) as (sc & -> & ->).
      apply IH. intros i Hi. apply H. lia.
Qed.

Section IrgenNames.
Variable fip : bool.

Lemma ident_unbound v g :
  String.eqb v "true" = false -> String.eqb v "false" = false ->
  findFrom (scopes g) v (currentScope g) = Some None ->
  expression fip (Ast.Ident v) g = Panicked InterfaceIsNil.
Proof.
  intros Ht Hf Hfind. cbn [expression]. unfold ident. rewrite Ht, Hf. simpl.
  unfold bind, find. rewrite Hfind. reflexivity.
Qed.

Lemma assignment_unbound Name Type_ e g :
  findFrom (scopes g) Name (currentScope g) = Some None ->
  expression fip (Ast.Assignment Name Type_ false e) g
  = expression fip (Ast.Assignment Name Type_ true e) g.
Proof.
  intros Hfind. cbn [expression]. unfold assignment_, bind, find.
  rewrite Hfind. reflexivity.
Qed.

Lemma function_no_check node g fn g1 u g' :
  prologue node g = Returned fn g1 ->
  each (fun e => do _ <- expression fip e; pure tt) (Ast.Body node) g1 = Returned u g' ->
  function fip node g = Returned u g'.
Proof. intros H1 H2. unfold function, bind. by rewrite H1. Qed.

Lemma each_functions {A} (f : A -> LM unit) (l : list A) :
  (forall x g u g', f x g = Returned u g' -> functions g' = functions g) ->
  forall g u g', each f l g = Returned u g' -> functions g' = functions g.
Proof.
  intros Hf. induction l as [| x l IH]; intros g u g' H; simpl in H; invM H; [done |].
  etrans; [by eapply IH | by eapply Hf].
Qed.

Lemma prologue_functions node g fn g1 :
  prologue node g = Returned fn g1 -> functions g1 = functions g.
Proof.
  intros H. unfold prologue, newScope in H. invM H.
  all: match goal with H : bindName _ _ _ = Returned _ _ |- _ =>
         apply bindName_Returned in H as (sc & Hsc & ->) end.
  all: match goal with H : each _ _ _ = Returned _ _ |- _ =>
         apply each_functions in H; [simpl in H; exact H |] end.
  all: intros x gx u gx' Hx; invM Hx.
  all: repeat match goal with
       | H : emitNamed _ _ = Returned _ _ |- _ => apply emitNamed_Returned in H as (? & ? & ? & ->)
       | H : emit _ _ = Returned _ _ |- _ => apply emit_Returned in H as (? & ? & ->)
       | H : bindName _ _ _ = Returned _ _ |- _ => apply bindName_Returned in H as (? & ? & ->)
       | H : addArgument _ _ _ _ = Returned _ _ |- _ => apply addArgument_Returned in H as (? & ->)
       end; reflexivity.
Qed.

Lemma function_functions node g u g' :
  function fip node g = Returned u g' -> functions g' = functions g.
Proof.
  intros H. unfold function in H. invM H.
  match goal with H : prologue _ _ = Returned _ _ |- _ =>
    apply prologue_functions in H as <- end.
  match goal with H : each _ _ _ = Returned _ _ |- _ =>
    apply each_functions in H; [exact H |] end.
  intros x gx ux gx' Hx. invM Hx.
  match goal with H : expression _ _ _ = Returned _ _ |- _ =>
    apply (expression_Step fip) in H as [] end. done.
Qed.

Lemma call_resolves callee args g v g' :
  expression fip (Ast.Call callee args) g = Returned v g' ->
  exists ops gA b,
    collect (expression fip) args g = Returned ops gA
    /\ block gA = Some b
    /\ v = Some (Temp (temps (module gA)))
    /\ g' = setModule
              (appendNamed b (fun id => Call id (functions g !! callee) ops) (module gA)).2 gA.
Proof.
  intros H. cbn [expression] in H. unfold call_ in H. invM H.
  match goal with H : emitNamed _ _ = Returned _ _ |- _ =>
    apply emitNamed_Returned in H as (b & Hb & -> & ->) end.
  eauto 10.
Qed.

End IrgenNames.


Module StmtNames.
Import IrgenStmt.

Section Stmt.
Variable Sc : ScopeImpl.

Lemma identExp_unbound v (g : Irgen Sc) :
  String.eqb (Lexer.tokenValue v) "true" = false ->
  String.eqb (Lexer.tokenValue v) "false" = false ->
  GetVar Sc (Lexer.tokenValue v) (scope Sc g) = None ->
  expression Sc (Ast2.IdentExpression v) g = Fatal "%q was not is scope" (Lexer.tokenValue v).
Proof.
  intros Ht Hf Hget. cbn [expression]. unfold identExp. rewrite Ht, Hf.
  unfold bind, get. by rewrite Hget.
Qed.

Lemma assignmentSmt_unbound v Right (g : Irgen Sc) exp g1 :
  expression Sc Right g = Returned exp g1 ->
  GetVar Sc (Lexer.tokenValue v) (scope Sc g1) = None ->
  assignmentSmt Sc (Ast2.IdentExpression v) Right g
  = Fatal "%q was not in scope" (Lexer.tokenValue v).
Proof.
  intros HR Hget. unfold assignmentSmt, bind, pure, get. rewrite HR. by rewrite Hget.
Qed.

Lemma stmt_function_no_check node (g : Irgen Sc) f g1 u g' :
  prologue Sc node g = Returned f g1 ->
  block Sc (Ast2.Body node) g1 = Returned u g' ->
  function Sc node g = Returned u g'.
Proof. intros H1 H2. unfold function, bind. by rewrite H1. Qed.

End Stmt.
End StmtNames.

Import SpecArray.
(** * Declarations and array initializers *)

Lemma findFrom_top (ss : list scope) (sc : scope) (n : string) (v : Value) (cs : nat) :
  ss !! cs = Some sc ->
  findFrom (<[cs := <[n := v]> sc]> ss) n cs = Some (Some v).
Proof.
  intros Hsc. apply lookup_lt_Some in Hsc as Hlt.
  destruct cs; simpl; rewrite list_lookup_insert_eq by done; by rewrite lookup_insert_eq.
Qed.

Section IrgenDeclare.
Variable fip : bool.

Lemma assignment_declare Name Type_ e g v g' :
  expression fip (Ast.Assignment Name Type_ true e) g = Returned v g' ->
  exists b sc value g2,
    block g = Some b
    /\ scopes g !! currentScope g = Some sc
    /\ findFrom (scopes (declared Name Type_ b sc g)) Name
         (currentScope (declared Name Type_ b sc g))
       = Some (Some (Pointer (temps (module g))))
    /\ expression fip e (declared Name Type_ b sc g) = Returned value g2
    /\ v = None
    /\ match value with
       | Some x =>
           exists b2, block g2 = Some b2
             /\ g' = setModule
                       (append b2 (Store (Pointer (temps (module g))) (Some x)) (module g2)) g2
       | None => g' = g2
       end.
Proof.
  intros H. cbn [expression] in H. unfold assignment_ in H.
  apply bind_Returned in H as (u & gB & H & Hret). apply pure_Returned in Hret as [-> ->].
  apply bind_Returned in H as (found & g0 & Hfind & H).
  apply find_Returned in Hfind as [-> Hfind]. simpl in H.
  apply bind_Returned in H as (alloc & g1 & Halloc & H).
  apply bind_Returned in Halloc as (id & gA & Hal & Halloc).
  apply emitNamed_Returned in Hal as (b & Hb & -> & ->).
  apply bind_Returned in Halloc as (u1 & gC & Hbind & Halloc).
  apply bindName_Returned in Hbind as (sc & Hsc & ->).
  apply pure_Returned in Halloc as [-> ->].
  apply bind_Returned in H as (value & g2 & He & H).
  exists b, sc, value, g2. simpl in Hsc.
  split; [done | split; [done | split; [| split; [exact He | split; [done |]]]]].
  - unfold declared. simpl. by apply findFrom_top.
  - destruct value as [x |].
    + apply bind_Returned in H as (p & gP & Hp & H).
      apply asPointer_Returned in Hp as [-> [= <-]].
      apply emit_Returned in H as (b2 & Hb2 & ->). eauto.
    + by apply pure_Returned in H as [_ ->].
Qed.

(** The loop of [array] runs as the specification words it. *)
Lemma array_loop_run slot elem Type_ alloc :
  Types.asArray Type_ = Some elem -> alloc = Some slot ->
  forall List i g u g',
    eachFrom (fun i val =>
        do elem <- match Types.asArray Type_ with
                   | Some elem => pure elem
                   | None => panic InterfaceWrongType
                   end;
        do p <- asPointer fip alloc;
        do id <- emitNamed (fun id =>
                   Getelementptr id (Llvm elem) p
                     [ConstantInt (IntType 64) 0; ConstantInt (IntType 64) (Z.of_nat i)]);
        do value <- expression fip val;
        emit (Store (Pointer id) value)) i List g = Returned u g' ->
    arrayRun fip slot elem i List g g'.
Proof.
  intros Helem ->. induction List as [| val rest IH]; intros i g u g' H; simpl in H.
  - apply pure_Returned in H as [_ ->]. constructor.
  - apply bind_Returned in H as (u1 & g1 & Hbody & H).
    rewrite Helem in Hbody.
    apply bind_Returned in Hbody as (el & gE & Hel & Hbody).
    apply pure_Returned in Hel as [-> ->].
    apply bind_Returned in Hbody as (p & gP & Hp & Hbody).
    apply (asPointer_Returned fip (Some slot)) in Hp as [-> [= <-]].
    apply bind_Returned in Hbody as (id & gI & Hid & Hbody).
    apply emitNamed_Returned in Hid as (b & Hb & -> & ->).
    apply bind_Returned in Hbody as (value & g2 & Hv & Hst).
    apply emit_Returned in Hst as (b2 & Hb2 & ->).
    econstructor; eauto.
Qed.

Lemma array_run Name Type_ List g v g' :
  expression fip (Ast.ArrayList Name Type_ List) g = Returned v g' ->
  v = None
  /\ (List = [] -> g' = g)
  /\ (List <> [] ->
        exists slot elem,
          findFrom (scopes g) Name (currentScope g) = Some (Some slot)
          /\ Types.asArray Type_ = Some elem
          /\ arrayRun fip slot elem 0 List g g').
Proof.
  intros H. cbn [expression] in H. unfold array_ in H.
  apply bind_Returned in H as (alloc & g0 & Hfind & H).
  apply find_Returned in Hfind as [-> Hfind].
  apply bind_Returned in H as (u & g1 & Hloop & H).
  apply pure_Returned in H as [-> ->].
  split; [done | split].
  - intros ->. simpl in Hloop. by apply pure_Returned in Hloop as [_ ->].
  - intros Hne. destruct List as [| val rest]; [done |].
    assert (Hloop' := Hloop). simpl in Hloop'.
    apply bind_Returned in Hloop' as (u1 & gB & Hbody & _).
    apply bind_Returned in Hbody as (el & gE & Hel & Hbody).
    destruct (Types.asArray Type_) as [elem |] eqn:Helem; [| done].
    apply pure_Returned in Hel as [-> ->].
    apply bind_Returned in Hbody as (p & gP & Hp & _).
    apply asPointer_Returned in Hp as [-> ->].
    exists p, elem. split; [done | split; [done |]].
    eapply array_loop_run; [exact Helem | reflexivity |].
    rewrite Helem. exact Hloop.
Qed.

End IrgenDeclare.

(** * Control flow: what the blocks hold after a loop and after an else-if *)

Lemma Extends_instrsOf_prefix m c m' c' b :
  Extends m c m' c' -> b < nblocks m ->
  exists suffix, instrsOf b m' = instrsOf b m ++ suffix /\ (c <> Some b -> suffix = []).
Proof.
  intros [F T N C O W] Hb.
  destruct (lookup_lt_is_Some_2 (blocks m) b Hb) as [blk Hblk].
  destruct (O b blk Hblk) as (s & Hs & Hne & _).
  exists s. unfold instrsOf. rewrite Hs, Hblk. done.
Qed.

Lemma Extends_instrsOf_other m c m' c' b :
  Extends m c m' c' -> b < nblocks m -> c <> Some b -> instrsOf b m' = instrsOf b m.
Proof.
  intros E Hb Hc. destruct (Extends_instrsOf_prefix _ _ _ _ _ E Hb) as (s & -> & Hs).
  rewrite (Hs Hc). apply app_nil_r.
Qed.

Lemma Step_instrsOf_other g g' b :
  Step g g' -> b < nblocks (module g) -> block g <> Some b ->
  instrsOf b (module g') = instrsOf b (module g).
Proof. intros [E _ _ _ _ _]. by eapply Extends_instrsOf_other. Qed.

Lemma Step_instrsOf_prefix g g' b :
  Step g g' -> b < nblocks (module g) ->
  exists suffix, instrsOf b (module g') = instrsOf b (module g) ++ suffix.
Proof.
  intros [E _ _ _ _ _] Hb.
  destruct (Extends_instrsOf_prefix _ _ _ _ _ E Hb) as (s & Hs & _). eauto.
Qed.

Lemma Quiet_instrsOf g g' b :
  Quiet g g' -> b < nblocks (module g) -> instrsOf b (module g') = instrsOf b (module g).
Proof. intros [E _ _ _ _ _ _] Hb. eapply Extends_instrsOf_other; [exact E | done | done]. Qed.

Lemma instrsOf_AddBlock_old b0 m b :
  b < nblocks m -> instrsOf b (AddBlock b0 m).2 = instrsOf b m.
Proof. intros Hb. unfold instrsOf. simpl. by rewrite lookup_app_l. Qed.

Lemma instrsOf_AddBlock_new b0 m : instrsOf (nblocks m) (AddBlock b0 m).2 = [].
Proof.
  unfold instrsOf, nblocks. simpl. rewrite lookup_app_r by done.
  by rewrite Nat.sub_diag.
Qed.

Lemma nblocks_append b i m : nblocks (append b i m) = nblocks m.
Proof. unfold nblocks, append. simpl. by rewrite length_alter. Qed.

Lemma nblocks_appendNamed b mk m : nblocks (appendNamed b mk m).2 = nblocks m.
Proof. unfold nblocks, appendNamed, append. simpl. by rewrite length_alter. Qed.

Lemma untargeted_instrsOf k m :
  untargeted k m <-> forall b i, i ∈ instrsOf b m -> k ∉ targets i.
Proof.
  unfold untargeted, instrsOf. split.
  - intros H b i Hi. destruct (blocks m !! b) as [blk |] eqn:E; simpl in Hi.
    + by eapply H.
    + by apply elem_of_nil in Hi.
  - intros H b blk i Hb Hi. apply (H b i). by rewrite Hb.
Qed.

Lemma untargeted_AddBlock k b0 m : untargeted k m -> untargeted k (AddBlock b0 m).2.
Proof.
  intros H b blk i Hb Hi. simpl in Hb.
  destruct (decide (b < length (blocks m))) as [Hlt | Hge].
  - rewrite lookup_app_l in Hb by done. by eapply H.
  - rewrite lookup_app_r in Hb by lia.
    destruct (b - length (blocks m)) as [| n]; simpl in Hb; [| done].
    injection Hb as <-. by apply elem_of_nil in Hi.
Qed.

Lemma untargeted_append k b i m :
  untargeted k m -> k ∉ targets i -> untargeted k (append b i m).
Proof.
  intros H Hi b0 blk j Hb Hj. unfold append in Hb. simpl in Hb.
  destruct (decide (b = b0)) as [-> | Hne].
  - rewrite list_lookup_alter_eq in Hb.
    destruct (blocks m !! b0) as [blk0 |] eqn:E; [| done].
    injection Hb as <-. simpl in Hj. apply elem_of_app in Hj as [Hj | Hj].
    + by eapply H.
    + apply list_elem_of_singleton in Hj as ->. done.
  - rewrite list_lookup_alter_ne in Hb by done. by eapply H.
Qed.

Lemma Step_valid g g' :
  Step g g' -> validBlock (module g) (block g) -> validBlock (module g') (block g').
Proof. intros [E _ _ _ _ _]. by apply Extends_valid. Qed.

Lemma Step_closed g g' : Step g g' -> closed (module g) -> closed (module g').
Proof. intros [E _ _ _ _ _]. by eapply Extends_closed. Qed.

Lemma Step_untargeted k g g' :
  Step g g' -> k < nblocks (module g) -> untargeted k (module g) -> untargeted k (module g').
Proof. intros [E _ _ _ _ _]. by eapply Extends_untargeted. Qed.

Lemma Step_block_where g g' b b' :
  Step g g' -> block g = Some b -> block g' = Some b' ->
  b' = b \/ nblocks (module g) <= b' < nblocks (module g').
Proof.
  intros HS Hb Hb'. destruct (Step_block_fresh _ _ _ HS Hb') as [H | H]; [| by right].
  left. congruence.
Qed.

Section IrgenControl.
Variable fip : bool.

Lemma blockNode_run l g s e g' :
  blockNode_ (expression fip) l g = Returned (s, e) g' ->
  Quiet g g' /\ s = nblocks (module g) /\
  exists b, e = Some b /\ nblocks (module g) <= b < nblocks (module g').
Proof.
  apply blockNode_spec. apply Forall_forall. intros x _ gx v gx'. apply expression_Step.
Qed.

Lemma forNode_run Index Condition Increment Block_ g v g' :
  validBlock (module g) (block g) ->
  expression fip (Ast.For Index Condition Increment Block_) g = Returned v g' ->
  exists i g1 c1 g2 b2 forStart forEnd g3 inc g5 c2 g6 b6,
    expression fip Index g = Returned i g1
    /\ expression fip Condition g1 = Returned c1 g2
    /\ block g2 = Some b2
    /\ blockNode_ (expression fip) Block_ g2 = Returned (forStart, Some forEnd) g3
    /\ forStart = nblocks (module g2)
    /\ expression fip Increment
         (setBlock (Some forEnd)
            (setModule (append b2 (CondBr c1 forStart (nblocks (module g3)))
                          (AddBlock b2 (module g3)).2) g3))
       = Returned inc g5
    /\ expression fip Condition g5 = Returned c2 g6
    /\ block g6 = Some b6
    /\ g' = setBlock (Some (nblocks (module g3)))
              (setModule (append b6 (CondBr c2 forStart (nblocks (module g3))) (module g6)) g6)
    /\ instrsOf b2 (module g')
       = instrsOf b2 (module g2) ++ [CondBr c1 forStart (nblocks (module g3))]
    /\ instrsOf b6 (module g')
       = instrsOf b6 (module g6) ++ [CondBr c2 forStart (nblocks (module g3))]
    /\ instrsOf (nblocks (module g3)) (module g') = []
    /\ nblocks (module g') = nblocks (module g6)
    /\ v = None.
Proof.
  intros Hvalid H. cbn [expression] in H. unfold forNode_ in H.
  apply bind_Returned in H as (u & gZ & H & Hret). apply pure_Returned in Hret as [-> ->].
  apply bind_Returned in H as (i & g1 & Hi & H).
  apply bind_Returned in H as (c1 & g2 & Hc1 & H).
  apply bind_Returned in H as ([forStart forEnd] & g3 & Hblk & H).
  apply bind_Returned in H as (exitBlock & g4 & Hexit & H).
  apply bind_Returned in H as (u1 & g4' & Hbr & H).
  apply bind_Returned in H as (u2 & gI & HsetI & H).
  apply modify_Returned in HsetI as ->.
  apply bind_Returned in H as (inc & g5 & Hinc & H).
  apply bind_Returned in H as (c2 & g6 & Hc2 & H).
  apply bind_Returned in H as (u3 & g7 & Hbr2 & H).
  apply modify_Returned in H as ->.
  (* where the states stand *)
  pose proof (expression_Step fip _ _ _ _ Hi) as S1.
  pose proof (expression_Step fip _ _ _ _ Hc1) as S2.
  pose proof (Step_valid _ _ (Step_trans _ _ _ S1 S2) Hvalid) as (b2 & Hb2 & Hb2lt).
  destruct (blockNode_run _ _ _ _ _ Hblk) as (Q3 & -> & (fe & -> & Hfe)).
  pose proof (quiet_block _ _ Q3) as Hb3. rewrite Hb2 in Hb3.
  pose proof (Step_nblocks _ _ (Quiet_Step _ _ Q3)) as Hn3.
  apply addBlock_Returned in Hexit as (b3 & Hb3' & -> & ->).
  rewrite Hb3 in Hb3'. injection Hb3' as <-.
  apply emit_Returned in Hbr as (b4 & Hb4 & ->). cbn [module block setBlock setModule] in Hb4.
  rewrite Hb3 in Hb4. injection Hb4 as <-.
  pose proof (expression_Step fip _ _ _ _ Hinc) as S5.
  pose proof (expression_Step fip _ _ _ _ Hc2) as S6.
  pose proof (Step_trans _ _ _ S5 S6) as S56.
  assert (HvI : validBlock
            (module (setBlock (Some fe)
               (setModule (append b2 (CondBr c1 (nblocks (module g2)) (nblocks (module g3)))
                             (AddBlock b2 (module g3)).2) g3)))
            (Some fe)).
  { exists fe. split; [done |]. cbn [module block setBlock setModule]. rewrite nblocks_append, AddBlock_nblocks. lia. }
  pose proof (Step_valid _ _ S56 HvI) as (b6 & Hb6 & Hb6lt).
  apply emit_Returned in Hbr2 as (b7 & Hb7 & ->).
  rewrite Hb6 in Hb7. injection Hb7 as <-.
  pose proof (Step_block_where _ _ _ _ S56 eq_refl Hb6) as Hb6w.
  cbn [module block setBlock setModule] in Hb6w. rewrite nblocks_append, AddBlock_nblocks in Hb6w.
  pose proof (Step_nblocks _ _ S56) as Hn6. cbn [module block setBlock setModule] in Hn6.
  rewrite nblocks_append, AddBlock_nblocks in Hn6.
  exists i, g1, c1, g2, b2, (nblocks (module g2)), fe, g3, inc, g5, c2, g6, b6.
  repeat (split; [done |]). cbn [module block setBlock setModule].
  split; [| split; [| split; [| split; [by rewrite nblocks_append | done]]]].
  - rewrite instrsOf_append_ne by lia.
    rewrite (Step_instrsOf_other _ _ b2 S56).
    + cbn [module block setBlock setModule]. rewrite instrsOf_append_eq by (rewrite AddBlock_nblocks; lia).
      rewrite instrsOf_AddBlock_old by lia. by rewrite (Quiet_instrsOf _ _ _ Q3).
    + cbn [module block setBlock setModule]. rewrite nblocks_append, AddBlock_nblocks. lia.
    + cbn [module block setBlock setModule]. intros [= ->]. lia.
  - by rewrite instrsOf_append_eq.
  - rewrite instrsOf_append_ne by lia.
    rewrite (Step_instrsOf_other _ _ (nblocks (module g3)) S56).
    + cbn [module block setBlock setModule]. rewrite instrsOf_append_ne by lia. apply instrsOf_AddBlock_new.
    + cbn [module block setBlock setModule]. rewrite nblocks_append, AddBlock_nblocks. lia.
    + cbn [module block setBlock setModule]. intros [= ->]. lia.
Qed.

(** Closing a block that is not terminated: at most one branch is added. *)
Lemma closeBlock_facts te nb g t g1 u g' :
  terminated te g = Returned t g1 ->
  (if t then pure tt else emitAt te (Br nb)) g1 = Returned u g' ->
  block g' = block g
  /\ nblocks (module g') = nblocks (module g)
  /\ (forall b, b <> te -> instrsOf b (module g') = instrsOf b (module g))
  /\ (forall b i, i ∈ instrsOf b (module g) -> i ∈ instrsOf b (module g'))
  /\ (forall k, k <> nb -> untargeted k (module g) -> untargeted k (module g')).
Proof.
  intros Ht H.
  apply terminated_Returned in Ht as [-> ->].
  destruct (Terminated te (module g)).
  - apply pure_Returned in H as [_ ->]. done.
  - apply emitAt_Returned in H as ->. cbn [module block setModule].
    split; [done | split; [apply nblocks_append | split; [| split]]].
    + intros b Hb. by apply instrsOf_append_ne.
    + intros b i Hi. destruct (decide (te = b)) as [-> | Hne].
      * destruct (decide (b < nblocks (module g))) as [Hlt | Hge].
        -- rewrite instrsOf_append_eq by done. apply elem_of_app. by left.
        -- unfold instrsOf in Hi. rewrite lookup_ge_None_2 in Hi by (unfold nblocks in Hge; lia).
           by apply elem_of_nil in Hi.
      * by rewrite instrsOf_append_ne.
    + intros k Hk Hun. apply untargeted_append; [done |]. simpl.
      intros Hin. apply list_elem_of_singleton in Hin. done.
Qed.

Lemma elseif_check_block c b c' b' e' g next g' :
  Ast.isNil c' = false ->
  validBlock (module g) (block g) -> closed (module g) ->
  ifNode fip (Ast.mkIf c b (Some (Ast.mkIf c' b' e'))) g = Returned next g' ->
  exists trueStart trueEnd gT cond gC cur0 falseStart falseEnd gF cv gV cur,
    blockNode_ (expression fip) b g = Returned (trueStart, trueEnd) gT
    /\ expression fip c gT = Returned cond gC
    /\ block gC = Some cur0
    /\ next = nblocks (module gC)
    /\ blockNode_ (expression fip) b' (setModule (AddBlock cur0 (module gC)).2 gC)
       = Returned (falseStart, falseEnd) gF
    /\ expression fip c' (setModule (AddBlock cur0 (module gF)).2 gF) = Returned cv gV
    /\ block gV = Some cur
    /\ nblocks (module g) <= nblocks (module gF) < nblocks (module g')
    /\ instrsOf (nblocks (module gF)) (module g') = [CondBr cv falseStart next]
    /\ CondBr cond trueStart falseStart ∈ instrsOf cur (module g')
    /\ falseStart < nblocks (module gF)
    /\ untargeted (nblocks (module gF)) (module g').
Proof.
  intros Hnil Hvalid Hclosed H. cbn [ifNode] in H. rewrite Hnil in H.
  apply bind_Returned in H as ([ts te] & gT & HbT & H).
  apply bind_Returned in H as (cond & gC & Hc & H).
  apply bind_Returned in H as (nb & g3 & Hnb & H).
  apply bind_Returned in H as ([fs0 fe0] & gW & Helse & H).
  apply bind_Returned in Helse as ([fs fe] & gF & HbF & Helse).
  apply bind_Returned in Helse as (u0 & gW' & Hchk & Helse).
  apply pure_Returned in Helse as [[= -> ->] ->].
  apply bind_Returned in Hchk as (check & gK & Hcheck & Hchk).
  apply bind_Returned in Hchk as (cv & gV & Hcv & Hchk).
  apply bind_Returned in H as (u1 & g9 & Hbr & H).
  apply bind_Returned in H as (u2 & g10 & Hrec & H).
  apply bind_Returned in H as (te1 & g11 & Hte & H).
  apply deref_Returned in Hte as [-> ->].
  apply bind_Returned in H as (t & g12 & Ht & H).
  apply bind_Returned in H as (u3 & g13 & HcT & H).
  apply bind_Returned in H as (fe1 & g14 & Hfe & H).
  apply deref_Returned in Hfe as [-> ->].
  apply bind_Returned in H as (f & g15 & Hf & H).
  apply bind_Returned in H as (u4 & g16 & HcF & H).
  apply pure_Returned in H as [-> ->].
  (* the true arm and the condition *)
  destruct Hvalid as (b0 & Hb0 & Hb0lt).
  destruct (blockNode_run _ _ _ _ _ HbT) as (QT & Hts & (te & Hte & Htelt)).
  injection Hte as <-.
  pose proof (quiet_block _ _ QT) as HblkT. rewrite Hb0 in HblkT.
  pose proof (Step_nblocks _ _ (Quiet_Step _ _ QT)) as HnT.
  pose proof (expression_Step fip _ _ _ _ Hc) as SC.
  pose proof (Step_nblocks _ _ SC) as HnC.
  assert (HvC : validBlock (module gC) (block gC)).
  { apply (Step_valid _ _ SC). exists b0. split; [done | lia]. }
  destruct HvC as (cur0 & Hcur0 & Hcur0lt).
  (* the join block and the else arm *)
  apply addBlock_Returned in Hnb as (x & Hx & Hnb & Hg3).
  rewrite Hcur0 in Hx. injection Hx as <-.
  assert (Hn3 : nblocks (module g3) = S (nblocks (module gC))).
  { rewrite Hg3. cbn [module setModule]. apply AddBlock_nblocks. }
  assert (Hb3 : block g3 = Some cur0) by (by rewrite Hg3).
  assert (S3 : Step gC g3).
  { rewrite Hg3. destruct (Step_refl gC) as [E F R C S L]. split; try done.
    cbn [module block setModule]. by apply Extends_AddBlock. }
  destruct (blockNode_run _ _ _ _ _ HbF) as (QF & Hfs & (fe & Hfe & Hfelt)).
  injection Hfe as <-.
  pose proof (quiet_block _ _ QF) as HblkF. rewrite Hb3 in HblkF.
  pose proof (Step_nblocks _ _ (Quiet_Step _ _ QF)) as HnF.
  (* the check block and the else condition *)
  apply addBlock_Returned in Hcheck as (x & Hx & Hcheck & HgK).
  rewrite HblkF in Hx. injection Hx as <-.
  assert (HnK : nblocks (module gK) = S (nblocks (module gF))).
  { rewrite HgK. cbn [module setModule]. apply AddBlock_nblocks. }
  assert (HbK : block gK = Some cur0) by (by rewrite HgK).
  pose proof (expression_Step fip _ _ _ _ Hcv) as SV.
  pose proof (Step_nblocks _ _ SV) as HnV.
  assert (HvV : validBlock (module gV) (block gV)).
  { apply (Step_valid _ _ SV). exists cur0. split; [done | lia]. }
  destruct HvV as (cur & Hcur & Hcurlt).
  pose proof (Step_block_where _ _ _ _ SV HbK Hcur) as Hcurw.
  apply emitAt_Returned in Hchk as HgW.
  assert (HmW : module gW' = append check (CondBr cv fs nb) (module gV)) by (by rewrite HgW).
  assert (HbW : block gW' = Some cur) by (by rewrite HgW).
  apply emit_Returned in Hbr as (x & Hx & Hg9).
  rewrite HbW in Hx. injection Hx as <-.
  assert (Hm9 : module g9 = append cur (CondBr cond ts fs) (module gW')) by (by rewrite Hg9).
  assert (Hb9 : block g9 = Some cur) by (by rewrite Hg9).
  assert (Hn9 : nblocks (module g9) = nblocks (module gV)).
  { by rewrite Hm9, HmW, !nblocks_append. }
  (* the rest of the chain *)
  assert (S10 : Step g9 g10).
  { destruct e' as [n2 |].
    - apply bind_Returned in Hrec as (nx & gx & Hrec & Hp).
      apply pure_Returned in Hp as [_ ->].
      apply (ifNode_Step fip) in Hrec as [HS _]. exact HS.
    - apply pure_Returned in Hrec as [_ ->]. apply Step_refl. }
  pose proof (Step_nblocks _ _ S10) as Hn10.
  destruct (closeBlock_facts _ _ _ _ _ _ _ Ht HcT) as (B13 & N13 & O13 & M13 & U13).
  destruct (closeBlock_facts _ _ _ _ _ _ _ Hf HcF) as (B16 & N16 & O16 & M16 & U16).
  exists ts, (Some te1), gT, cond, gC, cur0, fs, (Some fe1), gF, cv, gV, cur.
  rewrite <- Hg3, <- HgK, <- Hcheck.
  split; [done |]. split; [done |]. split; [done |]. split; [done |].
  split; [done |]. split; [done |]. split; [done |].
  split; [lia |]. split; [| split; [| split; [lia |]]].
  - (* the check block holds the branch on the else condition, and only it *)
    rewrite O16 by lia. rewrite O13 by lia.
    rewrite (Step_instrsOf_other _ _ check S10);
      [| rewrite Hn9; lia | rewrite Hb9; intros [= ->]; lia].
    rewrite Hm9, HmW.
    rewrite instrsOf_append_ne by lia.
    rewrite instrsOf_append_eq by lia.
    rewrite (Step_instrsOf_other _ _ check SV);
      [| lia | rewrite HbK; intros [= ->]; lia].
    rewrite HgK, Hcheck. cbn [module setModule]. by rewrite instrsOf_AddBlock_new.
  - (* the branch of the enclosing if is in the block current after the else condition *)
    apply M16, M13.
    destruct (Step_instrsOf_prefix _ _ cur S10) as (sfx & ->); [lia |].
    apply elem_of_app. left. rewrite Hm9.
    rewrite instrsOf_append_eq by (rewrite HmW, nblocks_append; lia).
    apply elem_of_app. right. by apply list_elem_of_singleton.
  - (* nothing branches to the check block *)
    apply U16; [lia |]. apply U13; [lia |].
    apply (Step_untargeted _ _ _ S10); [lia |].
    rewrite Hm9, HmW.
    apply untargeted_append.
    2:{ simpl. rewrite !elem_of_cons, elem_of_nil. lia. }
    apply untargeted_append.
    2:{ simpl. rewrite !elem_of_cons, elem_of_nil. lia. }
    apply (Step_untargeted _ _ _ SV); [lia |].
    rewrite HgK, Hcheck. cbn [module setModule]. apply untargeted_AddBlock.
    apply closed_untargeted; [| done].
    apply (Step_closed _ _ (Quiet_Step _ _ QF)).
    apply (Step_closed _ _ S3). apply (Step_closed _ _ SC).
    by apply (Step_closed _ _ (Quiet_Step _ _ QT)).
Qed.

End IrgenControl.

(** * The prologue of a function *)

Import SpecPrologue.

Lemma findFrom_here (ss : list scope) (sc : scope) (n : string) (v : Value) (cs : nat) :
  ss !! cs = Some sc -> sc !! n = Some v -> findFrom ss n cs = Some (Some v).
Proof. intros Hsc Hn. destruct cs; simpl; by rewrite Hsc, Hn. Qed.

Lemma instrsOf_appendNamed_eq b mk m :
  b < nblocks m -> instrsOf b (appendNamed b mk m).2 = instrsOf b m ++ [mk (temps m)].
Proof. intros Hb. unfold appendNamed. simpl. by apply (instrsOf_append_eq b (mk (temps m)) m). Qed.

Lemma AddArgument_facts f t n m fn :
  Goory.functions m !! f = Some fn ->
  (AddArgument f t n m).1 = Argument f (length (arguments fn))
  /\ blocks (AddArgument f t n m).2 = blocks m
  /\ temps (AddArgument f t n m).2 = temps m
  /\ exists fn', Goory.functions (AddArgument f t n m).2 !! f = Some fn'
       /\ length (arguments fn') = S (length (arguments fn))
       /\ entry fn' = entry fn.
Proof.
  intros Hfn. unfold AddArgument. simpl. rewrite Hfn. simpl.
  split; [done | split; [done | split; [done |]]].
  rewrite list_lookup_alter_eq, Hfn. simpl. eexists. split; [done |]. simpl.
  split; [| done]. rewrite length_app. simpl. lia.
Qed.

Lemma instrsOf_appendNamed_ne b b' mk m :
  b <> b' -> instrsOf b' (appendNamed b mk m).2 = instrsOf b' m.
Proof. intros Hne. by apply (instrsOf_append_ne b b' (mk (temps m)) m). Qed.

Lemma temps_append b i m : temps (append b i m) = temps m.
Proof. reflexivity. Qed.

Lemma temps_appendNamed b mk m : temps (appendNamed b mk m).2 = S (temps m).
Proof. reflexivity. Qed.

(** The loop over the parameters. *)
Lemma parameters_loop fn (params : list Ast.Param) :
  forall g u g' b f0,
    each (fun arg =>
        let argType := Llvm (Ast.paramType arg) in
        do argValue <- addArgument fn argType (Ast.paramIdent arg);
        do id <- emitNamed (fun id => Alloca id argType);
        do _ <- emit (Store (Pointer id) (Some argValue));
        bindName (Ast.paramIdent arg) (Pointer id)) params g = Returned u g' ->
    block g = Some b -> b < nblocks (module g) ->
    Goory.functions (module g) !! fn = Some f0 ->
    block g' = Some b
    /\ nblocks (module g') = nblocks (module g)
    /\ currentScope g' = currentScope g
    /\ temps (module g') = temps (module g) + length params
    /\ instrsOf b (module g')
       = instrsOf b (module g)
         ++ paramSlots fn (temps (module g)) (length (arguments f0))
              (map (fun p => Llvm (Ast.paramType p)) params)
    /\ (forall b', b' <> b -> instrsOf b' (module g') = instrsOf b' (module g))
    /\ (forall n v sc, scopes g !! currentScope g = Some sc -> sc !! n = Some v ->
          n ∉ map Ast.paramIdent params ->
          exists sc', scopes g' !! currentScope g = Some sc' /\ sc' !! n = Some v)
    /\ (forall i p, params !! i = Some p ->
          (forall j q, i < j -> params !! j = Some q -> Ast.paramIdent q <> Ast.paramIdent p) ->
          exists sc', scopes g' !! currentScope g = Some sc'
                      /\ sc' !! Ast.paramIdent p = Some (Pointer (temps (module g) + i))).
Proof.
  induction params as [| x rest IH]; intros g u g' b f0 H Hb Hblt Hf0; simpl in H.
  - apply pure_Returned in H as [_ ->]. simpl.
    split; [done | split; [done | split; [done | split; [lia | split; [by rewrite app_nil_r |]]]]].
    split; [done | split; [by eauto |]]. intros i p Hp. by rewrite lookup_nil in Hp.
  - apply bind_Returned in H as (u1 & g1 & Hbody & H).
    apply bind_Returned in Hbody as (argValue & gA & HA & Hbody).
    apply addArgument_Returned in HA as [-> ->].
    destruct (AddArgument_facts fn (Llvm (Ast.paramType x)) (Ast.paramIdent x) _ _ Hf0)
      as (Hval & Hblocks & Htemps & fn' & Hfn' & Hlen & Hentry).
    apply bind_Returned in Hbody as (id & gB & HB & Hbody).
    apply emitNamed_Returned in HB as (b1 & Hb1 & -> & ->).
    cbn [module block setModule] in Hb1. rewrite Hb in Hb1. injection Hb1 as <-.
    apply bind_Returned in Hbody as (u2 & gC & HC & Hbind).
    apply emit_Returned in HC as (b1 & Hb1 & ->).
    cbn [module block setModule] in Hb1. rewrite Hb in Hb1. injection Hb1 as <-.
    apply bindName_Returned in Hbind as (sc & Hsc & ->).
    cbn [module block setModule scopes currentScope setScopes] in *.
    set (mA := (AddArgument fn (Llvm (Ast.paramType x)) (Ast.paramIdent x) (module g)).2) in *.
    assert (HnA : nblocks mA = nblocks (module g)) by (unfold nblocks; by rewrite Hblocks).
    assert (HiA : forall k, instrsOf k mA = instrsOf k (module g))
      by (intros k; unfold instrsOf; by rewrite Hblocks).
    edestruct (IH _ _ _ b fn' H) as (I1 & I2 & I3 & I4 & I5 & I6 & I7 & I8).
    { done. }
    { cbn [module block setModule setScopes]. rewrite nblocks_append, nblocks_appendNamed. lia. }
    { cbn [module block setModule setScopes]. exact Hfn'. }
    cbn [module block setModule scopes currentScope setScopes] in *.
    rewrite nblocks_append, nblocks_appendNamed in I2.
    split; [done | split; [lia | split; [done | split; [| split; [| split; [| split]]]]]].
    + rewrite I4, temps_append, temps_appendNamed, Htemps. simpl. lia.
    + rewrite I5, temps_append, temps_appendNamed.
      rewrite instrsOf_append_eq by (rewrite nblocks_appendNamed; lia).
      rewrite instrsOf_appendNamed_eq by lia.
      rewrite HiA, Hval, Htemps, Hlen. simpl. by rewrite <- !app_assoc.
    + intros b' Hb'. rewrite I6 by done.
      rewrite instrsOf_append_ne by done.
      rewrite instrsOf_appendNamed_ne by done. apply HiA.
    + intros n v sc0 Hsc0 Hn Hnot.
      rewrite Hsc in Hsc0. injection Hsc0 as <-.
      apply (I7 n v (<[Ast.paramIdent x := Pointer (temps mA)]> sc)).
      * apply list_lookup_insert_eq. by eapply lookup_lt_Some.
      * rewrite lookup_insert_ne; [done |]. intros Heq. apply Hnot. simpl. rewrite Heq. left.
      * intros Hin. apply Hnot. simpl. by right.
    + intros i p Hp Hlater. destruct i as [| i].
      * injection Hp as <-. rewrite Nat.add_0_r.
        apply (I7 _ _ (<[Ast.paramIdent x := Pointer (temps mA)]> sc)).
        -- apply list_lookup_insert_eq. by eapply lookup_lt_Some.
        -- rewrite lookup_insert_eq. by rewrite Htemps.
        -- intros Hin. apply list_elem_of_fmap in Hin as (q & Hq & Hqin).
           apply list_elem_of_lookup in Hqin as (j & Hj).
           apply (Hlater (S j) q); [lia | done | done].
      * destruct (I8 i p Hp) as (sc' & Hsc' & Hlook).
        { intros j q Hij Hq. apply (Hlater (S j) q); [lia | done]. }
        exists sc'. split; [done |]. rewrite Hlook, temps_append, temps_appendNamed, Htemps.
        f_equal. f_equal. lia.
Qed.

Lemma prologue_run node g fn g1 :
  entriesValid (module g) ->
  prologue node g = Returned fn g1 ->
  exists f0,
    functions g !! Ast.Name node = Some fn
    /\ Goory.functions (module g) !! fn = Some f0
    /\ block g1 = Some (entry f0)
    /\ entry f0 < nblocks (module g)
    /\ nblocks (module g1) = nblocks (module g)
    /\ currentScope g1 = 1
    /\ instrsOf (entry f0) (module g1)
       = instrsOf (entry f0) (module g)
         ++ paramSlots fn (temps (module g)) (length (arguments f0))
              (map (fun p => Llvm (Ast.paramType p)) (Ast.Parameters node))
    /\ (forall b, b <> entry f0 -> instrsOf b (module g1) = instrsOf b (module g))
    /\ (forall i p, Ast.Parameters node !! i = Some p ->
          (forall j q, i < j -> Ast.Parameters node !! j = Some q ->
             Ast.paramIdent q <> Ast.paramIdent p) ->
          findFrom (scopes g1) (Ast.paramIdent p) (currentScope g1)
          = Some (Some (Pointer (temps (module g) + i)))).
Proof.
  intros Hwf H. unfold prologue, newScope in H.
  apply bind_Returned in H as (u0 & g2 & H0 & H). apply modify_Returned in H0 as ->.
  apply bind_Returned in H as (u1 & g3 & H0 & H). apply modify_Returned in H0 as ->.
  apply bind_Returned in H as (u2 & g4 & H0 & H). apply modify_Returned in H0 as ->.
  apply bind_Returned in H as (gg & g5 & H0 & H). apply get_Returned in H0 as [-> ->].
  cbn [functions module setCurrentScope setScopes setCurrentFunction] in H.
  apply bind_Returned in H as (function & g6 & Hfn & H).
  destruct (functions g !! Ast.Name node) as [fn0 |] eqn:Efn; [| done].
  apply pure_Returned in Hfn as [-> ->].
  apply bind_Returned in H as (ent & g7 & Hent & H).
  destruct (Goory.functions (module g) !! fn0) as [f0 |] eqn:Ef0; [| done].
  apply pure_Returned in Hent as [-> ->].
  apply bind_Returned in H as (u3 & g8 & H0 & H). apply modify_Returned in H0 as ->.
  apply bind_Returned in H as (u4 & g9 & Hbind & H).
  apply bindName_Returned in Hbind as (sc & Hsc & ->).
  apply bind_Returned in H as (u5 & g10 & H0 & H). apply modify_Returned in H0 as ->.
  apply bind_Returned in H as (u6 & g11 & Hloop & H).
  apply pure_Returned in H as [-> ->].
  pose proof (Hwf _ _ Ef0) as Hentry.
  eapply parameters_loop in Hloop as (I1 & I2 & I3 & I4 & I5 & I6 & I7 & I8).
  2:{ reflexivity. }
  2:{ exact Hentry. }
  2:{ exact Ef0. }
  cbn [module block currentScope scopes setBlock setScopes setCurrentScope
       setCurrentFunction setModule] in *.
  exists f0. repeat (split; [done |]).
  intros i p Hp Hlater. destruct (I8 i p Hp Hlater) as (sc' & Hsc' & Hlook).
  rewrite I3. by eapply findFrom_here.
Qed.

Section IrgenFunction.
Variable fip : bool.

Lemma function_run node g u g' :
  entriesValid (module g) ->
  function fip node g = Returned u g' ->
  exists fn f0 g1 rest,
    functions g !! Ast.Name node = Some fn
    /\ Goory.functions (module g) !! fn = Some f0
    /\ prologue node g = Returned fn g1
    /\ each (fun e => do _ <- expression fip e; pure tt) (Ast.Body node) g1 = Returned u g'
    /\ block g1 = Some (entry f0)
    /\ instrsOf (entry f0) (module g1)
       = instrsOf (entry f0) (module g)
         ++ paramSlots fn (temps (module g)) (length (arguments f0))
              (map (fun p => Llvm (Ast.paramType p)) (Ast.Parameters node))
    /\ (forall i p, Ast.Parameters node !! i = Some p ->
          (forall j q, i < j -> Ast.Parameters node !! j = Some q ->
             Ast.paramIdent q <> Ast.paramIdent p) ->
          findFrom (scopes g1) (Ast.paramIdent p) (currentScope g1)
          = Some (Some (Pointer (temps (module g) + i))))
    /\ instrsOf (entry f0) (module g')
       = instrsOf (entry f0) (module g)
         ++ paramSlots fn (temps (module g)) (length (arguments f0))
              (map (fun p => Llvm (Ast.paramType p)) (Ast.Parameters node))
         ++ rest.
Proof.
  intros Hwf H. unfold function in H.
  apply bind_Returned in H as (fn & g1 & Hpro & Hbody).
  destruct (prologue_run _ _ _ _ Hwf Hpro)
    as (f0 & Hfn & Hf0 & Hb1 & Hent & Hn1 & Hcs & Hins & _ & Hscope).
  assert (S1 : Step g1 g').
  { eapply each_Step; [| exact Hbody]. apply Forall_forall.
    intros x _ gx ux gx' Hx. apply bind_Returned in Hx as (v & gy & Hx & Hp).
    apply pure_Returned in Hp as [_ ->]. by eapply expression_Step. }
  destruct (Step_instrsOf_prefix _ _ (entry f0) S1) as (rest & Hrest); [lia |].
  exists fn, f0, g1, rest. repeat (split; [done |]).
  by rewrite Hrest, Hins, <- app_assoc.
Qed.

End IrgenFunction.

(** The states [NewIrgen] builds satisfy the hypothesis on entry blocks. *)
Lemma NewIrgen_entriesValid (ast : Ast.Ast) : entriesValid (module (NewIrgen ast)).
Proof.
  unfold NewIrgen. cbn [module setScopes].
  set (step := fun (g : Irgen) (f : Ast.Function) =>
                 let '(function, m) :=
                   NewFunction (Ast.Name f) (Llvm (Ast.ReturnType f)) (module g) in
                 setFunctions (<[Ast.Name f := function]> (functions g)) (setModule m g)).
  assert (Inv : forall l g, entriesValid (module g) -> entriesValid (module (fold_left step l g))).
  { induction l as [| x l IH]; intros g Hg; simpl; [done |].
    apply IH. intros f fn. unfold step. simpl. intros Hf. rewrite length_app. simpl.
    destruct (decide (f < length (Goory.functions (module g)))) as [Hlt | Hge].
    - rewrite lookup_app_l in Hf by done. specialize (Hg f fn Hf). lia.
    - rewrite lookup_app_r in Hf by lia.
      destruct (f - length (Goory.functions (module g))) as [| k]; simpl in Hf; [| done].
      injection Hf as <-. simpl. lia. }
  apply Inv. intros f fn Hf. simpl in Hf. by rewrite lookup_nil in Hf.
Qed.

(** * The statement-oriented lowerer: how its module grows *)

Module StmtSteps.
Import IrgenStmt SpecPrologue StmtStep.

Section Stmt.
Variable Sc : ScopeImpl.

Lemma Grows_refl (g : Irgen Sc) : Grows g g.
Proof. apply Extends_refl. Qed.

Lemma Grows_trans (g0 g1 g2 : Irgen Sc) : Grows g0 g1 -> Grows g1 g2 -> Grows g0 g2.
Proof. apply Extends_trans. Qed.

Lemma stmt_theBlock_Returned (g : Irgen Sc) b g' :
  theBlock Sc g = Returned b g' -> g' = g /\ parentBlock Sc g = Some b.
Proof.
  unfold theBlock, bind, get, deref. destruct (parentBlock Sc g); [by intros [= -> ->] | done].
Qed.

Lemma stmt_emit_Returned i (g : Irgen Sc) u g' :
  emit Sc i g = Returned u g' ->
  exists b, parentBlock Sc g = Some b /\ g' = setModule Sc (append b i (module Sc g)) g.
Proof.
  unfold emit. intros H. apply bind_Returned in H as (b & g1 & H1 & H).
  apply stmt_theBlock_Returned in H1 as [-> Hb]. injection H as <-. eauto.
Qed.

Lemma stmt_emitNamed_Returned mk (g : Irgen Sc) id g' :
  emitNamed Sc mk g = Returned id g' ->
  exists b, parentBlock Sc g = Some b /\ id = temps (module Sc g) /\
    g' = setModule Sc (appendNamed b mk (module Sc g)).2 g.
Proof.
  unfold emitNamed. intros H. apply bind_Returned in H as (b & g1 & H1 & H).
  apply stmt_theBlock_Returned in H1 as [-> Hb]. injection H as <- <-. eauto.
Qed.

Lemma stmt_addBlock_Returned (g : Irgen Sc) n g' :
  addBlock Sc g = Returned n g' ->
  exists b, parentBlock Sc g = Some b /\ n = nblocks (module Sc g) /\
    g' = setModule Sc (AddBlock b (module Sc g)).2 g.
Proof.
  unfold addBlock. intros H. apply bind_Returned in H as (b & g1 & H1 & H).
  apply stmt_theBlock_Returned in H1 as [-> Hb]. injection H as <- <-. eauto.
Qed.

Lemma Grows_emitNamed (g0 g : Irgen Sc) mk id g' :
  Grows g0 g -> emitNamed Sc mk g = Returned id g' ->
  (forall n, targets (mk n) = []) -> Grows g0 g'.
Proof.
  unfold Grows. intros E H Hi. apply stmt_emitNamed_Returned in H as (b & Hb & -> & ->).
  cbn [module parentBlock setModule]. rewrite Hb in *.
  apply Extends_appendNamed; [done | by eapply Extends_cur_inv |].
  unfold targetsIn. rewrite Hi. constructor.
Qed.

Lemma Grows_emit (g0 g : Irgen Sc) i u g' :
  Grows g0 g -> emit Sc i g = Returned u g' ->
  targetsIn (nblocks (module Sc g0)) (nblocks (module Sc g)) i -> Grows g0 g'.
Proof.
  unfold Grows. intros E H Hi. apply stmt_emit_Returned in H as (b & Hb & ->).
  cbn [module parentBlock setModule]. rewrite Hb in *.
  apply Extends_append; [done | by eapply Extends_cur_inv | done].
Qed.

Lemma binaryExp_targets f o l r mk :
  binaryInstr f o l r = Some mk -> forall n, targets (mk n) = [].
Proof. destruct f, o; simpl; intros [= <-]; done. Qed.

Lemma collect_Grows {A B} (f : A -> M (Irgen Sc) B) (l : list A) :
  Forall (fun x => forall g u g', f x g = Returned u g' -> Grows g g' /\ scope Sc g' = scope Sc g) l ->
  forall g u g', collect f l g = Returned u g' -> Grows g g' /\ scope Sc g' = scope Sc g.
Proof.
  induction 1 as [| x l Hx Hl IH]; intros g u g' H; simpl in H.
  - apply pure_Returned in H as [_ ->]. split; [apply Grows_refl | done].
  - apply bind_Returned in H as (y & g1 & H1 & H).
    apply bind_Returned in H as (ys & g2 & H2 & H).
    apply pure_Returned in H as [_ ->].
    destruct (Hx _ _ _ H1) as [E1 S1]. destruct (IH _ _ _ H2) as [E2 S2].
    split; [by eapply Grows_trans | congruence].
Qed.

(** Expressions add to the parent block only, and keep the scope. *)
Lemma expression_Grows e :
  forall g v g', expression Sc e g = Returned v g' -> Grows g g' /\ scope Sc g' = scope Sc g.
Proof.
  induction e as [| L IHL R IHR op f | t e IH | v | v | fn IHfn args IHargs |]
    using Ast2.Expression_ind; intros g v0 g' H; cbn [expression] in H.
  - done.
  - apply bind_Returned in H as (l & g1 & H1 & H).
    apply bind_Returned in H as (r & g2 & H2 & H).
    destruct (IHL _ _ _ H1) as [E1 S1]. destruct (IHR _ _ _ H2) as [E2 S2].
    destruct (binaryInstr f (Lexer.tokenType op) l r) as [mk |] eqn:Emk; [| done].
    apply bind_Returned in H as (id & g3 & H3 & H). apply pure_Returned in H as [_ ->].
    split.
    + eapply Grows_emitNamed; [| exact H3 | by eapply binaryExp_targets].
      by eapply Grows_trans.
    + apply stmt_emitNamed_Returned in H3 as (b & _ & _ & ->). simpl. congruence.
  - apply bind_Returned in H as (x & g1 & H1 & H).
    apply bind_Returned in H as (id & g2 & H2 & H). apply pure_Returned in H as [_ ->].
    destruct (IH _ _ _ H1) as [E1 S1]. split.
    + eapply Grows_emitNamed; [exact E1 | exact H2 | done].
    + apply stmt_emitNamed_Returned in H2 as (b & _ & _ & ->). simpl. congruence.
  - unfold literalExp in H. destruct (Lexer.tokenType v); try done;
      apply pure_Returned in H as [_ ->]; (split; [apply Grows_refl | done]).
  - unfold identExp in H.
    destruct (String.eqb _ "true"); [apply pure_Returned in H as [_ ->]; split; [apply Grows_refl | done] |].
    destruct (String.eqb _ "false"); [apply pure_Returned in H as [_ ->]; split; [apply Grows_refl | done] |].
    apply bind_Returned in H as (gg & g1 & H0 & H). apply get_Returned in H0 as [-> ->].
    destruct (GetVar Sc _ _) as [item |]; [| done].
    apply bind_Returned in H as (id & g2 & H2 & H). apply pure_Returned in H as [_ ->].
    split.
    + eapply Grows_emitNamed; [apply Grows_refl | exact H2 | done].
    + apply stmt_emitNamed_Returned in H2 as (b & _ & _ & ->). done.
  - apply bind_Returned in H as (name & g1 & H1 & H).
    assert (g1 = g) as ->.
    { destruct fn; try done; by apply pure_Returned in H1 as [_ ->]. }
    apply bind_Returned in H as (gg & g2 & H0 & H). apply get_Returned in H0 as [-> ->].
    apply bind_Returned in H as (ops & g3 & H3 & H).
    apply bind_Returned in H as (id & g4 & H4 & H). apply pure_Returned in H as [_ ->].
    apply list_all_Forall in IHargs.
    destruct (collect_Grows _ _ IHargs _ _ _ H3) as [E3 S3]. split.
    + eapply Grows_emitNamed; [exact E3 | exact H4 | done].
    + apply stmt_emitNamed_Returned in H4 as (b & _ & _ & ->). simpl. congruence.
  - done.
Qed.

Lemma Grows_nblocks (g0 g : Irgen Sc) :
  Grows g0 g -> nblocks (module Sc g0) <= nblocks (module Sc g).
Proof. by intros []. Qed.

Lemma Grows_addBlock (g0 g : Irgen Sc) n g' :
  Grows g0 g -> addBlock Sc g = Returned n g' ->
  Grows g0 g' /\ n = nblocks (module Sc g) /\ nblocks (module Sc g') = S n
  /\ parentBlock Sc g' = parentBlock Sc g.
Proof.
  unfold Grows. intros E H. apply stmt_addBlock_Returned in H as (b & Hb & -> & ->).
  cbn [module parentBlock setModule].
  split; [by apply Extends_AddBlock | split; [done | split; [apply AddBlock_nblocks | done]]].
Qed.

Lemma Grows_setParent (g0 g : Irgen Sc) c :
  Grows g0 g ->
  c = parentBlock Sc g0 \/ (exists b, c = Some b /\ nblocks (module Sc g0) <= b < nblocks (module Sc g)) ->
  Grows g0 (setParentBlock Sc c g).
Proof. unfold Grows. intros E Hc. cbn [module parentBlock setParentBlock]. by eapply Extends_cur. Qed.

Lemma Grows_setScope (g0 g : Irgen Sc) s : Grows g0 g -> Grows g0 (setScope Sc s g).
Proof. done. Qed.

Lemma Grows_emitAt (g0 g : Irgen Sc) b i u g' :
  Grows g0 g -> emitAt Sc b i g = Returned u g' ->
  parentBlock Sc g0 = Some b \/ nblocks (module Sc g0) <= b ->
  targetsIn (nblocks (module Sc g0)) (nblocks (module Sc g)) i ->
  Grows g0 g'.
Proof.
  unfold Grows. intros E H Hb Hi. injection H as H. subst g'.
  cbn [module parentBlock setModule]. by apply Extends_append.
Qed.

(** Where the parent block can be, seen from the start. *)
Lemma Grows_parent (g0 g : Irgen Sc) :
  Grows g0 g ->
  parentBlock Sc g = parentBlock Sc g0
  \/ (exists b, parentBlock Sc g = Some b /\ nblocks (module Sc g0) <= b < nblocks (module Sc g)).
Proof. by intros []. Qed.

Lemma each_Grows {A} (f : A -> M (Irgen Sc) unit) (l : list A) :
  Forall (fun x => forall g0 g u g', Grows g0 g -> f x g = Returned u g' ->
            Grows g0 g' /\ nblocks (module Sc g) <= nblocks (module Sc g')) l ->
  forall g0 g u g', Grows g0 g -> each f l g = Returned u g' ->
    Grows g0 g' /\ nblocks (module Sc g) <= nblocks (module Sc g').
Proof.
  induction 1 as [| x l Hx Hl IH]; intros g0 g u g' E H; simpl in H.
  - apply pure_Returned in H as [_ ->]. done.
  - apply bind_Returned in H as (u1 & g1 & H1 & H).
    destruct (Hx _ _ _ _ E H1) as [E1 N1]. destruct (IH _ _ _ _ E1 H) as [E2 N2].
    split; [done | lia].
Qed.

Lemma expression_Grows_from e (g0 g : Irgen Sc) v g' :
  Grows g0 g -> expression Sc e g = Returned v g' -> Grows g0 g'.
Proof. intros E H. eapply Grows_trans; [exact E |]. by eapply expression_Grows. Qed.

Ltac fresh_targets := unfold targetsIn; simpl; repeat constructor; lia.

Lemma emit_nblocks i (g : Irgen Sc) u g' :
  emit Sc i g = Returned u g' -> nblocks (module Sc g') = nblocks (module Sc g).
Proof.
  intros H. apply stmt_emit_Returned in H as (b & _ & ->). cbn [module setModule].
  apply nblocks_append.
Qed.

Lemma emitNamed_nblocks mk (g : Irgen Sc) id g' :
  emitNamed Sc mk g = Returned id g' -> nblocks (module Sc g') = nblocks (module Sc g).
Proof.
  intros H. apply stmt_emitNamed_Returned in H as (b & _ & _ & ->). cbn [module setModule].
  apply nblocks_appendNamed.
Qed.

Lemma expression_nblocks e (g : Irgen Sc) v g' :
  expression Sc e g = Returned v g' -> nblocks (module Sc g) <= nblocks (module Sc g').
Proof. intros H. destruct (expression_Grows _ _ _ _ H) as [E _]. by apply Grows_nblocks. Qed.

(** Statements add to the parent block and to blocks they create. *)
Theorem statement_Grows :
  (forall s (g0 g : Irgen Sc) u g',
     Grows g0 g -> statement Sc s g = Returned u g' ->
     Grows g0 g' /\ nblocks (module Sc g) <= nblocks (module Sc g'))
  /\
  (forall n (g0 g : Irgen Sc) blk endBlock u g',
     Grows g0 g ->
     nblocks (module Sc g0) <= endBlock < nblocks (module Sc g) ->
     (blk = None \/ exists fb, blk = Some fb /\ nblocks (module Sc g0) <= fb < nblocks (module Sc g)) ->
     ifSmt Sc n blk endBlock g = Returned u g' ->
     Grows g0 g' /\ nblocks (module Sc g) <= nblocks (module Sc g')).
Proof.
  apply Ast2.Statement_IfStatment_mut.
  - (* if *) intros n IH g0 g u g' E H. cbn [statement] in H.
    apply bind_Returned in H as (endBlock & g1 & H1 & H).
    destruct (Grows_addBlock _ _ _ _ E H1) as (E1 & -> & Hn1 & _).
    pose proof (Grows_nblocks _ _ E).
    destruct (IH g0 g1 None (nblocks (module Sc g)) u g' E1) as [E2 N2];
      [lia | by left | exact H |]. split; [done | lia].
  - (* return *) intros r g0 g u g' E H. cbn [statement] in H. unfold returnSmt in H.
    apply bind_Returned in H as (exp & g1 & H1 & H).
    pose proof (expression_nblocks _ _ _ _ H1). pose proof (emit_nblocks _ _ _ _ H).
    split; [| lia].
    eapply Grows_emit; [by eapply expression_Grows_from | exact H | fresh_targets].
  - (* declare *) intros d g0 g u g' E H. cbn [statement] in H. unfold declareSmt in H.
    destruct d as [Name Type_ Value_ |]; [| done].
    apply bind_Returned in H as (exp & g1 & H1 & H).
    apply bind_Returned in H as (id & g2 & H2 & H).
    apply bind_Returned in H as (u1 & g3 & H3 & H).
    apply modify_Returned in H as ->.
    pose proof (expression_nblocks _ _ _ _ H1). pose proof (emitNamed_nblocks _ _ _ _ H2).
    pose proof (emit_nblocks _ _ _ _ H3).
    split; [| cbn [module setScope]; lia]. apply Grows_setScope.
    eapply Grows_emit; [| exact H3 | fresh_targets].
    eapply Grows_emitNamed; [| exact H2 | done].
    by eapply expression_Grows_from.
  - (* assignment *) intros L R g0 g u g' E H. cbn [statement] in H. unfold assignmentSmt in H.
    apply bind_Returned in H as (name & g1 & H1 & H).
    assert (g1 = g) as ->.
    { destruct L; try done; by apply pure_Returned in H1 as [_ ->]. }
    apply bind_Returned in H as (exp & g2 & H2 & H).
    apply bind_Returned in H as (gg & g3 & H0 & H). apply get_Returned in H0 as [-> ->].
    destruct (GetVar Sc name (scope Sc g2)) as [alloc |]; [| done].
    apply bind_Returned in H as (u1 & g3 & H3 & H).
    apply modify_Returned in H as ->.
    pose proof (expression_nblocks _ _ _ _ H2). pose proof (emit_nblocks _ _ _ _ H3).
    split; [| cbn [module setScope]; lia]. apply Grows_setScope.
    eapply Grows_emit; [| exact H3 | fresh_targets].
    by eapply expression_Grows_from.
  - (* other *) intros g0 g u g' E H. cbn [statement] in H. by apply pure_Returned in H as [_ ->].
  - (* ifSmt *) intros c body IHbody els IHels g0 g blk endBlock u g' E HendB Hblk H.
    cbn [ifSmt] in H.
    apply bind_Returned in H as (gg & gx & H0 & H). apply get_Returned in H0 as [-> ->].
    pose proof (Grows_nblocks _ _ E) as Hn.
    pose proof (Grows_parent _ _ E) as Hparent.
    (* the block of the body *)
    apply bind_Returned in H as (block & g1 & Hblock & H).
    assert (E1 : Grows g0 g1 /\ nblocks (module Sc g0) <= block < nblocks (module Sc g1)
                 /\ nblocks (module Sc g) <= nblocks (module Sc g1)).
    { destruct Hblk as [-> | (fb & -> & Hfb)].
      - destruct (Grows_addBlock _ _ _ _ E Hblock) as (E1 & -> & Hn1 & Hp1).
        split; [done | split; lia].
      - apply pure_Returned in Hblock as [-> ->]. done. }
    destruct E1 as (E1 & Hblockf & Hn1).
    (* the false block *)
    apply bind_Returned in H as (falseBlock & g2 & Hfalse & H).
    assert (E2 : Grows g0 g2 /\ nblocks (module Sc g0) <= falseBlock < nblocks (module Sc g2)
                 /\ nblocks (module Sc g1) <= nblocks (module Sc g2)).
    { destruct els as [els |].
      - destruct (Grows_addBlock _ _ _ _ E1 Hfalse) as (E2 & -> & Hn2 & _).
        split; [done | split; lia].
      - apply pure_Returned in Hfalse as [-> ->]. split; [done | split; lia]. }
    destruct E2 as (E2 & Hfalsef & Hn2).
    (* the body *)
    apply bind_Returned in H as (u1 & g3 & H3 & H). apply modify_Returned in H3 as ->.
    apply bind_Returned in H as (u2 & g4 & Hbody & H).
    unfold block_ in Hbody.
    apply bind_Returned in Hbody as (u3 & g5 & H5 & Hbody). apply modify_Returned in H5 as ->.
    apply list_all_Forall in IHbody.
    assert (EB : Grows g0 (setScope Sc (Push Sc (scope Sc (setParentBlock Sc (Some block) g2)))
                             (setParentBlock Sc (Some block) g2))).
    { apply Grows_setScope, Grows_setParent; [exact E2 |]. right. exists block. split; [done | lia]. }
    destruct (each_Grows _ _ IHbody _ _ _ _ EB Hbody) as (E4 & Hn4).
    cbn [module setScope setParentBlock] in Hn4.
    (* closing the body block *)
    apply bind_Returned in H as (t & g6 & Ht & H). injection Ht as Ht1 Ht2. subst t g6.
    apply bind_Returned in H as (u4 & g7 & Hclose & H).
    assert (E7 : Grows g0 g7 /\ nblocks (module Sc g7) = nblocks (module Sc g4)).
    { destruct (Terminated block (module Sc g4)).
      - apply pure_Returned in Hclose as [_ ->]. done.
      - split.
        + eapply Grows_emitAt; [exact E4 | exact Hclose | right; lia | fresh_targets].
        + injection Hclose as Hclose. subst g7. cbn [module setModule]. apply nblocks_append. }
    destruct E7 as (E7 & Hn7).
    (* the conditional branch *)
    apply bind_Returned in H as (u5 & g8 & Hcond & H).
    assert (E8 : Grows g0 g8 /\ nblocks (module Sc g7) <= nblocks (module Sc g8)).
    { destruct (Ast2.isNil c).
      - apply pure_Returned in Hcond as [_ ->]. done.
      - apply bind_Returned in Hcond as (u6 & g9 & H9 & Hcond). apply modify_Returned in H9 as ->.
        apply bind_Returned in Hcond as (cond & g10 & H10 & Hcond).
        apply bind_Returned in Hcond as (p & g11 & H11 & Hcond).
        assert (g11 = g10 /\ parentBlock Sc g = Some p) as [-> Hp].
        { destruct (parentBlock Sc g); [by injection H11 as -> -> | done]. }
        assert (E10 : Grows g0 g10).
        { eapply expression_Grows_from; [| exact H10].
          apply Grows_setParent; [exact E7 |].
          destruct Hparent as [Hpar | (pb & Hpb & Hpbf)]; [by left |].
          right. exists pb. split; [done | lia]. }
        pose proof (expression_nblocks _ _ _ _ H10) as Hn10.
        cbn [module setParentBlock] in Hn10.
        split.
        + eapply Grows_emitAt; [exact E10 | exact Hcond | | fresh_targets].
          destruct Hparent as [Hpar | (pb & Hpb & Hpbf)].
          * left. congruence.
          * right. rewrite Hp in Hpb. injection Hpb as <-. lia.
        + injection Hcond as Hcond. subst g8. cbn [module setModule]. rewrite nblocks_append. lia. }
    destruct E8 as (E8 & Hn8).
    apply bind_Returned in H as (u7 & g12 & H12 & H). apply modify_Returned in H12 as ->.
    (* the else arm *)
    apply bind_Returned in H as (u8 & g13 & Helse & H).
    apply modify_Returned in H as ->.
    assert (E13 : Grows g0 g13 /\ nblocks (module Sc g8) <= nblocks (module Sc g13)).
    { assert (EF : Grows g0 (setParentBlock Sc (Some falseBlock) g8)).
      { apply Grows_setParent; [exact E8 |]. right. exists falseBlock. split; [done | lia]. }
      destruct IHels as [els IHel |].
      - apply (IHel g0 _ (Some falseBlock) endBlock u8 g13 EF); [| | exact Helse].
        + cbn [module setParentBlock]. lia.
        + right. exists falseBlock. split; [done |]. cbn [module setParentBlock]. lia.
      - apply pure_Returned in Helse as [_ ->]. split; [exact EF | done]. }
    destruct E13 as (E13 & Hn13).
    cbn [module setParentBlock]. split; [| lia].
    apply Grows_setParent; [exact E13 |]. right. exists endBlock. split; [done | lia].
Qed.

Lemma block_Grows body (g : Irgen Sc) u g' :
  block Sc body g = Returned u g' -> Grows g g'.
Proof.
  unfold block, block_. intros H.
  apply bind_Returned in H as (u1 & g1 & H1 & H). apply modify_Returned in H1 as ->.
  eapply (each_Grows (statement Sc) body); [| | exact H].
  - apply Forall_forall. intros s _. apply statement_Grows.
  - apply Grows_setScope, Grows_refl.
Qed.

Lemma stmt_addArgument_Returned f t n (g : Irgen Sc) v g' :
  addArgument Sc f t n g = Returned v g' ->
  v = (AddArgument f t n (module Sc g)).1
  /\ g' = setModule Sc (AddArgument f t n (module Sc g)).2 g.
Proof. by intros [= <- <-]. Qed.

Lemma stmt_newFunction_Returned n r (g : Irgen Sc) f g' :
  newFunction Sc n r g = Returned f g' ->
  f = length (Goory.functions (module Sc g))
  /\ g' = setModule Sc (NewFunction n r (module Sc g)).2 g.
Proof. by intros [= <- <-]. Qed.

(** The loop over the arguments. *)
Lemma arguments_loop f (args : list Ast2.ArgumentDeclaration) :
  forall (g : Irgen Sc) u g' b f0,
    each (fun arg =>
        let name := Lexer.tokenValue (Ast2.argName arg) in
        let argType := Llvm (Ast2.argType arg) in
        do argValue <- addArgument Sc f argType name;
        do id <- emitNamed Sc (fun id => Alloca id argType);
        do _ <- emit Sc (Store (Pointer id) (Some argValue));
        modify (fun g => setScope Sc (AddVar Sc name (Pointer id) (scope Sc g)) g)) args g
      = Returned u g' ->
    parentBlock Sc g = Some b -> b < nblocks (module Sc g) ->
    Goory.functions (module Sc g) !! f = Some f0 ->
    parentBlock Sc g' = Some b
    /\ nblocks (module Sc g') = nblocks (module Sc g)
    /\ instrsOf b (module Sc g')
       = instrsOf b (module Sc g)
         ++ paramSlots f (temps (module Sc g)) (length (arguments f0))
              (map (fun a => Llvm (Ast2.argType a)) args)
    /\ scope Sc g'
       = bindArguments Sc (temps (module Sc g))
           (map (fun a => Lexer.tokenValue (Ast2.argName a)) args) (scope Sc g).
Proof.
  induction args as [| x rest IH]; intros g u g' b f0 H Hb Hblt Hf0; simpl in H.
  - apply pure_Returned in H as [_ ->]. simpl. by rewrite app_nil_r.
  - apply bind_Returned in H as (u1 & g1 & Hbody & H).
    apply bind_Returned in Hbody as (argValue & gA & HA & Hbody).
    apply stmt_addArgument_Returned in HA as [-> ->].
    destruct (AddArgument_facts f (Llvm (Ast2.argType x)) (Lexer.tokenValue (Ast2.argName x)) _ _ Hf0)
      as (Hval & Hblocks & Htemps & fn' & Hfn' & Hlen & Hentry).
    apply bind_Returned in Hbody as (id & gB & HB & Hbody).
    apply stmt_emitNamed_Returned in HB as (b1 & Hb1 & -> & ->).
    cbn [module parentBlock setModule] in Hb1. rewrite Hb in Hb1. injection Hb1 as <-.
    apply bind_Returned in Hbody as (u2 & gC & HC & Hbind).
    apply stmt_emit_Returned in HC as (b1 & Hb1 & ->).
    cbn [module parentBlock setModule] in Hb1. rewrite Hb in Hb1. injection Hb1 as <-.
    apply modify_Returned in Hbind as ->.
    set (mA := (AddArgument f (Llvm (Ast2.argType x)) (Lexer.tokenValue (Ast2.argName x))
                  (module Sc g)).2) in *.
    assert (HnA : nblocks mA = nblocks (module Sc g)) by (unfold nblocks; by rewrite Hblocks).
    assert (HiA : forall k, instrsOf k mA = instrsOf k (module Sc g))
      by (intros k; unfold instrsOf; by rewrite Hblocks).
    edestruct (IH _ _ _ b fn' H) as (I1 & I2 & I3 & I4).
    { done. }
    { cbn [module setModule setScope]. rewrite nblocks_append, nblocks_appendNamed. lia. }
    { cbn [module setModule setScope]. exact Hfn'. }
    cbn [module parentBlock scope setModule setScope] in *.
    rewrite nblocks_append, nblocks_appendNamed in I2.
    split; [done | split; [lia | split]].
    + rewrite I3, temps_append, temps_appendNamed.
      rewrite instrsOf_append_eq by (rewrite nblocks_appendNamed; lia).
      rewrite instrsOf_appendNamed_eq by lia.
      rewrite HiA, Hval, Htemps, Hlen. simpl. by rewrite <- !app_assoc.
    + rewrite I4, temps_append, temps_appendNamed, Htemps. reflexivity.
Qed.

Lemma stmt_prologue_run node (g : Irgen Sc) f g1 :
  prologue Sc node g = Returned f g1 ->
  f = length (Goory.functions (module Sc g))
  /\ parentBlock Sc g1 = Some (nblocks (module Sc g))
  /\ nblocks (module Sc g1) = S (nblocks (module Sc g))
  /\ instrsOf (nblocks (module Sc g)) (module Sc g1)
     = paramSlots f (temps (module Sc g)) 0
         (map (fun a => Llvm (Ast2.argType a)) (Ast2.Arguments node))
  /\ scope Sc g1
     = bindArguments Sc (temps (module Sc g))
         (map (fun a => Lexer.tokenValue (Ast2.argName a)) (Ast2.Arguments node))
         (AddFunction Sc (Lexer.tokenValue (Ast2.Name node)) f (scope Sc g)).
Proof.
  intros H. unfold prologue in H.
  apply bind_Returned in H as (f' & g2 & Hnew & H).
  apply stmt_newFunction_Returned in Hnew as [-> ->].
  apply bind_Returned in H as (u1 & g3 & H0 & H). apply modify_Returned in H0 as ->.
  apply bind_Returned in H as (gg & g4 & H0 & H). apply get_Returned in H0 as [-> ->].
  apply bind_Returned in H as (u2 & g5 & H0 & H). apply modify_Returned in H0 as ->.
  apply bind_Returned in H as (u3 & g6 & Hloop & H).
  apply pure_Returned in H as [-> ->].
  cbn [module setModule setScope setParentBlock] in Hloop.
  assert (Hfn : Goory.functions (NewFunction (Lexer.tokenValue (Ast2.Name node))
                   (Llvm (Ast2.Return node)) (module Sc g)).2
                !! length (Goory.functions (module Sc g))
                = Some {| name := Lexer.tokenValue (Ast2.Name node);
                          returnType := Llvm (Ast2.Return node);
                          arguments := []; entry := nblocks (module Sc g) |}).
  { simpl. rewrite lookup_app_r by done. by rewrite Nat.sub_diag. }
  assert (Hnb : nblocks (NewFunction (Lexer.tokenValue (Ast2.Name node))
                   (Llvm (Ast2.Return node)) (module Sc g)).2 = S (nblocks (module Sc g))).
  { unfold nblocks. simpl. rewrite length_app. simpl. lia. }
  assert (Hempty : instrsOf (nblocks (module Sc g))
                     (NewFunction (Lexer.tokenValue (Ast2.Name node))
                        (Llvm (Ast2.Return node)) (module Sc g)).2 = []).
  { unfold instrsOf, nblocks. simpl. rewrite lookup_app_r by done. by rewrite Nat.sub_diag. }
  rewrite Hfn in Hloop. simpl fmap in Hloop.
  eapply arguments_loop in Hloop as (I1 & I2 & I3 & I4).
  2:{ reflexivity. }
  2:{ cbn [module setModule setScope setParentBlock]. rewrite Hnb. lia. }
  2:{ cbn [module setModule setScope setParentBlock]. exact Hfn. }
  cbn [module parentBlock scope setModule setScope setParentBlock] in *.
  split; [done | split; [done | split; [by rewrite I2 | split; [| done]]]].
  rewrite I3, Hempty. reflexivity.
Qed.

Lemma stmt_function_run node (g : Irgen Sc) u g' :
  function Sc node g = Returned u g' ->
  exists g1 rest,
    prologue Sc node g = Returned (length (Goory.functions (module Sc g))) g1
    /\ block Sc (Ast2.Body node) g1 = Returned u g'
    /\ parentBlock Sc g1 = Some (nblocks (module Sc g))
    /\ scope Sc g1
       = bindArguments Sc (temps (module Sc g))
           (map (fun a => Lexer.tokenValue (Ast2.argName a)) (Ast2.Arguments node))
           (AddFunction Sc (Lexer.tokenValue (Ast2.Name node))
              (length (Goory.functions (module Sc g))) (scope Sc g))
    /\ instrsOf (nblocks (module Sc g)) (module Sc g')
       = paramSlots (length (Goory.functions (module Sc g))) (temps (module Sc g)) 0
           (map (fun a => Llvm (Ast2.argType a)) (Ast2.Arguments node))
         ++ rest.
Proof.
  intros H. unfold function in H.
  apply bind_Returned in H as (f & g1 & Hpro & Hbody).
  destruct (stmt_prologue_run _ _ _ _ Hpro) as (-> & Hp1 & Hn1 & Hins & Hscope).
  pose proof (block_Grows _ _ _ _ Hbody) as E.
  destruct (Extends_instrsOf_prefix _ _ _ _ (nblocks (module Sc g)) E) as (rest & Hrest & _);
    [lia |].
  exists g1, rest. repeat (split; [done |]). by rewrite Hrest, Hins.
Qed.

End Stmt.
End StmtSteps.

(** * The claims *)

(** C1.  For every binary node whose (IsFp, operator) pair is in the table of
    the specification, the lowerer lowers the left operand, then the right
    operand in the state the left one left, and then appends exactly one
    builder call to the current block: the one the table gives for the pair.
    The call is of the floating family exactly when IsFp is true.  First
    conjunct: [binary] of src/irgen/irgen.go; second conjunct: [binaryExp] of
    src/unnamed/part_001, for every implementation of its scope type.
    ([Div] is the builder's signed division, sdiv.) *)
Theorem C1_binary_follows_table :
  (forall fip IsFp Op Lhs Rhs o g lhs g1 rhs g2 b blk,
     SpecTable.opcode IsFp Op = Some o ->
     expression fip Lhs g = Returned lhs g1 ->
     expression fip Rhs g1 = Returned rhs g2 ->
     block g2 = Some b ->
     blocks (module g2) !! b = Some blk ->
     exists m',
       expression fip (Ast.Binary IsFp Op Lhs Rhs) g
         = Returned (Some (Temp (temps (module g2)))) (setModule m' g2)
       /\ blocks m' =
            <[b := mkBlock (owner blk)
                     (instrs blk ++ [SpecTable.instr o (temps (module g2)) lhs rhs])]>
              (blocks (module g2))
       /\ Goory.functions m' = Goory.functions (module g2)
       /\ temps m' = S (temps (module g2))
       /\ SpecTable.isFloatOpcode o = IsFp)
  /\
  (forall Sc IsFp Operator Left Right o (g : IrgenStmt.Irgen Sc) lv g1 rv g2 b blk,
     SpecTable.opcode IsFp (Lexer.tokenType Operator) = Some o ->
     IrgenStmt.expression Sc Left g = Returned lv g1 ->
     IrgenStmt.expression Sc Right g1 = Returned rv g2 ->
     IrgenStmt.parentBlock Sc g2 = Some b ->
     blocks (IrgenStmt.module Sc g2) !! b = Some blk ->
     exists m',
       IrgenStmt.binaryExp Sc Left Right Operator IsFp g
         = Returned (Some (Temp (temps (IrgenStmt.module Sc g2)))) (IrgenStmt.setModule Sc m' g2)
       /\ blocks m' =
            <[b := mkBlock (owner blk)
                     (instrs blk ++ [SpecTable.instr o (temps (IrgenStmt.module Sc g2)) lv rv])]>
              (blocks (IrgenStmt.module Sc g2))
       /\ Goory.functions m' = Goory.functions (IrgenStmt.module Sc g2)
       /\ temps m' = S (temps (IrgenStmt.module Sc g2))
       /\ SpecTable.isFloatOpcode o = IsFp).
Proof.
  split.
  - intros. by eapply binary_emits.
  - intros. by eapply StmtFacts.binaryExp_emits.
Qed.

(** C1 at [1 + 2] (integer add) in the body of [main]: one [Add] lands in
    the entry block. *)
Lemma C1_witness :
  exists m',
    expression false (Ast.Binary false Lexer.ADD (Ast.Integer 1) (Ast.Integer 2))
      (Examples.inMain false)
      = Returned (Some (Temp 0)) (setModule m' (Examples.inMain false))
    /\ blocks m' =
         [mkBlock 0 [Binary Add 0 (Some (ConstantInt (IntType 64) 1))
                                  (Some (ConstantInt (IntType 64) 2))]].
Proof.
  destruct (proj1 C1_binary_follows_table false false Lexer.ADD
              (Ast.Integer 1) (Ast.Integer 2) SpecTable.add
              (Examples.inMain false) (Some (ConstantInt (IntType 64) 1))
              (Examples.inMain false) (Some (ConstantInt (IntType 64) 2))
              (Examples.inMain false) 0 (mkBlock 0 []))
    as (m' & H1 & H2 & _); try reflexivity.
  exists m'. split; [exact H1 | exact H2].
Defined.

(** C3, as the code has it.  A float remainder lowers its operands and then
    panics with the message "Unhandled binary operator"; when an operand
    fails, that failure is the outcome.  In no case is anything returned to
    the caller.  Both lowerers. *)
Theorem C3_float_remainder_panics :
  (forall fip Lhs Rhs g,
     expression fip (Ast.Binary true Lexer.REM Lhs Rhs) g =
       match expression fip Lhs g with
       | Returned lhs g1 =>
           match expression fip Rhs g1 with
           | Returned rhs g2 => Panicked (PanicMessage "Unhandled binary operator")
           | Panicked p => Panicked p
           | Fatal f x => Fatal f x
           end
       | Panicked p => Panicked p
       | Fatal f x => Fatal f x
       end)
  /\
  (forall Sc Left Right text (g : IrgenStmt.Irgen Sc),
     IrgenStmt.binaryExp Sc Left Right (Lexer.mkToken Lexer.REM text) true g =
       match IrgenStmt.expression Sc Left g with
       | Returned lv g1 =>
           match IrgenStmt.expression Sc Right g1 with
           | Returned rv g2 => Panicked (PanicMessage "Unhandled binary operator")
           | Panicked p => Panicked p
           | Fatal f x => Fatal f x
           end
       | Panicked p => Panicked p
       | Fatal f x => Fatal f x
       end).
Proof.
  split.
  - intros. apply binary_float_REM.
  - intros. by apply StmtFacts.binaryExp_float_REM.
Qed.

(** C3 as stated fails on [proc main() -> f64 { return 1.5 % 2.0 }]: the run
    of [Generate] ends in a panic, so no value, and no error value, reaches
    the caller; and on [x % 2.0] with [x] unbound the failure is another one,
    the failed pointer assertion of the identifier. *)
Lemma C3_counterexample :
  Generate false (NewIrgen Examples.floatRemProgram)
    = Panicked (PanicMessage "Unhandled binary operator")
  /\ (forall m g', Generate false (NewIrgen Examples.floatRemProgram) <> Returned m g')
  /\ IrgenStmt.Generate SpecScope.impl (IrgenStmt.NewIrgen SpecScope.impl Examples.floatRemProgram2)
    = Panicked (PanicMessage "Unhandled binary operator")
  /\ expression false
       (Ast.Binary true Lexer.REM (Ast.Ident "x") (Ast.Float Examples.bits_2_0))
       (Examples.inMain false)
    = Panicked InterfaceIsNil.
Proof.
  assert (H : Generate false (NewIrgen Examples.floatRemProgram)
              = Panicked (PanicMessage "Unhandled binary operator"))
    by (vm_compute; reflexivity).
  split; [exact H | split; [| split]].
  - intros m g'. rewrite H. discriminate.
  - vm_compute. reflexivity.
  - vm_compute. reflexivity.
Qed.

(** C2, as the code has it.  In src/irgen/irgen.go a name is unbound when no
    frame from the current one down to frame 0 binds it.  Using such a name
    as an identifier expression (other than [true] and [false]) panics at the
    pointer assertion on nil; assigning to it without the declare flag does
    not fail: it is lowered exactly as the declaration would be.  In
    src/unnamed/part_001 both the use and the assignment end the process
    through [log.Fatalf].  Nowhere is an error value returned. *)
Theorem C2_unbound_names :
  (forall fip v g,
     String.eqb v "true" = false -> String.eqb v "false" = false ->
     (forall i, i <= currentScope g ->
        exists sc : scope, scopes g !! i = Some sc /\ sc !! v = None) ->
     expression fip (Ast.Ident v) g = Panicked InterfaceIsNil)
  /\
  (forall fip Name Type_ e g,
     (forall i, i <= currentScope g ->
        exists sc : scope, scopes g !! i = Some sc /\ sc !! Name = None) ->
     expression fip (Ast.Assignment Name Type_ false e) g
     = expression fip (Ast.Assignment Name Type_ true e) g)
  /\
  (forall Sc v (g : IrgenStmt.Irgen Sc),
     String.eqb (Lexer.tokenValue v) "true" = false ->
     String.eqb (Lexer.tokenValue v) "false" = false ->
     IrgenStmt.GetVar Sc (Lexer.tokenValue v) (IrgenStmt.scope Sc g) = None ->
     IrgenStmt.expression Sc (Ast2.IdentExpression v) g
     = Fatal "%q was not is scope" (Lexer.tokenValue v))
  /\
  (forall Sc v Right (g : IrgenStmt.Irgen Sc) exp g1,
     IrgenStmt.expression Sc Right g = Returned exp g1 ->
     IrgenStmt.GetVar Sc (Lexer.tokenValue v) (IrgenStmt.scope Sc g1) = None ->
     IrgenStmt.assignmentSmt Sc (Ast2.IdentExpression v) Right g
     = Fatal "%q was not in scope" (Lexer.tokenValue v)).
Proof.
  split; [| split; [| split]].
  - intros fip v g Ht Hf Hun. apply ident_unbound; [done | done |]. by apply findFrom_None.
  - intros fip Name Type_ e g Hun. apply assignment_unbound. by apply findFrom_None.
  - intros. by apply StmtNames.identExp_unbound.
  - intros. by eapply StmtNames.assignmentSmt_unbound.
Qed.

(** C2 at the body of [main], where [y] is unbound: the use panics, the
    assignment is the declaration. *)
Lemma C2_witness :
  expression false (Ast.Ident "y") (Examples.inMain false) = Panicked InterfaceIsNil
  /\ expression false (Ast.Assignment "y" Examples.i64 false (Ast.Integer 1))
       (Examples.inMain false)
     = expression false (Ast.Assignment "y" Examples.i64 true (Ast.Integer 1))
         (Examples.inMain false).
Proof.
  assert (Hun : forall i, i <= currentScope (Examples.inMain false) ->
            exists sc : scope, scopes (Examples.inMain false) !! i = Some sc /\ sc !! "y" = None).
  { intros i Hi. change (currentScope (Examples.inMain false)) with 1 in Hi.
    destruct i as [| [| i]]; [| | lia]; eexists; split; vm_compute; reflexivity. }
  split.
  - apply (proj1 C2_unbound_names false "y" (Examples.inMain false)); [reflexivity | reflexivity | exact Hun].
  - apply (proj1 (proj2 C2_unbound_names) false "y" Examples.i64 (Ast.Integer 1)
             (Examples.inMain false) Hun).
Defined.

(** C2 as stated fails on [proc main() -> i64 { x = 1; return x }]: the
    unbound [x] is re-assigned, lowering succeeds and the module is returned.
    On [proc main() -> i64 { return y }] the run ends in a panic, not in a
    returned error. *)
Lemma C2_counterexample :
  Examples.emitted (Generate false (NewIrgen Examples.unboundAssign))
    = Some [mkBlock 0 [Alloca 0 (Llvm Examples.i64);
                       Store (Pointer 0) (Some (ConstantInt (IntType 64) 1));
                       Load 1 (Pointer 0);
                       Cast 2 (Some (Temp 1)) (Llvm Examples.i64);
                       Ret (Some (Temp 2))]]
  /\ Generate false (NewIrgen Examples.unboundUse) = Panicked InterfaceIsNil.
Proof. split; vm_compute; reflexivity. Qed.

(** C4, as the code has it.  [function] ends with the lowering of the body:
    once the prologue and the body are lowered it returns, whatever the
    final block holds and whatever the return type is.  Both lowerers. *)
Theorem C4_function_checks_no_terminator :
  (forall fip node g fn g1 u g',
     prologue node g = Returned fn g1 ->
     each (fun e => do _ <- expression fip e; pure tt) (Ast.Body node) g1 = Returned u g' ->
     function fip node g = Returned u g')
  /\
  (forall Sc node (g : IrgenStmt.Irgen Sc) f g1 u g',
     IrgenStmt.prologue Sc node g = Returned f g1 ->
     IrgenStmt.block Sc (Ast2.Body node) g1 = Returned u g' ->
     IrgenStmt.function Sc node g = Returned u g').
Proof.
  split.
  - intros. by eapply function_no_check.
  - intros. by eapply StmtNames.stmt_function_no_check.
Qed.

(** C4 at [proc main() -> i64 { }]: [function] returns and the entry block,
    the final block, is not terminated. *)
Lemma C4_witness :
  function false (Ast.mkFunction "main" [] Examples.i64 []) (NewIrgen Examples.emptyMain)
    = Returned tt (Examples.inMain false)
  /\ Terminated 0 (module (Examples.inMain false)) = false.
Proof.
  split; [| vm_compute; reflexivity].
  apply (proj1 C4_function_checks_no_terminator false
           (Ast.mkFunction "main" [] Examples.i64 []) (NewIrgen Examples.emptyMain)
           0 (Examples.inMain false)); vm_compute; reflexivity.
Defined.

(** C4 as stated fails on [proc main() -> i64 { }]: the return type is not
    void, the final block is empty, and [Generate] returns the module. *)
Lemma C4_counterexample :
  Examples.emitted (Generate false (NewIrgen Examples.emptyMain)) = Some [mkBlock 0 []]
  /\ Examples.emitted (IrgenStmt.Generate SpecScope.impl
                         (IrgenStmt.NewIrgen SpecScope.impl Examples.emptyMain2))
     = Some [mkBlock 0 []].
Proof. split; vm_compute; reflexivity. Qed.

(** C5 on the code.  In src/irgen/irgen.go a block exit restores the scope
    index and leaves the frame as it is: on
    [proc main() -> i64 { { x := 7 } { return x } }] the second block finds the
    [x] of the first one and loads from its slot, where the claim has the
    lookup fail; only a use outside any later block at that depth fails.  In
    src/unnamed/part_001 a block pushes a frame and nothing pops it: on
    [proc main() -> i64 { if true { let x = 7 }; return x }] the use after the
    block loads from the slot. *)
Theorem C5_bindings_outlive_their_block :
  Examples.emitted (Generate false (NewIrgen Examples.siblingBlocks))
    = Some [mkBlock 0 [Br 1];
            mkBlock 0 [Alloca 0 (Llvm Examples.i64);
                       Store (Pointer 0) (Some (ConstantInt (IntType 64) 7));
                       Br 2];
            mkBlock 0 [Load 1 (Pointer 0);
                       Cast 2 (Some (Temp 1)) (Llvm Examples.i64);
                       Ret (Some (Temp 2))]]
  /\ Generate false (NewIrgen Examples.afterBlock) = Panicked InterfaceIsNil
  /\ Examples.emitted (IrgenStmt.Generate SpecScope.impl
                         (IrgenStmt.NewIrgen SpecScope.impl Examples.afterBlock2))
     = Some [mkBlock 0 [CondBr (Some (ConstantBool true)) 2 1];
             mkBlock 0 [Load 1 (Pointer 0); Ret (Some (Temp 1))];
             mkBlock 0 [Alloca 0 (LlvmBase Examples.i64);
                        Store (Pointer 0)
                          (Some (ConstantAtoi (Llvm (Types.IntType 0)) "7"));
                        Br 1]].
Proof. split; [| split]; vm_compute; reflexivity. Qed.






(** C7.  Every for node that is lowered from a state with a current block
    is lowered as [Shape.loops] says: index, condition, body block, exit block,
    branch on the condition in the block the condition left current;
    then, from the end of the body, increment, condition again and a second
    branch to the same two targets.  No header block is created: the only
    blocks the loop itself adds are the start of the body and the exit. *)
Theorem C7_for_lowers_condition_twice :
  forall fip Index Condition Increment Block_ g v g',
    validBlock (module g) (block g) ->
    expression fip (Ast.For Index Condition Increment Block_) g = Returned v g' ->
    Shape.loops fip Index Condition Increment Block_ g v g'.
Proof. intros. by apply forNode_run. Qed.

(** C7 at [for i := 0; i < 123; i = i + 1 { }] in the body of [main]. *)
Lemma C7_witness :
  Shape.loops false
    (Ast.Assignment "i" Examples.i64 true (Ast.Integer 0))
    (Ast.Binary false Lexer.LSS (Ast.Ident "i") (Ast.Integer 123))
    (Ast.Assignment "i" Examples.i64 false
       (Ast.Binary false Lexer.ADD (Ast.Ident "i") (Ast.Integer 1)))
    [] (Examples.inMain false) None
    (Examples.stateAfter (expression false Examples.countLoop) (Examples.inMain false)).
Proof.
  apply (C7_for_lowers_condition_twice false).
  - exists 0. split; [reflexivity | vm_compute; lia].
  - vm_compute. reflexivity.
Defined.

(** C8.  In src/irgen/irgen.go, for every if node whose else arm has a
    condition, lowered from a state with a current block and a module whose
    branches stay inside it: the check block, created after the else body,
    ends up holding exactly the branch on the else condition; the enclosing
    if's branch has the start of the else body, a block older than the check
    block, as its false target; and no instruction of the resulting module
    branches to the check block. *)
Theorem C8_else_if_check_block_unreachable :
  forall fip c b c' b' e' g next g',
    Ast.isNil c' = false ->
    validBlock (module g) (block g) ->
    closed (module g) ->
    ifNode fip (Ast.mkIf c b (Some (Ast.mkIf c' b' e'))) g = Returned next g' ->
    Shape.danglingCheck fip c b c' b' g next g'.
Proof. intros. by eapply elseif_check_block. Qed.

(** C8 at [if true { return 1 } else if false { return 2 }] in the body of
    [main]. *)
Lemma C8_witness :
  Shape.danglingCheck false
    (Ast.Ident "true") [Ast.Return (Ast.Integer 1)]
    (Ast.Ident "false") [Ast.Return (Ast.Integer 2)]
    (Examples.inMain false) 2
    (Examples.stateAfter (ifNode false Examples.elseIf) (Examples.inMain false)).
Proof.
  apply (C8_else_if_check_block_unreachable false _ _ _ _ None).
  - reflexivity.
  - exists 0. split; [reflexivity | vm_compute; lia].
  - intros b blk Hb. destruct b as [| b]; [| destruct b; discriminate Hb].
    vm_compute in Hb. injection Hb as <-. constructor.
  - vm_compute. reflexivity.
Defined.

(** C10.  In src/irgen/irgen.go, every declaration-assignment that is
    lowered allocates the slot in the current block and binds the name in the
    current frame, lowers the initializer in that state, where the name
    already resolves to the slot, and then stores into the slot exactly when
    the initializer gave a value.  An array list gives no value; when it
    initializes the name being declared, the run after the allocation is, for
    each element in order, the element pointer at indices 0 and i into the
    slot just bound, the element's value, and the store through that pointer,
    and no store of the whole array follows. *)
Theorem C10_declare_binds_before_initializer :
  (forall fip Name Type_ e g v g',
     expression fip (Ast.Assignment Name Type_ true e) g = Returned v g' ->
     Shape.declares fip Name Type_ e g v g')
  /\
  (forall fip Name ArrayType List g v g',
     expression fip (Ast.ArrayList Name ArrayType List) g = Returned v g' -> v = None)
  /\
  (forall fip Name Type_ ArrayType List g v g',
     expression fip (Ast.Assignment Name Type_ true (Ast.ArrayList Name ArrayType List)) g
       = Returned v g' ->
     Shape.declaresArray fip Name Type_ ArrayType List g g').
Proof.
  split; [| split].
  - intros. by apply assignment_declare.
  - intros fip Name ArrayType List g v g' H. by destruct (array_run fip _ _ _ _ _ _ H).
  - intros fip Name Type_ ArrayType List g v g' H.
    destruct (assignment_declare fip _ _ _ _ _ _ H)
      as (b & sc & value & g2 & Hb & Hsc & Hfind & He & -> & Hstore).
    destruct (array_run fip _ _ _ _ _ _ He) as (-> & Hnil & Hcons).
    subst g'. exists b, sc. split; [done | split; [done | split]].
    + intros HL. by apply Hnil.
    + intros HL. destruct (Hcons HL) as (slot & elem & Hslot & Helem & Hrun).
      rewrite Hfind in Hslot. injection Hslot as <-. eauto.
Qed.

(** C10 at [a := {121, 1, 1}], [a] of type [3]i64, in the body of [main]. *)
Lemma C10_witness :
  Shape.declaresArray false "a" Examples.arrayType Examples.arrayType Examples.arrayElements
    (Examples.inMain false)
    (Examples.stateAfter (expression false Examples.arrayDeclaration) (Examples.inMain false)).
Proof.
  apply (proj2 (proj2 C10_declare_binds_before_initializer) false "a" Examples.arrayType
           Examples.arrayType Examples.arrayElements (Examples.inMain false) None).
  vm_compute. reflexivity.
Defined.

(** * Beyond the claims: name lookup *)

Import Construct.

Lemma findFrom_in_range (ss : list scope) (v : string) (cs : nat) :
  cs < length ss -> is_Some (findFrom ss v cs).
Proof.
  induction cs as [| cs IH]; intros Hlt; simpl.
  - destruct (lookup_lt_is_Some_2 ss 0 Hlt) as [sc ->]. destruct (sc !! v); eauto.
  - destruct (lookup_lt_is_Some_2 ss (S cs) Hlt) as [sc ->]. destruct (sc !! v); [eauto |].
    apply IH. lia.
Qed.

Lemma findFrom_Some (ss : list scope) (v : string) (x : Value) (cs : nat) :
  findFrom ss v cs = Some (Some x) <-> cs < length ss /\ innermost ss cs v x.
Proof.
  induction cs as [| cs IH]; simpl.
  - destruct (ss !! 0) as [sc |] eqn:E.
    + destruct (sc !! v) as [y |] eqn:Ev.
      * split.
        -- intros [= ->]. split; [by eapply lookup_lt_Some |].
           exists 0, sc. repeat split; try done. intros j scj Hj. lia.
        -- intros (_ & i & sc' & Hi & Hsc' & Hv & _). assert (i = 0) as -> by lia.
           congruence.
      * split; [done |]. intros (_ & i & sc' & Hi & Hsc' & Hv & _).
        assert (i = 0) as -> by lia. congruence.
    + split; [done |]. intros (Hlt & _). apply lookup_ge_None_1 in E. lia.
  - destruct (ss !! S cs) as [sc |] eqn:E.
    + destruct (sc !! v) as [y |] eqn:Ev.
      * split.
        -- intros [= ->]. split; [by eapply lookup_lt_Some |].
           exists (S cs), sc. repeat split; try done. intros j scj Hj. lia.
        -- intros (_ & i & sc' & Hi & Hsc' & Hv & Hlater).
           destruct (decide (i = S cs)) as [-> | Hne]; [congruence |].
           rewrite (Hlater (S cs) sc) in Ev; [done | lia | done].
      * rewrite IH. split.
        -- intros (Hlt & i & sc' & Hi & Hsc' & Hv & Hlater).
           split; [by eapply lookup_lt_Some |].
           exists i, sc'. repeat split; try done; [lia |].
           intros j scj Hj Hscj. destruct (decide (j = S cs)) as [-> | Hne].
           ++ congruence.
           ++ apply (Hlater j scj); [lia | done].
        -- intros (Hlt & i & sc' & Hi & Hsc' & Hv & Hlater).
           split; [lia |].
           assert (i <> S cs) by (intros ->; congruence).
           exists i, sc'. repeat split; try done; [lia |].
           intros j scj Hj Hscj. apply (Hlater j scj); [lia | done].
    + split; [done |]. intros (Hlt & _). apply lookup_ge_None_1 in E. lia.
Qed.

Lemma findFrom_unbound (ss : list scope) (v : string) (cs : nat) :
  findFrom ss v cs = Some None <-> cs < length ss /\ unbound ss cs v.
Proof.
  induction cs as [| cs IH]; simpl.
  - destruct (ss !! 0) as [sc |] eqn:E.
    + destruct (sc !! v) as [y |] eqn:Ev.
      * split; [done |]. intros (_ & Hun). rewrite (Hun 0 sc) in Ev; [done | lia | done].
      * split; [| done]. intros _. split; [by eapply lookup_lt_Some |].
        intros i sc' Hi Hsc'. assert (i = 0) as -> by lia. congruence.
    + split; [done |]. intros (Hlt & _). apply lookup_ge_None_1 in E. lia.
  - destruct (ss !! S cs) as [sc |] eqn:E.
    + destruct (sc !! v) as [y |] eqn:Ev.
      * split; [done |]. intros (_ & Hun). rewrite (Hun (S cs) sc) in Ev; [done | lia | done].
      * rewrite IH. split.
        -- intros (Hlt & Hun). split; [by eapply lookup_lt_Some |].
           intros i sc' Hi Hsc'. destruct (decide (i = S cs)) as [-> | Hne]; [congruence |].
           apply (Hun i sc'); [lia | done].
        -- intros (Hlt & Hun). split; [lia |].
           intros i sc' Hi Hsc'. apply (Hun i sc'); [lia | done].
    + split; [done |]. intros (Hlt & _). apply lookup_ge_None_1 in E. lia.
Qed.

(** X1.  [find] of src/irgen/irgen.go, when the current scope index is a
    frame of the lowerer: it returns without changing anything; the result
    is [x] exactly when [x] is the binding of the name in the innermost
    frame, counted from the current one down to frame 0, that binds the name
    (an inner binding hides the outer ones), and it is nil exactly when no
    frame from the current one down to frame 0 binds the name.  Frames above
    the current index are never read. *)
Theorem X1_find_returns_innermost_binding :
  forall v g,
    currentScope g < length (scopes g) ->
    (exists r, find v g = Returned r g)
    /\ (forall x, find v g = Returned (Some x) g
                  <-> innermost (scopes g) (currentScope g) v x)
    /\ (find v g = Returned None g <-> unbound (scopes g) (currentScope g) v).
Proof.
  intros v g Hlt. unfold find.
  destruct (findFrom_in_range (scopes g) v (currentScope g) Hlt) as [r Hr].
  split; [| split].
  - exists r. by rewrite Hr.
  - intros x. rewrite Hr. split.
    + intros [= ->]. by apply findFrom_Some in Hr as [_ Hr].
    + intros Hin. assert (H : findFrom (scopes g) v (currentScope g) = Some (Some x))
        by (by apply findFrom_Some).
      congruence.
  - rewrite Hr. split.
    + intros [= ->]. by apply findFrom_unbound in Hr as [_ Hr].
    + intros Hun. assert (H : findFrom (scopes g) v (currentScope g) = Some None)
        by (by apply findFrom_unbound).
      congruence.
Qed.

(** X1 in the body of [proc main(main i64)]: the name [main] is bound in
    frame 0 to the function and in frame 1 to the parameter's slot; [find]
    returns the slot. *)
Lemma X1_witness :
  find "main" inShadowing = Returned (Some (Pointer 0)) inShadowing.
Proof.
  apply (proj1 (proj2 (X1_find_returns_innermost_binding "main" inShadowing
                         ltac:(vm_compute; lia)))).
  exists 1, {[ "main" := Pointer 0 ]}.
  split; [vm_compute; lia |]. split; [vm_compute; reflexivity |].
  split; [vm_compute; reflexivity |].
  intros j scj Hj. vm_compute in Hj. lia.
Defined.

(** * Beyond the claims: the frames are a fixed array *)

Lemma block_panics fip e g b p :
  block g = Some b ->
  expression fip e (setBlock (Some (nblocks (module g)))
                      (setCurrentScope (S (currentScope g))
                         (setModule (AddBlock b (module g)).2 g))) = Panicked p ->
  expression fip (Ast.Block [e]) g = Panicked p.
Proof.
  intros Hb H. cbn [expression]. unfold blockNode_, addBlock, theBlock, bind, get, modify.
  rewrite Hb. cbn [AddBlock each]. unfold bind.
  match goal with |- context [expression fip e ?s] =>
    change s with (setBlock (Some (nblocks (module g)))
                     (setCurrentScope (S (currentScope g))
                        (setModule (AddBlock b (module g)).2 g)))
  end.
  by rewrite H.
Qed.

Lemma nest_out_of_range fip (e : Ast.Expression) :
  (forall g, length (scopes g) <= currentScope g ->
             expression fip e g = Panicked IndexOutOfRange) ->
  forall n g b,
    block g = Some b ->
    length (scopes g) <= currentScope g + n ->
    expression fip (nest n e) g = Panicked IndexOutOfRange.
Proof.
  intros He. induction n as [| n IH]; intros g b Hb Hlen.
  - apply He. lia.
  - cbn [nest]. apply (block_panics _ _ _ b); [done |].
    apply (IH _ (nblocks (module g))); [done |].
    cbn [scopes currentScope setBlock setCurrentScope setModule]. lia.
Qed.

(** X2.  The frames of src/irgen/irgen.go are the thousand maps that
    [newScope] allocates, and [blockNode] counts the scope index up without
    looking at their number.  So a name used inside [n] nested blocks, entered
    from a state whose scope index plus [n] reaches the number of frames,
    cannot be looked up: [find] indexes past the frames and lowering ends in
    the index-out-of-range panic.  (The body of a function is lowered at
    index 1 of 1000 frames: the 999th nested block is the first to fail.) *)
Theorem X2_nesting_beyond_the_frames_panics :
  forall fip n v g b,
    String.eqb v "true" = false -> String.eqb v "false" = false ->
    block g = Some b ->
    length (scopes g) <= currentScope g + n ->
    expression fip (nest n (Ast.Ident v)) g = Panicked IndexOutOfRange.
Proof.
  intros fip n v g b Ht Hf Hb Hlen. eapply nest_out_of_range; [| exact Hb | exact Hlen].
  intros g0 H0. cbn [expression]. unfold ident. rewrite Ht, Hf. cbn [orb].
  unfold bind at 1. unfold find.
  assert (E : findFrom (scopes g0) v (currentScope g0) = None).
  { destruct (currentScope g0); simpl; by rewrite lookup_ge_None_2 by lia. }
  by rewrite E.
Qed.

(** X2 in the body of [main]: [x] inside 999 nested blocks. *)
Lemma X2_witness :
  expression false (nest 999 (Ast.Ident "x")) (Examples.inMain false)
  = Panicked IndexOutOfRange.
Proof.
  apply (X2_nesting_beyond_the_frames_panics false 999 "x" (Examples.inMain false) 0).
  - reflexivity.
  - reflexivity.
  - reflexivity.
  - vm_compute. lia.
Defined.

(** * Beyond the claims: the scope a function body starts in *)

Lemma parameters_scope fn (params : list Ast.Param) :
  forall g u g',
    each (fun arg =>
        let argType := Llvm (Ast.paramType arg) in
        do argValue <- addArgument fn argType (Ast.paramIdent arg);
        do id <- emitNamed (fun id => Alloca id argType);
        do _ <- emit (Store (Pointer id) (Some argValue));
        bindName (Ast.paramIdent arg) (Pointer id)) params g = Returned u g' ->
    currentScope g' = currentScope g
    /\ length (scopes g') = length (scopes g)
    /\ (forall j, j <> currentScope g -> scopes g' !! j = scopes g !! j)
    /\ (forall sc' v x, scopes g' !! currentScope g = Some sc' -> sc' !! v = Some x ->
          (exists sc, scopes g !! currentScope g = Some sc /\ sc !! v = Some x)
          \/ (exists p id, p ∈ params /\ Ast.paramIdent p = v /\ x = Pointer id)).
Proof.
  induction params as [| p rest IH]; intros g u g' H; simpl in H.
  - apply pure_Returned in H as [_ ->]. repeat split; try done.
    intros sc' v x Hsc' Hv. left. eauto.
  - apply bind_Returned in H as (u1 & g1 & Hbody & H).
    apply bind_Returned in Hbody as (argValue & gA & HA & Hbody).
    apply addArgument_Returned in HA as [_ ->].
    apply bind_Returned in Hbody as (id & gB & HB & Hbody).
    apply emitNamed_Returned in HB as (b1 & Hb1 & -> & ->).
    apply bind_Returned in Hbody as (u2 & gC & HC & Hbind).
    apply emit_Returned in HC as (b2 & Hb2 & ->).
    apply bindName_Returned in Hbind as (sc & Hsc & ->).
    destruct (IH _ _ _ H) as (I1 & I2 & I3 & I4).
    cbn [module block currentScope scopes setModule setScopes] in *.
    split; [done | split; [by rewrite I2, length_insert | split]].
    + intros j Hj. rewrite I3 by done. by rewrite list_lookup_insert_ne.
    + intros sc' v x Hsc' Hv. destruct (I4 sc' v x Hsc' Hv) as [(sc0 & Hsc0 & Hv0) | (q & i & Hq & Hn & Hx)].
      * rewrite list_lookup_insert_eq in Hsc0 by (by eapply lookup_lt_Some).
        injection Hsc0 as <-.
        destruct (decide (Ast.paramIdent p = v)) as [E | Hne].
        -- right. rewrite E, lookup_insert_eq in Hv0. injection Hv0 as <-.
           exists p, (temps (module g)). split; [apply elem_of_cons; by left | done].
        -- rewrite lookup_insert_ne in Hv0 by done. left. eauto.
      * right. exists q, i. split; [apply elem_of_cons; by right | done].
Qed.

(** X3.  [function] of src/irgen/irgen.go starts every function from fresh
    frames: whatever was bound when the function is entered, at the start of
    its body the scope index is 1, there are a thousand frames, and the only
    names [find] resolves are the parameters, each to a slot, and the name
    of the function itself, to its handle.  Names bound while an earlier
    function was lowered, the other functions of the module and any global
    name are not in scope. *)
Theorem X3_function_starts_from_fresh_frames :
  forall node g fn g1,
    prologue node g = Returned fn g1 ->
    currentScope g1 = 1
    /\ length (scopes g1) = 1000
    /\ forall v x, find v g1 = Returned (Some x) g1 ->
         (exists p id, p ∈ Ast.Parameters node /\ Ast.paramIdent p = v /\ x = Pointer id)
         \/ (v = Ast.Name node /\ x = FunctionValue fn).
Proof.
  intros node g fn g1 H. unfold prologue, newScope in H.
  apply bind_Returned in H as (u0 & g2 & H0 & H). apply modify_Returned in H0 as ->.
  apply bind_Returned in H as (u1 & g3 & H0 & H). apply modify_Returned in H0 as ->.
  apply bind_Returned in H as (u2 & g4 & H0 & H). apply modify_Returned in H0 as ->.
  apply bind_Returned in H as (gg & g5 & H0 & H). apply get_Returned in H0 as [-> ->].
  cbn [functions module setCurrentScope setScopes setCurrentFunction] in H.
  apply bind_Returned in H as (function & g6 & Hfn & H).
  destruct (functions g !! Ast.Name node) as [fn0 |] eqn:Efn; [| done].
  apply pure_Returned in Hfn as [-> ->].
  apply bind_Returned in H as (ent & g7 & Hent & H).
  destruct (Goory.functions (module g) !! fn0) as [f0 |] eqn:Ef0; [| done].
  apply pure_Returned in Hent as [-> ->].
  apply bind_Returned in H as (u3 & g8 & H0 & H). apply modify_Returned in H0 as ->.
  apply bind_Returned in H as (u4 & g9 & Hbind & H).
  apply bindName_Returned in Hbind as (sc & Hsc & ->).
  apply bind_Returned in H as (u5 & g10 & H0 & H). apply modify_Returned in H0 as ->.
  apply bind_Returned in H as (u6 & g11 & Hloop & H).
  apply pure_Returned in H as [-> ->].
  apply parameters_scope in Hloop as (I1 & I2 & I3 & I4).
  cbn [module block currentScope scopes setBlock setScopes setCurrentScope
       setCurrentFunction setModule] in *.
  rewrite length_insert, length_replicate in I2.
  apply lookup_replicate_1 in Hsc as [-> _].
  split; [done | split; [done |]].
  intros v x Hfind. unfold find in Hfind.
  match type of Hfind with context [findFrom ?ss v ?cs] =>
    destruct (findFrom ss v cs) as [r |] eqn:Ef end; [| done].
  injection Hfind as ->. apply findFrom_Some in Ef as (_ & i & sci & Hi & Hsci & Hv & _).
  rewrite I1 in Hi. destruct (decide (i = 1)) as [-> | Hne].
  - destruct (I4 sci v x Hsci Hv) as [(sc0 & Hsc0 & Hv0) | Hp]; [| by left].
    rewrite list_lookup_insert_ne in Hsc0 by done.
    apply lookup_replicate_1 in Hsc0 as [-> _]. by rewrite lookup_empty in Hv0.
  - assert (i = 0) as -> by lia. rewrite I3 in Hsci by done.
    rewrite list_lookup_insert_eq in Hsci by (rewrite length_replicate; lia).
    injection Hsci as <-. right.
    destruct (decide (Ast.Name node = v)) as [E | Hne'].
    + rewrite E, lookup_insert_eq in Hv. injection Hv as <-. done.
    + rewrite lookup_insert_ne in Hv by done. by rewrite lookup_empty in Hv.
Qed.

(** X3 at [proc identity(n i64)], entered again from the state its own
    lowering left. *)
Lemma X3_witness :
  currentScope (Examples.stateAfter (prologue Examples.identity)
                  (Examples.stateAfter (function false Examples.identity)
                     (NewIrgen Examples.identityProgram))) = 1.
Proof.
  apply (X3_function_starts_from_fresh_frames Examples.identity
           (Examples.stateAfter (function false Examples.identity)
              (NewIrgen Examples.identityProgram)) 0).
  vm_compute. reflexivity.
Defined.

(** * Beyond the claims: return, re-assignment, nested blocks *)

Lemma Terminated_instrsOf b m : Terminated b m = existsb isTerminator (instrsOf b m).
Proof. unfold Terminated, instrsOf. by destruct (blocks m !! b). Qed.

(** X4.  [ret] of src/irgen/irgen.go, from a state whose current block is a
    block of the module: the value is lowered first; then, in the block
    current after it, the value is cast to the return type the function
    being lowered declares, whatever the type of the value, and the result of
    the cast is returned.  Nothing else is touched, the block stays current
    and is terminated from then on, and the node itself yields nil. *)
Theorem X4_return_casts_to_declared_type :
  forall fip e g v g',
    validBlock (module g) (block g) ->
    expression fip (Ast.Return e) g = Returned v g' ->
    v = None
    /\ exists value g1 b f,
         expression fip e g = Returned value g1
         /\ block g1 = Some b
         /\ currentFunction g = Some f
         /\ instrsOf b (module g')
            = instrsOf b (module g1)
              ++ [Cast (temps (module g1)) value (Llvm (Ast.ReturnType f));
                  Ret (Some (Temp (temps (module g1))))]
         /\ (forall b', b' <> b -> instrsOf b' (module g') = instrsOf b' (module g1))
         /\ block g' = Some b
         /\ Terminated b (module g') = true.
Proof.
  intros fip e g v g' Hv H. cbn [expression] in H. unfold ret_ in H.
  apply bind_Returned in H as (u & gR & H & Hp). apply pure_Returned in Hp as [-> ->].
  apply bind_Returned in H as (value & g1 & He & H).
  apply bind_Returned in H as (gg & g2 & H0 & H). apply get_Returned in H0 as [-> ->].
  apply bind_Returned in H as (t & g3 & Ht & H).
  destruct (currentFunction g1) as [f |] eqn:Ef; [| done].
  apply pure_Returned in Ht as [-> ->].
  apply bind_Returned in H as (id & g4 & Hc & H).
  apply emitNamed_Returned in Hc as (b & Hb & -> & ->).
  apply emit_Returned in H as (b2 & Hb2 & ->).
  cbn [block setModule] in Hb2. rewrite Hb in Hb2. injection Hb2 as <-.
  pose proof (expression_Step fip _ _ _ _ He) as HS.
  destruct (Step_valid _ _ HS Hv) as (b0 & Hb0 & Hlt).
  rewrite Hb in Hb0. injection Hb0 as <-.
  assert (Hins : instrsOf b (append b (Ret (Some (Temp (temps (module g1)))))
                    (appendNamed b (fun id => Cast id value (Llvm (Ast.ReturnType f)))
                       (module g1)).2)
                 = instrsOf b (module g1)
                   ++ [Cast (temps (module g1)) value (Llvm (Ast.ReturnType f));
                       Ret (Some (Temp (temps (module g1))))]).
  { rewrite instrsOf_append_eq by (rewrite nblocks_appendNamed; lia).
    rewrite instrsOf_appendNamed_eq by lia. by rewrite <- app_assoc. }
  split; [done |]. exists value, g1, b, f.
  cbn [module block setModule].
  split; [done | split; [done | split]].
  { rewrite <- Ef. symmetry. apply HS. }
  split; [exact Hins | split; [| split; [done |]]].
  - intros b' Hne. rewrite instrsOf_append_ne by done. by rewrite instrsOf_appendNamed_ne.
  - rewrite Terminated_instrsOf, Hins, existsb_app. simpl. by rewrite orb_true_r.
Qed.

(** X4 at [return 5] in the body of [main], which declares i64. *)
Lemma X4_witness :
  Terminated 0
    (module (Examples.stateAfter (expression false (Ast.Return (Ast.Integer 5)))
               (Examples.inMain false))) = true.
Proof.
  destruct (X4_return_casts_to_declared_type false (Ast.Integer 5) (Examples.inMain false)
              None
              (Examples.stateAfter (expression false (Ast.Return (Ast.Integer 5)))
                 (Examples.inMain false)))
    as (_ & value & g1 & b & f & He & Hb & _ & _ & _ & _ & HT).
  - exists 0. split; [reflexivity | vm_compute; lia].
  - vm_compute. reflexivity.
  - injection He as _ <-. vm_compute in Hb. injection Hb as <-. exact HT.
Defined.

(** X5.  [assignment] of src/irgen/irgen.go without the declare flag, on a
    name that [find] resolves to [x]: no slot is allocated and nothing is
    bound; the type the node carries is not used.  The right-hand side is
    lowered in the state as it was, and when it yields a value, one store of
    that value into [x], the slot found before the right-hand side was
    lowered, is appended to the block then current; when it yields nil,
    nothing is stored. *)
Theorem X5_reassignment_stores_into_found_slot :
  forall fip Name Type_ e g x v g',
    find Name g = Returned (Some x) g ->
    expression fip (Ast.Assignment Name Type_ false e) g = Returned v g' ->
    v = None
    /\ exists value g1,
         expression fip e g = Returned value g1
         /\ match value with
            | Some val =>
                exists b, block g1 = Some b
                  /\ g' = setModule (append b (Store x (Some val)) (module g1)) g1
            | None => g' = g1
            end.
Proof.
  intros fip Name Type_ e g x v g' Hx H. cbn [expression] in H. unfold assignment_ in H.
  apply bind_Returned in H as (u & gR & H & Hp). apply pure_Returned in Hp as [-> ->].
  apply bind_Returned in H as (found & g0 & Hf & H).
  rewrite Hx in Hf. injection Hf as <- <-. cbn [negb notNil andb] in H.
  apply bind_Returned in H as (alloc & g2 & Ha & H). apply pure_Returned in Ha as [-> ->].
  apply bind_Returned in H as (value & g1 & He & H).
  split; [done |]. exists value, g1. split; [done |].
  destruct value as [val |].
  - apply bind_Returned in H as (p & g3 & Hp & H).
    apply asPointer_Returned in Hp as [-> [= ->]].
    apply emit_Returned in H as (b & Hb & ->). eauto.
  - by apply pure_Returned in H as [_ ->].
Qed.

(** X5 at [proc identity(n i64)]: [n = 7] in its body stores into the
    parameter's slot. *)
Lemma X5_witness :
  blocks (module (Examples.stateAfter
                    (expression false (Ast.Assignment "n" Examples.f64 false (Ast.Integer 7)))
                    (Examples.stateAfter (prologue Examples.identity)
                       (NewIrgen Examples.identityProgram))))
  = [mkBlock 0 [Alloca 0 (Llvm Examples.i64);
                Store (Pointer 0) (Some (Argument 0 0));
                Store (Pointer 0) (Some (ConstantInt (IntType 64) 7))]].
Proof.
  destruct (X5_reassignment_stores_into_found_slot false "n" Examples.f64 (Ast.Integer 7)
              (Examples.stateAfter (prologue Examples.identity)
                 (NewIrgen Examples.identityProgram))
              (Pointer 0) None
              (Examples.stateAfter
                 (expression false (Ast.Assignment "n" Examples.f64 false (Ast.Integer 7)))
                 (Examples.stateAfter (prologue Examples.identity)
                    (NewIrgen Examples.identityProgram))))
    as (_ & value & g1 & He & Hm).
  - vm_compute. reflexivity.
  - vm_compute. reflexivity.
  - injection He as <- <-. destruct Hm as (b & Hb & ->).
    vm_compute in Hb. injection Hb as <-. vm_compute. reflexivity.
Defined.

(** X6.  [blockNode] of src/irgen/irgen.go: the expressions of the block are
    lowered one after the other into a block created for them, at the scope
    index one above the caller's; on return the scope index and the current
    block are the caller's again, the start returned is the block created, the
    end returned is the block in which the last expression ended, a block
    created by the call.  The call appends nothing to any block that existed
    before it: the branch into the new block is left to the caller.  The
    frames are as the body left them. *)
Theorem X6_blockNode_restores_scope_and_block :
  forall fip l g s e g',
    blockNode_ (expression fip) l g = Returned (s, e) g' ->
    exists b0 g1,
      block g = Some b0
      /\ each (fun x => do _ <- expression fip x; pure tt) l
           (setBlock (Some (nblocks (module g)))
              (setCurrentScope (S (currentScope g))
                 (setModule (AddBlock b0 (module g)).2 g))) = Returned tt g1
      /\ s = nblocks (module g)
      /\ e = block g1
      /\ (exists b, e = Some b /\ nblocks (module g) <= b < nblocks (module g'))
      /\ g' = setBlock (block g) (setCurrentScope (currentScope g) g1)
      /\ forall b, b < nblocks (module g) -> instrsOf b (module g') = instrsOf b (module g).
Proof.
  intros fip l g s e g' H.
  destruct (blockNode_run fip _ _ _ _ _ H) as (HQ & Hs & He).
  unfold blockNode_ in H.
  apply bind_Returned in H as (gg & g2 & H0 & H). apply get_Returned in H0 as [-> ->].
  apply bind_Returned in H as (nb & g3 & Hnb & H).
  apply addBlock_Returned in Hnb as (b0 & Hb0 & -> & ->).
  apply bind_Returned in H as (u1 & g4 & H0 & H). apply modify_Returned in H0 as ->.
  apply bind_Returned in H as (u2 & g5 & H0 & H). apply modify_Returned in H0 as ->.
  apply bind_Returned in H as (u3 & g1 & Hbody & H). destruct u3.
  apply bind_Returned in H as (gg & g6 & H0 & H). apply get_Returned in H0 as [-> ->].
  apply bind_Returned in H as (u4 & g7 & H0 & H). apply modify_Returned in H0 as ->.
  apply bind_Returned in H as (u5 & g8 & H0 & H). apply modify_Returned in H0 as ->.
  apply pure_Returned in H as [[= _ ->] ->].
  exists b0, g1. cbn [currentScope setModule] in Hbody.
  repeat (split; [done |]). intros b Hb. by apply Quiet_instrsOf.
Qed.

(** X6 at the empty block in the body of [main]. *)
Lemma X6_witness :
  exists b0 g1,
    block (Examples.inMain false) = Some b0
    /\ each (fun x => do _ <- expression false x; pure tt) []
         (setBlock (Some (nblocks (module (Examples.inMain false))))
            (setCurrentScope (S (currentScope (Examples.inMain false)))
               (setModule (AddBlock b0 (module (Examples.inMain false))).2
                  (Examples.inMain false)))) = Returned tt g1.
Proof.
  destruct (X6_blockNode_restores_scope_and_block false [] (Examples.inMain false) 1 (Some 1)
              (Examples.stateAfter (blockNode_ (expression false) []) (Examples.inMain false)))
    as (b0 & g1 & Hb & Hrun & _).
  - vm_compute. reflexivity.
  - exists b0, g1. split; [exact Hb | exact Hrun].
Defined.



(** * Beyond the claims: conditionals *)

(** X8.  [ifNode] of src/irgen/irgen.go on an if without else, reached
    through [expression] from a state whose current block is a block of the
    module.  The body is lowered first, then the condition; the block current
    after the condition receives the conditional branch to the start of the
    body and to the next block, created after the condition.  The end of the
    body receives a branch to the next block unless it is terminated.  With
    no else arm the false end is the next block itself, which is empty and so
    not terminated: it receives a branch to itself.  The next block becomes
    the current block, so whatever is lowered after the if is appended behind
    that branch. *)
Theorem X8_if_without_else_next_block_branches_to_itself :
  forall fip c body g v g',
    validBlock (module g) (block g) ->
    expression fip (Ast.If (Ast.mkIf c body None)) g = Returned v g' ->
    v = None
    /\ exists trueStart te gT cond gC cur next,
         blockNode_ (expression fip) body g = Returned (trueStart, Some te) gT
         /\ expression fip c gT = Returned cond gC
         /\ block gC = Some cur
         /\ next = nblocks (module gC)
         /\ nblocks (module g') = S next
         /\ block g' = Some next
         /\ instrsOf cur (module g')
            = instrsOf cur (module gC) ++ [CondBr cond trueStart next]
         /\ instrsOf te (module g')
            = instrsOf te (module gT)
              ++ (if Terminated te (module gT) then [] else [Br next])
         /\ instrsOf next (module g') = [Br next].
Proof.
  intros fip c body g v g' Hv H. cbn [expression] in H.
  apply bind_Returned in H as (nx & gI & HI & H).
  apply bind_Returned in H as (u0 & gS & H0 & H). apply modify_Returned in H0 as ->.
  apply pure_Returned in H as [-> ->].
  cbn [ifNode] in HI.
  apply bind_Returned in HI as ([trueStart trueEnd] & gT & HT & HI).
  destruct (blockNode_run fip _ _ _ _ _ HT) as (HQ & -> & (te & -> & Hte)).
  apply bind_Returned in HI as (cond & gC & HC & HI).
  pose proof (expression_Step fip _ _ _ _ HC) as HS.
  pose proof (Step_nblocks _ _ HS) as HnC.
  apply bind_Returned in HI as (next & gN & HN & HI).
  apply addBlock_Returned in HN as (cur & Hcur & -> & ->).
  apply bind_Returned in HI as ([falseStart falseEnd] & g3 & HF & HI).
  apply pure_Returned in HF as [[= -> ->] ->].
  apply bind_Returned in HI as (u1 & g4 & Hbr & HI).
  apply emit_Returned in Hbr as (cur' & Hcur' & ->).
  cbn [block setModule] in Hcur'. rewrite Hcur in Hcur'. injection Hcur' as <-.
  apply bind_Returned in HI as (u2 & g5 & H0 & HI). apply pure_Returned in H0 as [_ ->].
  apply bind_Returned in HI as (te' & g6 & H0 & HI).
  apply deref_Returned in H0 as [-> [= <-]].
  apply bind_Returned in HI as (t & g7 & Ht & HI).
  apply terminated_Returned in Ht as [-> ->].
  apply bind_Returned in HI as (u3 & g8 & Hclose & HI).
  apply bind_Returned in HI as (fe & g9 & H0 & HI).
  apply deref_Returned in H0 as [-> [= <-]].
  apply bind_Returned in HI as (f & g10 & Hf & HI).
  apply terminated_Returned in Hf as [-> ->].
  apply bind_Returned in HI as (u4 & g11 & Hclose2 & HI).
  apply pure_Returned in HI as [-> ->].
  (* where the blocks lie *)
  assert (HvT : validBlock (module gT) (block gT)).
  { eapply Step_valid; [apply Quiet_Step, HQ | exact Hv]. }
  destruct (Step_valid _ _ HS HvT) as (cur0 & Hcur0 & HcurLt).
  rewrite Hcur in Hcur0. injection Hcur0 as <-.
  destruct Hv as (b0 & Hb0 & Hb0lt).
  assert (HbT : block gT = Some b0) by (by rewrite (quiet_block _ _ HQ)).
  assert (Hne : cur <> te).
  { destruct (Step_block_where _ _ _ _ HS HbT Hcur) as [-> | Hfresh]; lia. }
  assert (HteC : instrsOf te (module gC) = instrsOf te (module gT)).
  { apply (Step_instrsOf_other _ _ _ HS); [lia |]. rewrite HbT. intros [= ->]. lia. }
  cbn [module block setModule] in *.
  set (n := nblocks (module gC)) in *.
  set (m1 := append cur (CondBr cond (nblocks (module g)) n) (AddBlock cur (module gC)).2) in *.
  assert (Hn1 : nblocks m1 = S n).
  { unfold m1. rewrite nblocks_append. apply AddBlock_nblocks. }
  assert (Hte1 : instrsOf te m1 = instrsOf te (module gT)).
  { unfold m1. rewrite instrsOf_append_ne by done.
    rewrite instrsOf_AddBlock_old by lia. exact HteC. }
  assert (Hcur1 : instrsOf cur m1
                  = instrsOf cur (module gC) ++ [CondBr cond (nblocks (module g)) n]).
  { unfold m1. rewrite instrsOf_append_eq by (rewrite AddBlock_nblocks; lia).
    by rewrite instrsOf_AddBlock_old by lia. }
  assert (Hnext1 : instrsOf n m1 = []).
  { unfold m1. rewrite instrsOf_append_ne by lia. apply instrsOf_AddBlock_new. }
  assert (HT1 : Terminated te m1 = Terminated te (module gT)).
  { by rewrite !Terminated_instrsOf, Hte1. }
  rewrite HT1 in Hclose.
  (* the state after the end of the body was closed *)
  assert (H8 : nblocks (module g8) = S n
               /\ instrsOf cur (module g8) = instrsOf cur m1
               /\ instrsOf n (module g8) = []
               /\ instrsOf te (module g8)
                  = instrsOf te (module gT)
                    ++ (if Terminated te (module gT) then [] else [Br n])).
  { destruct (Terminated te (module gT)).
    - apply pure_Returned in Hclose as [_ ->]. cbn [module setModule].
      rewrite app_nil_r. done.
    - apply emitAt_Returned in Hclose as ->. cbn [module setModule].
      rewrite nblocks_append, instrsOf_append_ne, instrsOf_append_ne by lia.
      rewrite instrsOf_append_eq by lia. by rewrite Hte1. }
  destruct H8 as (Hn8 & Hcur8 & Hnext8 & Hte8).
  assert (HT8 : Terminated n (module g8) = false).
  { by rewrite Terminated_instrsOf, Hnext8. }
  rewrite HT8 in Hclose2. apply emitAt_Returned in Hclose2 as ->.
  cbn [module block setBlock setModule].
  split; [done |].
  exists (nblocks (module g)), te, gT, cond, gC, cur, n.
  split; [done | split; [done | split; [done | split; [done |]]]].
  split; [by rewrite nblocks_append |].
  split; [done |].
  split; [by rewrite instrsOf_append_ne, Hcur8, Hcur1 by lia |].
  split; [by rewrite instrsOf_append_ne, Hte8 by lia |].
  rewrite instrsOf_append_eq by lia. by rewrite Hnext8.
Qed.

(** X8 at [if true { return 1 }] in the body of [main]. *)
Lemma X8_witness :
  instrsOf 2 (module (Examples.stateAfter
                        (expression false
                           (Ast.If (Ast.mkIf (Ast.Ident "true")
                                      [Ast.Return (Ast.Integer 1)] None)))
                        (Examples.inMain false)))
  = [Br 2].
Proof.
  destruct (X8_if_without_else_next_block_branches_to_itself false (Ast.Ident "true")
              [Ast.Return (Ast.Integer 1)] (Examples.inMain false) None
              (Examples.stateAfter
                 (expression false
                    (Ast.If (Ast.mkIf (Ast.Ident "true") [Ast.Return (Ast.Integer 1)] None)))
                 (Examples.inMain false)))
    as (_ & trueStart & te & gT & cond & gC & cur & next & HT & HC & _ & -> & _ & _ & _ & _ & Hn).
  - exists 0. split; [reflexivity | vm_compute; lia].
  - vm_compute. reflexivity.
  - injection HT as _ _ <-. injection HC as _ <-. exact Hn.
Defined.

(** X9.  [ifNode] of src/irgen/irgen.go lowers the condition of the node it
    is given without testing it for nil; only the condition of the else arm
    directly below is tested.  An else arm without condition that is reached
    through the recursive call, that is the final else of
    [if .. else if .. else ..], has its body lowered and then its nil
    condition, which no case of [expression] handles: the call does not
    return.  So no if node with a nil condition, and no three-arm chain
    ending in a plain else, is ever lowered to the end. *)
Theorem X9_final_else_of_a_chain_never_lowers :
  (forall fip body els g, unwinds (ifNode fip (Ast.mkIf Ast.Nil body els) g))
  /\ (forall fip c b c' b' body els g,
        unwinds (ifNode fip
                   (Ast.mkIf c b (Some (Ast.mkIf c' b' (Some (Ast.mkIf Ast.Nil body els)))))
                   g)).
Proof.
  assert (Hnil : forall fip body els g, unwinds (ifNode fip (Ast.mkIf Ast.Nil body els) g)).
  { intros fip body els g. unfold unwinds.
    destruct (ifNode fip (Ast.mkIf Ast.Nil body els) g) as [next g' | |] eqn:H; [| done | done].
    destruct els as [[c' b' e'] |]; cbn [ifNode] in H.
    all: apply bind_Returned in H as ([s e] & gT & _ & H).
    all: apply bind_Returned in H as (cond & gC & HC & _).
    all: cbn [expression] in HC; done. }
  split; [exact Hnil |].
  intros fip c b c' b' body els g. unfold unwinds.
  destruct (ifNode fip _ g) as [next g' | |] eqn:H; [| done | done].
  cbn [ifNode] in H.
  apply bind_Returned in H as ([s e] & gT & _ & H).
  apply bind_Returned in H as (cond & gC & _ & H).
  apply bind_Returned in H as (nb & gN & _ & H).
  apply bind_Returned in H as ([fs fe] & gF & _ & H).
  apply bind_Returned in H as (u1 & g4 & _ & H).
  apply bind_Returned in H as (u2 & g5 & Hrec & _).
  apply bind_Returned in Hrec as (nx & g6 & Hrec & _).
  pose proof (Hnil fip body els g4) as Hun. unfold unwinds in Hun.
  change (ifNode fip (Ast.mkIf Ast.Nil body els) g4 = Returned nx g6) in Hrec.
  by rewrite Hrec in Hun.
Qed.

(** * Beyond the claims: what lowering an expression keeps *)

(** X10.  Whatever expression [expression] of src/irgen/irgen.go lowers,
    when it returns the lowerer is in the caller's context again: the scope
    index is the one it was entered with (every block entered was left), the
    number of frames, the table of function handles, the function being
    lowered and the AST are unchanged, and no function was added to or
    changed in the module. *)
Theorem X10_expression_keeps_the_context :
  forall fip e g v g',
    expression fip e g = Returned v g' ->
    currentScope g' = currentScope g
    /\ length (scopes g') = length (scopes g)
    /\ functions g' = functions g
    /\ currentFunction g' = currentFunction g
    /\ root g' = root g
    /\ Goory.functions (module g') = Goory.functions (module g).
Proof.
  intros fip e g v g' H. destruct (expression_Step fip _ _ _ _ H) as [E F R C S L].
  repeat (split; [done |]). apply E.
Qed.

(** X10 at the counting loop in the body of [main]: three blocks later the
    scope index is 1 again. *)
Lemma X10_witness :
  currentScope (Examples.stateAfter (expression false Examples.countLoop)
                  (Examples.inMain false)) = 1.
Proof.
  destruct (X10_expression_keeps_the_context false Examples.countLoop (Examples.inMain false)
              None
              (Examples.stateAfter (expression false Examples.countLoop)
                 (Examples.inMain false))) as (-> & _).
  - vm_compute. reflexivity.
  - reflexivity.
Defined.

(** X11.  Whatever expression [expression] of src/irgen/irgen.go lowers,
    the module only grows: no block is removed, every block that existed
    keeps its owner and its instructions as a prefix of what it holds
    afterwards, and only the block that was current can have received more;
    what was added anywhere branches only to blocks created during the call;
    temporaries are never reused; the current block is the one it was or a
    block created during the call. *)
Theorem X11_expression_only_appends :
  forall fip e g v g',
    expression fip e g = Returned v g' ->
    nblocks (module g) <= nblocks (module g')
    /\ temps (module g) <= temps (module g')
    /\ (forall b blk, blocks (module g) !! b = Some blk ->
          exists suffix,
            blocks (module g') !! b = Some (mkBlock (owner blk) (instrs blk ++ suffix))
            /\ (block g <> Some b -> suffix = [])
            /\ Forall (targetsIn (nblocks (module g)) (nblocks (module g'))) suffix)
    /\ (forall b blk, nblocks (module g) <= b -> blocks (module g') !! b = Some blk ->
          Forall (targetsIn (nblocks (module g)) (nblocks (module g'))) (instrs blk))
    /\ (block g' = block g
        \/ exists b', block g' = Some b'
                      /\ nblocks (module g) <= b' < nblocks (module g')).
Proof.
  intros fip e g v g' H. destruct (expression_Step fip _ _ _ _ H) as [[F T N C O W] _ _ _ _ _].
  done.
Qed.

(** X11 at the counting loop in the body of [main]: no block is lost. *)
Lemma X11_witness :
  nblocks (module (Examples.inMain false))
  <= nblocks (module (Examples.stateAfter (expression false Examples.countLoop)
                        (Examples.inMain false))).
Proof.
  apply (X11_expression_only_appends false Examples.countLoop (Examples.inMain false) None).
  vm_compute. reflexivity.
Defined.



(** * Beyond the claims: the module [Generate] returns *)

Import Construct SpecPrologue.

Lemma withArguments_nil fn : withArguments [] fn = fn.
Proof. destruct fn. unfold withArguments. simpl. by rewrite app_nil_r. Qed.

(** The loop over the parameters, on the functions of the module. *)
Lemma parameters_functions fn (params : list Ast.Param) :
  forall g u g',
    each (fun arg =>
        let argType := Llvm (Ast.paramType arg) in
        do argValue <- addArgument fn argType (Ast.paramIdent arg);
        do id <- emitNamed (fun id => Alloca id argType);
        do _ <- emit (Store (Pointer id) (Some argValue));
        bindName (Ast.paramIdent arg) (Pointer id)) params g = Returned u g' ->
    Goory.functions (module g')
    = alter (withArguments (map (fun p => (Llvm (Ast.paramType p), Ast.paramIdent p)) params))
        fn (Goory.functions (module g)).
Proof.
  induction params as [| p rest IH]; intros g u g' H; simpl in H.
  - apply pure_Returned in H as [_ ->]. simpl.
    symmetry. apply list_alter_id, withArguments_nil.
  - apply bind_Returned in H as (u1 & g1 & Hbody & H).
    apply bind_Returned in Hbody as (argValue & gA & HA & Hbody).
    apply addArgument_Returned in HA as [_ ->].
    apply bind_Returned in Hbody as (id & gB & HB & Hbody).
    apply emitNamed_Returned in HB as (b1 & Hb1 & -> & ->).
    apply bind_Returned in Hbody as (u2 & gC & HC & Hbind).
    apply emit_Returned in HC as (b2 & Hb2 & ->).
    apply bindName_Returned in Hbind as (sc & Hsc & ->).
    rewrite (IH _ _ _ H). cbn [module setModule setScopes].
    change (Goory.functions (append b2 _ _)) with
      (alter (fun f => {| name := name f; returnType := returnType f;
                          arguments := arguments f ++ [(Llvm (Ast.paramType p), Ast.paramIdent p)];
                          entry := entry f |}) fn (Goory.functions (module g))).
    rewrite list_alter_alter_eq. apply list_alter_ext; [| done].
    intros f _. unfold withArguments. simpl. by rewrite <- app_assoc.
Qed.

Section IrgenGenerate.
Variable fip : bool.

Lemma prologue_module_functions node g fn g1 :
  prologue node g = Returned fn g1 ->
  functions g !! Ast.Name node = Some fn
  /\ Goory.functions (module g1)
     = alter (withArguments (parameterList node)) fn (Goory.functions (module g)).
Proof.
  intros H. unfold prologue, newScope in H.
  apply bind_Returned in H as (u0 & g2 & H0 & H). apply modify_Returned in H0 as ->.
  apply bind_Returned in H as (u1 & g3 & H0 & H). apply modify_Returned in H0 as ->.
  apply bind_Returned in H as (u2 & g4 & H0 & H). apply modify_Returned in H0 as ->.
  apply bind_Returned in H as (gg & g5 & H0 & H). apply get_Returned in H0 as [-> ->].
  cbn [functions module setCurrentScope setScopes setCurrentFunction] in H.
  apply bind_Returned in H as (function & g6 & Hfn & H).
  destruct (functions g !! Ast.Name node) as [fn0 |] eqn:Efn; [| done].
  apply pure_Returned in Hfn as [-> ->].
  apply bind_Returned in H as (ent & g7 & Hent & H).
  destruct (Goory.functions (module g) !! fn0) as [f0 |] eqn:Ef0; [| done].
  apply pure_Returned in Hent as [-> ->].
  apply bind_Returned in H as (u3 & g8 & H0 & H). apply modify_Returned in H0 as ->.
  apply bind_Returned in H as (u4 & g9 & Hbind & H).
  apply bindName_Returned in Hbind as (sc & Hsc & ->).
  apply bind_Returned in H as (u5 & g10 & H0 & H). apply modify_Returned in H0 as ->.
  apply bind_Returned in H as (u6 & g11 & Hloop & H).
  apply pure_Returned in H as [-> ->].
  apply parameters_functions in Hloop. split; [done |]. exact Hloop.
Qed.

Lemma body_Step (l : list Ast.Expression) g u g' :
  each (fun e => do _ <- expression fip e; pure tt) l g = Returned u g' -> Step g g'.
Proof.
  intros H. eapply each_Step; [| exact H]. apply Forall_forall.
  intros x _ gx ux gx' Hx. apply bind_Returned in Hx as (v & gy & Hx & Hp).
  apply pure_Returned in Hp as [_ ->]. by eapply expression_Step.
Qed.

Lemma function_module_functions node g u g' :
  function fip node g = Returned u g' ->
  exists fn,
    functions g !! Ast.Name node = Some fn
    /\ functions g' = functions g
    /\ Goory.functions (module g')
       = alter (withArguments (parameterList node)) fn (Goory.functions (module g)).
Proof.
  intros H. pose proof (function_functions fip _ _ _ _ H) as Ht.
  unfold function in H. apply bind_Returned in H as (fn & g1 & Hpro & Hbody).
  destruct (prologue_module_functions _ _ _ _ Hpro) as (Hfn & Hfs).
  apply body_Step in Hbody as [[F _ _ _ _ _] _ _ _ _ _].
  exists fn. split; [done | split; [done |]]. by rewrite F.
Qed.

(** The handles still without arguments, for the functions not yet lowered. *)
Lemma each_function_signatures (rest : list Ast.Function) :
  forall (ready : list Ast.Function) g u g',
    each (function fip) rest g = Returned u g' ->
    (forall k f, rest !! k = Some f -> functions g !! Ast.Name f = Some (length ready + k)) ->
    signatureOf <$> Goory.functions (module g)
    = (signature <$> ready)
      ++ ((fun f => (Ast.Name f, Llvm (Ast.ReturnType f), [])) <$> rest) ->
    signatureOf <$> Goory.functions (module g') = signature <$> (ready ++ rest).
Proof.
  induction rest as [| f rest IH]; intros ready g u g' H Htab Hsig; simpl in H.
  - apply pure_Returned in H as [_ ->]. by rewrite Hsig, !app_nil_r.
  - apply bind_Returned in H as (u1 & g1 & Hf & H).
    destruct (function_module_functions _ _ _ _ Hf) as (fn & Hfn & Ht & Hfs).
    rewrite (Htab 0 f eq_refl) in Hfn. injection Hfn as <-.
    replace (ready ++ f :: rest) with ((ready ++ [f]) ++ rest) by (by rewrite <- app_assoc).
    apply (IH (ready ++ [f]) g1 u g' H).
    + intros k x Hx. rewrite Ht, (Htab (S k) x Hx), length_app. simpl. f_equal. lia.
    + rewrite Hfs.
      rewrite (list_fmap_alter signatureOf _
                 (fun s => (s.1.1, s.1.2, s.2 ++ parameterList f))).
      2:{ apply Forall_forall. intros x _. done. }
      rewrite Hsig, Nat.add_0_r.
      rewrite alter_app_r_alt by (by rewrite length_fmap).
      rewrite length_fmap, Nat.sub_diag. simpl.
      rewrite fmap_app. simpl. by rewrite <- app_assoc.
Qed.

End IrgenGenerate.

(** The state [NewIrgen] builds: one handle per function of the AST, in
    order, without arguments; every block empty. *)
Lemma NewIrgen_shape (ast : Ast.Ast) :
  signatureOf <$> Goory.functions (module (NewIrgen ast))
  = (fun f => (Ast.Name f, Llvm (Ast.ReturnType f), [])) <$> Ast.Functions ast
  /\ Forall (fun blk => instrs blk = []) (blocks (module (NewIrgen ast)))
  /\ (NoDup (Ast.Name <$> Ast.Functions ast) ->
      forall k f, Ast.Functions ast !! k = Some f ->
        functions (NewIrgen ast) !! Ast.Name f = Some k)
  /\ root (NewIrgen ast) = ast.
Proof.
  unfold NewIrgen. cbn [functions module root setScopes].
  set (step := fun (g : Irgen) (f : Ast.Function) =>
                 let '(function, m) :=
                   NewFunction (Ast.Name f) (Llvm (Ast.ReturnType f)) (module g) in
                 setFunctions (<[Ast.Name f := function]> (functions g)) (setModule m g)).
  set (g0 := {| root := ast; currentFunction := None; functions := ∅; scopes := [];
                currentScope := 0; module := NewModule "furlang"; block := None |}).
  assert (Inv : forall l g,
            signatureOf <$> Goory.functions (module (fold_left step l g))
            = (signatureOf <$> Goory.functions (module g))
              ++ ((fun f => (Ast.Name f, Llvm (Ast.ReturnType f), [])) <$> l)
            /\ (Forall (fun blk => instrs blk = []) (blocks (module g)) ->
                Forall (fun blk => instrs blk = []) (blocks (module (fold_left step l g))))
            /\ (forall n, n ∉ Ast.Name <$> l ->
                  functions (fold_left step l g) !! n = functions g !! n)
            /\ (NoDup (Ast.Name <$> l) ->
                forall k f, l !! k = Some f ->
                  functions (fold_left step l g) !! Ast.Name f
                  = Some (length (Goory.functions (module g)) + k))
            /\ root (fold_left step l g) = root g).
  { induction l as [| x l IH]; intros g; simpl.
    - rewrite app_nil_r. repeat split; try done.
    - destruct (IH (step g x)) as (I1 & I2 & I3 & I4 & I5).
      assert (Hfs : Goory.functions (module (step g x))
                    = Goory.functions (module g)
                      ++ [{| name := Ast.Name x; returnType := Llvm (Ast.ReturnType x);
                             arguments := []; entry := length (blocks (module g)) |}])
        by reflexivity.
      assert (Hbs : blocks (module (step g x))
                    = blocks (module g)
                      ++ [{| owner := length (Goory.functions (module g)); instrs := [] |}])
        by reflexivity.
      assert (Htab : functions (step g x)
                     = <[Ast.Name x := length (Goory.functions (module g))]> (functions g))
        by reflexivity.
      split; [| split; [| split; [| split; [| exact I5]]]].
      + rewrite I1, Hfs, fmap_app. simpl. by rewrite <- app_assoc.
      + intros Hall. apply I2. rewrite Hbs. apply Forall_app. split; [done |].
        by constructor.
      + intros n Hn. apply not_elem_of_cons in Hn as [Hne Hn].
        rewrite (I3 n Hn), Htab. by rewrite lookup_insert_ne.
      + intros Hnd k f Hk. apply NoDup_cons in Hnd as [Hx Hnd].
        destruct k as [| k]; simpl in Hk.
        * injection Hk as <-. rewrite (I3 _ Hx), Htab, lookup_insert_eq. f_equal. lia.
        * rewrite (I4 Hnd k f Hk), Hfs, length_app. simpl. f_equal. lia. }
  destruct (Inv (Ast.Functions ast) g0) as (I1 & I2 & _ & I4 & I5).
  split; [by rewrite I1 | split; [by apply I2 | split; [| exact I5]]].
  intros Hnd k f Hk. by rewrite (I4 Hnd k f Hk).
Qed.

(** X12.  [NewIrgen] followed by [Generate], in src/irgen/irgen.go, for an
    AST whose functions have pairwise different names: when [Generate]
    returns, the functions of the module are those of the AST, one for one
    and in the order of the AST, each with the name, the return type and the
    parameters, with their types and names in order, that the AST gives it.
    Lowering the bodies adds no function and no argument. *)
Theorem X12_generate_keeps_the_signatures :
  forall fip ast m g',
    NoDup (map Ast.Name (Ast.Functions ast)) ->
    Generate fip (NewIrgen ast) = Returned m g' ->
    map signatureOf (Goory.functions m) = map signature (Ast.Functions ast).
Proof.
  intros fip ast m g' Hnd H. unfold Generate in H.
  apply bind_Returned in H as (gg & g1 & H0 & H). apply get_Returned in H0 as [-> ->].
  apply bind_Returned in H as (u & g2 & Heach & H).
  apply bind_Returned in H as (gg & g3 & H0 & H). apply get_Returned in H0 as [-> ->].
  apply pure_Returned in H as [-> ->].
  destruct (NewIrgen_shape ast) as (Hsig & _ & Htab & Hroot).
  rewrite Hroot in Heach.
  apply (each_function_signatures fip (Ast.Functions ast) [] _ _ _ Heach).
  - intros k f Hk. by apply Htab.
  - exact Hsig.
Qed.

(** X12 at [proc identity(n i64) -> i64 { return n }]. *)
Lemma X12_witness :
  map signatureOf
    (Goory.functions (module (Examples.stateAfter (Generate false)
                                (NewIrgen Examples.identityProgram))))
  = [("identity", Llvm Examples.i64, [(Llvm Examples.i64, "n")])].
Proof.
  apply (X12_generate_keeps_the_signatures false Examples.identityProgram
           (module (Examples.stateAfter (Generate false) (NewIrgen Examples.identityProgram)))
           (Examples.stateAfter (Generate false) (NewIrgen Examples.identityProgram))).
  - apply NoDup_singleton.
  - vm_compute. reflexivity.
Defined.

Lemma closed_instrsOf m :
  closed m <-> forall b, Forall (targetsIn 0 (nblocks m)) (instrsOf b m).
Proof.
  unfold closed, instrsOf. split.
  - intros H b. destruct (blocks m !! b) as [blk |] eqn:E; simpl; [by eapply H | constructor].
  - intros H b blk Hb. specialize (H b). by rewrite Hb in H.
Qed.

Lemma paramSlots_targets lo hi fn t a tys :
  Forall (targetsIn lo hi) (paramSlots fn t a tys).
Proof.
  revert t a. induction tys as [| ty tys IH]; intros t a; simpl; [constructor |].
  constructor; [constructor |]. constructor; [constructor | apply IH].
Qed.

Lemma entriesValid_alter (f : Goory.Function -> Goory.Function) fn m m' :
  (forall x, entry (f x) = entry x) ->
  Goory.functions m' = alter f fn (Goory.functions m) ->
  nblocks m <= nblocks m' ->
  entriesValid m -> entriesValid m'.
Proof.
  intros Hf Hfs Hn Hv i x Hx. rewrite Hfs in Hx. unfold nblocks in Hn.
  destruct (decide (fn = i)) as [-> | Hne].
  - rewrite list_lookup_alter_eq in Hx.
    destruct (Goory.functions m !! i) as [y |] eqn:Ey; [| done].
    injection Hx as <-. rewrite Hf. specialize (Hv i y Ey). lia.
  - rewrite list_lookup_alter_ne in Hx by done. specialize (Hv i x Hx). lia.
Qed.

Section IrgenClosed.
Variable fip : bool.

Lemma function_closed node g u g' :
  entriesValid (module g) -> closed (module g) ->
  function fip node g = Returned u g' ->
  entriesValid (module g') /\ closed (module g').
Proof.
  intros Hv Hc H. unfold function in H.
  apply bind_Returned in H as (fn & g1 & Hpro & Hbody).
  destruct (prologue_module_functions _ _ _ _ Hpro) as (_ & Hfs).
  destruct (prologue_run _ _ _ _ Hv Hpro)
    as (f0 & _ & _ & _ & Hent & Hn1 & _ & Hins & Hother & _).
  assert (Hv1 : entriesValid (module g1)).
  { eapply entriesValid_alter; [| exact Hfs | lia | exact Hv]. done. }
  assert (Hc1 : closed (module g1)).
  { apply closed_instrsOf. intros b. rewrite Hn1.
    apply closed_instrsOf with (b := b) in Hc as Hb.
    destruct (decide (b = entry f0)) as [-> | Hne].
    - rewrite Hins. apply Forall_app. split; [done | apply paramSlots_targets].
    - by rewrite Hother. }
  pose proof (body_Step fip _ _ _ _ Hbody) as HS.
  split; [| by eapply Step_closed].
  destruct HS as [[F _ N _ _ _] _ _ _ _ _].
  intros i x Hx. rewrite F in Hx. specialize (Hv1 i x Hx). unfold nblocks in N. lia.
Qed.

Lemma each_function_closed (l : list Ast.Function) :
  forall g u g',
    entriesValid (module g) -> closed (module g) ->
    each (function fip) l g = Returned u g' ->
    entriesValid (module g') /\ closed (module g').
Proof.
  induction l as [| f l IH]; intros g u g' Hv Hc H; simpl in H.
  - by apply pure_Returned in H as [_ ->].
  - apply bind_Returned in H as (u1 & g1 & Hf & H).
    destruct (function_closed _ _ _ _ Hv Hc Hf) as [Hv1 Hc1]. by eapply IH.
Qed.

End IrgenClosed.

(** X13.  The module that [NewIrgen] followed by [Generate] returns, in
    src/irgen/irgen.go, has no dangling reference to a block: every branch
    and conditional branch the lowerer emitted goes to a block of the module,
    and the entry block of every function is a block of the module. *)
Theorem X13_generate_branches_to_blocks_of_the_module :
  forall fip ast m g',
    Generate fip (NewIrgen ast) = Returned m g' ->
    closed m /\ entriesValid m.
Proof.
  intros fip ast m g' H. unfold Generate in H.
  apply bind_Returned in H as (gg & g1 & H0 & H). apply get_Returned in H0 as [-> ->].
  apply bind_Returned in H as (u & g2 & Heach & H).
  apply bind_Returned in H as (gg & g3 & H0 & H). apply get_Returned in H0 as [-> ->].
  apply pure_Returned in H as [-> ->].
  destruct (NewIrgen_shape ast) as (_ & Hempty & _ & _).
  apply each_function_closed in Heach as [Hv Hc]; [done | apply NewIrgen_entriesValid |].
  intros b blk Hb. rewrite Forall_forall in Hempty.
  rewrite (Hempty blk); [constructor |]. by eapply list_elem_of_lookup_2.
Qed.

(** X13 at a function whose body is the counting loop. *)
Lemma X13_witness :
  closed (module (Examples.stateAfter (Generate false)
                    (NewIrgen (Ast.mkAst [Ast.mkFunction "main" [] Examples.i64
                                            [Examples.countLoop]])))).
Proof.
  apply (X13_generate_branches_to_blocks_of_the_module false
           (Ast.mkAst [Ast.mkFunction "main" [] Examples.i64 [Examples.countLoop]])
           (module (Examples.stateAfter (Generate false)
                      (NewIrgen (Ast.mkAst [Ast.mkFunction "main" [] Examples.i64
                                              [Examples.countLoop]]))))
           (Examples.stateAfter (Generate false)
              (NewIrgen (Ast.mkAst [Ast.mkFunction "main" [] Examples.i64
                                      [Examples.countLoop]])))).
  vm_compute. reflexivity.
Defined.

(** * Beyond the claims: array lists, array elements, calls *)

(** X14.  [array] of src/irgen/irgen.go at its edges, when the scope index
    is a frame of the lowerer.  An empty list is lowered to nothing: the call
    returns nil and leaves the state as it was, whether or not the name is
    bound and whatever the type is, since the name's slot and the element
    type are only asked for inside the loop.  With at least one element, a
    type that is not an array type makes the first iteration panic on the
    type assertion, and, the type being an array type, a name bound in no
    frame makes it panic on the pointer assertion; in both cases before any
    element is lowered. *)
Theorem X14_array_list_edges :
  forall fip Name Type_ g,
    currentScope g < length (scopes g) ->
    expression fip (Ast.ArrayList Name Type_ []) g = Returned None g
    /\ (forall e rest,
          Types.asArray Type_ = None ->
          expression fip (Ast.ArrayList Name Type_ (e :: rest)) g
          = Panicked InterfaceWrongType)
    /\ (forall e rest,
          Types.asArray Type_ <> None ->
          unbound (scopes g) (currentScope g) Name ->
          expression fip (Ast.ArrayList Name Type_ (e :: rest)) g
          = Panicked InterfaceIsNil).
Proof.
  intros fip Name Type_ g Hlt.
  destruct (findFrom_in_range (scopes g) Name (currentScope g) Hlt) as [r Hr].
  split; [| split].
  - cbn [expression]. unfold array_, bind, find. rewrite Hr. reflexivity.
  - intros e rest Ht. cbn [expression]. unfold array_, bind, find. rewrite Hr.
    cbn [eachFrom]. unfold bind. by rewrite Ht.
  - intros e rest Ht Hun. cbn [expression]. unfold array_, bind, find.
    assert (Hf : findFrom (scopes g) Name (currentScope g) = Some None)
      by (by apply findFrom_unbound).
    rewrite Hf. cbn [eachFrom]. unfold bind.
    destruct (Types.asArray Type_); [reflexivity | done].
Qed.

(** X14 in the body of [main], where [a] is bound nowhere. *)
Lemma X14_witness :
  expression false (Ast.ArrayList "a" Examples.arrayType []) (Examples.inMain false)
  = Returned None (Examples.inMain false)
  /\ expression false (Ast.ArrayList "a" Examples.arrayType Examples.arrayElements)
       (Examples.inMain false)
     = Panicked InterfaceIsNil.
Proof.
  destruct (X14_array_list_edges false "a" Examples.arrayType (Examples.inMain false))
    as (H1 & _ & H3).
  - vm_compute. lia.
  - split; [exact H1 |]. apply H3; [done |].
    intros i sc Hi Hsc. vm_compute in Hi.
    destruct i as [| [| i]]; [| | lia].
    + vm_compute in Hsc. injection Hsc as <-. reflexivity.
    + vm_compute in Hsc. injection Hsc as <-. reflexivity.
Defined.

(** X24.  [arrayValue] of src/irgen/irgen.go.  The array is looked up and
    loaded as a whole before the index is lowered: a name bound in no frame
    ends the lowering in the panic of the pointer assertion whatever the
    index is, and otherwise the block current at entry receives the load of
    the slot, the index is lowered after it, and the block current after the
    index receives the extraction of the element from the loaded value, whose
    result the expression yields. *)
Theorem X24_array_element_loads_the_array_first :
  forall fip Array Index g,
    currentScope g < length (scopes g) ->
    (unbound (scopes g) (currentScope g) Array ->
     expression fip (Ast.ArrayValue Array Index) g = Panicked InterfaceIsNil)
    /\ (forall v g',
          expression fip (Ast.ArrayValue Array Index) g = Returned v g' ->
          exists slot b index g1 b1,
            find Array g = Returned (Some slot) g
            /\ block g = Some b
            /\ expression fip Index
                 (setModule (appendNamed b (fun id => Load id slot) (module g)).2 g)
               = Returned index g1
            /\ block g1 = Some b1
            /\ v = Some (Temp (temps (module g1)))
            /\ g' = setModule
                      (appendNamed b1
                         (fun id => Extractvalue id (Temp (temps (module g))) index)
                         (module g1)).2 g1).
Proof.
  intros fip Array Index g Hlt. split.
  - intros Hun. cbn [expression]. unfold arrayValue_, bind, find.
    assert (Hf : findFrom (scopes g) Array (currentScope g) = Some None)
      by (by apply findFrom_unbound).
    by rewrite Hf.
  - intros v g' H. cbn [expression] in H. unfold arrayValue_ in H.
    apply bind_Returned in H as (alloc & g0 & Hfind & H).
    assert (Hfind' := Hfind). apply find_Returned in Hfind' as [-> _].
    apply bind_Returned in H as (p & g2 & Hp & H).
    apply asPointer_Returned in Hp as [-> ->].
    apply bind_Returned in H as (arr & g3 & Hl & H).
    apply emitNamed_Returned in Hl as (b & Hb & -> & ->).
    apply bind_Returned in H as (index & g1 & Hi & H).
    apply bind_Returned in H as (id & g4 & Hx & H). apply pure_Returned in H as [-> ->].
    apply emitNamed_Returned in Hx as (b1 & Hb1 & -> & ->).
    exists p, b, index, g1, b1. done.
Qed.

(** X24 in the body of [main], where [a] is bound nowhere. *)
Lemma X24_witness :
  expression false (Ast.ArrayValue "a" (Ast.Integer 0)) (Examples.inMain false)
  = Panicked InterfaceIsNil.
Proof.
  apply (X24_array_element_loads_the_array_first false "a" (Ast.Integer 0)
           (Examples.inMain false)).
  - vm_compute. lia.
  - intros i sc Hi Hsc. vm_compute in Hi.
    destruct i as [| [| i]]; [| | lia].
    + vm_compute in Hsc. injection Hsc as <-. reflexivity.
    + vm_compute in Hsc. injection Hsc as <-. reflexivity.
Defined.

(** * Beyond the claims: the statement-oriented lowerer *)

Lemma instrsOf_append_cases b b' i m :
  instrsOf b' (append b i m)
  = instrsOf b' m ++ (if decide (b' = b /\ b < nblocks m) then [i] else []).
Proof.
  destruct (decide (b' = b /\ b < nblocks m)) as [[-> Hlt] | Hn].
  - by apply instrsOf_append_eq.
  - rewrite app_nil_r. destruct (decide (b = b')) as [<- | Hne].
    + assert (Hge : nblocks m <= b) by lia.
      unfold instrsOf, append. simpl. rewrite list_lookup_alter_eq.
      unfold nblocks in Hge. by rewrite lookup_ge_None_2 by lia.
    + by apply instrsOf_append_ne.
Qed.

Module StmtStraight.
Import IrgenStmt StmtStep StmtSteps Construct.

Section Stmt.
Variable Sc : ScopeImpl.

Lemma straight_refl (g : Irgen Sc) : straight g g.
Proof.
  repeat (split; [done |]). intros b. exists []. by rewrite app_nil_r.
Qed.

Lemma straight_trans (g0 g1 g2 : Irgen Sc) : straight g0 g1 -> straight g1 g2 -> straight g0 g2.
Proof.
  intros (P1 & S1 & T1 & F1 & N1 & C1 & I1) (P2 & S2 & T2 & F2 & N2 & C2 & I2).
  repeat (split; [congruence || lia |]).
  intros b. destruct (I1 b) as (s1 & E1 & A1 & O1). destruct (I2 b) as (s2 & E2 & A2 & O2).
  exists (s1 ++ s2). split; [by rewrite E2, E1, <- app_assoc | split].
  - by apply Forall_app.
  - intros Hb. rewrite (O1 Hb), (O2 ltac:(by rewrite P1)). done.
Qed.

Lemma straight_emitNamed mk (g : Irgen Sc) id g' :
  emitNamed Sc mk g = Returned id g' ->
  (forall n, isTerminator (mk n) = false) ->
  straight g g' /\ id = temps (module Sc g).
Proof.
  intros H Hmk. apply stmt_emitNamed_Returned in H as (b & Hb & -> & ->).
  split; [| done]. unfold straight. cbn [module parentBlock scope tree setModule].
  repeat (split; [done |]).
  split; [apply nblocks_appendNamed |]. split; [rewrite temps_appendNamed; lia |].
  intros b'. eexists. split; [apply (instrsOf_append_cases b b' (mk (temps (module Sc g)))) |].
  destruct (decide (b' = b /\ b < nblocks (module Sc g))) as [[-> _] | Hn].
  - split; [by repeat constructor |]. by rewrite Hb.
  - split; [constructor | done].
Qed.

Lemma binaryExp_not_terminator f o l r mk :
  binaryInstr f o l r = Some mk -> forall n, isTerminator (mk n) = false.
Proof. destruct f, o; simpl; intros [= <-]; done. Qed.

Lemma collect_straight {A B} (f : A -> M (Irgen Sc) B) (l : list A) :
  Forall (fun x => forall g u g', f x g = Returned u g' -> straight g g') l ->
  forall g u g', collect f l g = Returned u g' -> straight g g'.
Proof.
  induction 1 as [| x l Hx Hl IH]; intros g u g' H; simpl in H.
  - apply pure_Returned in H as [_ ->]. apply straight_refl.
  - apply bind_Returned in H as (y & g1 & H1 & H).
    apply bind_Returned in H as (ys & g2 & H2 & H).
    apply pure_Returned in H as [_ ->].
    eapply straight_trans; [by eapply Hx | by eapply IH].
Qed.

Lemma expression_straight e :
  forall g v g', expression Sc e g = Returned v g' -> straight g g' /\ is_Some v.
Proof.
  induction e as [| L IHL R IHR op f | t e IH | v | v | fn IHfn args IHargs |]
    using Ast2.Expression_ind; intros g v0 g' H; cbn [expression] in H.
  - done.
  - apply bind_Returned in H as (l & g1 & H1 & H).
    apply bind_Returned in H as (r & g2 & H2 & H).
    destruct (IHL _ _ _ H1) as [E1 _]. destruct (IHR _ _ _ H2) as [E2 _].
    destruct (binaryInstr f (Lexer.tokenType op) l r) as [mk |] eqn:Emk; [| done].
    apply bind_Returned in H as (id & g3 & H3 & H). apply pure_Returned in H as [-> ->].
    split; [| eauto].
    eapply straight_trans; [by eapply straight_trans |].
    eapply straight_emitNamed; [exact H3 | by eapply binaryExp_not_terminator].
  - apply bind_Returned in H as (x & g1 & H1 & H).
    apply bind_Returned in H as (id & g2 & H2 & H). apply pure_Returned in H as [-> ->].
    destruct (IH _ _ _ H1) as [E1 _]. split; [| eauto].
    eapply straight_trans; [exact E1 |]. by eapply straight_emitNamed.
  - unfold literalExp in H. destruct (Lexer.tokenType v); try done;
      apply pure_Returned in H as [-> ->]; (split; [apply straight_refl | eauto]).
  - unfold identExp in H.
    destruct (String.eqb _ "true");
      [apply pure_Returned in H as [-> ->]; split; [apply straight_refl | eauto] |].
    destruct (String.eqb _ "false");
      [apply pure_Returned in H as [-> ->]; split; [apply straight_refl | eauto] |].
    apply bind_Returned in H as (gg & g1 & H0 & H). apply get_Returned in H0 as [-> ->].
    destruct (GetVar Sc _ _) as [item |]; [| done].
    apply bind_Returned in H as (id & g2 & H2 & H). apply pure_Returned in H as [-> ->].
    split; [| eauto]. by eapply straight_emitNamed.
  - apply bind_Returned in H as (name & g1 & H1 & H).
    assert (g1 = g) as ->.
    { destruct fn; try done; by apply pure_Returned in H1 as [_ ->]. }
    apply bind_Returned in H as (gg & g2 & H0 & H). apply get_Returned in H0 as [-> ->].
    apply bind_Returned in H as (ops & g3 & H3 & H).
    apply bind_Returned in H as (id & g4 & H4 & H). apply pure_Returned in H as [-> ->].
    apply list_all_Forall in IHargs. split; [| eauto].
    eapply straight_trans.
    + eapply collect_straight; [| exact H3].
      eapply Forall_impl; [exact IHargs |]. intros x Hx gx ux gx' Hrun. by eapply Hx.
    + by eapply straight_emitNamed.
  - done.
Qed.

End Stmt.
End StmtStraight.

(** X16.  [expression] of src/unnamed/part_001, with [binaryExp],
    [castExp], [literalExp], [identExp] and [callExp] behind it, emits
    straight-line code: when it returns it has yielded a value, never nil; the
    parent block, the scope, the functions of the module and the number of
    blocks are what they were; and the blocks differ at most in the parent
    block, which received instructions none of which is a branch or a
    return.  (In src/irgen/irgen.go an expression can create blocks and move
    the current block.) *)
Theorem X16_statement_lowerer_expressions_are_straight_line :
  forall Sc e (g : IrgenStmt.Irgen Sc) v g',
    IrgenStmt.expression Sc e g = Returned v g' ->
    Construct.straight g g' /\ is_Some v.
Proof. intros Sc e g v g' H. by eapply StmtStraight.expression_straight. Qed.

(** X16 at [1 + 2] in the body of [main]. *)
Lemma X16_witness :
  Construct.straight Examples.inMain2
    (Examples.stateAfter
       (IrgenStmt.expression SpecScope.impl
          (Ast2.BinaryExpression
             (Ast2.LiteralExpression (Examples.tok Lexer.INT "1"))
             (Ast2.LiteralExpression (Examples.tok Lexer.INT "2"))
             (Examples.tok Lexer.ADD "+") false))
       Examples.inMain2).
Proof.
  apply (X16_statement_lowerer_expressions_are_straight_line SpecScope.impl
           (Ast2.BinaryExpression
              (Ast2.LiteralExpression (Examples.tok Lexer.INT "1"))
              (Ast2.LiteralExpression (Examples.tok Lexer.INT "2"))
              (Examples.tok Lexer.ADD "+") false)
           Examples.inMain2 (Some (Temp 0))).
  vm_compute. reflexivity.
Defined.

(** ** Statements never take back what was emitted *)

Lemma instrsOf_AddBlock_any b0 m b : instrsOf b (AddBlock b0 m).2 = instrsOf b m.
Proof.
  unfold instrsOf. simpl. destruct (decide (b < length (blocks m))) as [Hlt | Hge].
  - by rewrite lookup_app_l.
  - rewrite lookup_app_r by lia. rewrite (lookup_ge_None_2 (blocks m) b) by lia.
    by destruct (b - length (blocks m)) as [| [| k]].
Qed.

Module StmtPrefix.
Import IrgenStmt StmtStep StmtSteps StmtStraight Construct.

Section Stmt.
Variable Sc : ScopeImpl.

Lemma prefixes_refl m : prefixes m m.
Proof. split; [done |]. intros b. exists []. by rewrite app_nil_r. Qed.

Lemma prefixes_trans m0 m1 m2 : prefixes m0 m1 -> prefixes m1 m2 -> prefixes m0 m2.
Proof.
  intros [N1 I1] [N2 I2]. split; [lia |]. intros b.
  destruct (I1 b) as (s1 & E1). destruct (I2 b) as (s2 & E2).
  exists (s1 ++ s2). by rewrite E2, E1, <- app_assoc.
Qed.

Lemma prefixes_append b i m : prefixes m (append b i m).
Proof.
  split; [by rewrite nblocks_append |]. intros b'. eexists. apply instrsOf_append_cases.
Qed.

Lemma prefixes_AddBlock b m : prefixes m (AddBlock b m).2.
Proof.
  split; [rewrite AddBlock_nblocks; lia |]. intros b'. exists [].
  by rewrite app_nil_r, instrsOf_AddBlock_any.
Qed.

Lemma straight_prefixes (g g' : Irgen Sc) : straight g g' -> prefixes (module Sc g) (module Sc g').
Proof.
  intros (_ & _ & _ & _ & N & _ & I). split; [lia |]. intros b.
  destruct (I b) as (s & E & _). eauto.
Qed.

Lemma expression_prefixes e (g : Irgen Sc) v g' :
  expression Sc e g = Returned v g' -> prefixes (module Sc g) (module Sc g').
Proof. intros H. apply straight_prefixes. by eapply expression_straight. Qed.

Lemma emit_prefixes i (g : Irgen Sc) u g' :
  emit Sc i g = Returned u g' -> prefixes (module Sc g) (module Sc g').
Proof. intros H. apply stmt_emit_Returned in H as (b & _ & ->). apply prefixes_append. Qed.

Lemma emitNamed_prefixes mk (g : Irgen Sc) id g' :
  emitNamed Sc mk g = Returned id g' -> prefixes (module Sc g) (module Sc g').
Proof.
  intros H. apply stmt_emitNamed_Returned in H as (b & _ & _ & ->).
  apply (prefixes_append b (mk (temps (module Sc g)))).
Qed.

Lemma addBlock_prefixes (g : Irgen Sc) n g' :
  addBlock Sc g = Returned n g' -> prefixes (module Sc g) (module Sc g').
Proof. intros H. apply stmt_addBlock_Returned in H as (b & _ & _ & ->). apply prefixes_AddBlock. Qed.

Lemma each_prefixes {A} (f : A -> M (Irgen Sc) unit) (l : list A) :
  Forall (fun x => forall g u g', f x g = Returned u g' ->
            prefixes (module Sc g) (module Sc g')) l ->
  forall g u g', each f l g = Returned u g' -> prefixes (module Sc g) (module Sc g').
Proof.
  induction 1 as [| x l Hx Hl IH]; intros g u g' H; simpl in H.
  - apply pure_Returned in H as [_ ->]. apply prefixes_refl.
  - apply bind_Returned in H as (u1 & g1 & H1 & H).
    eapply prefixes_trans; [by eapply Hx | by eapply IH].
Qed.

Theorem statement_prefixes :
  (forall s (g : Irgen Sc) u g',
     statement Sc s g = Returned u g' -> prefixes (module Sc g) (module Sc g'))
  /\
  (forall n (g : Irgen Sc) blk endBlock u g',
     ifSmt Sc n blk endBlock g = Returned u g' -> prefixes (module Sc g) (module Sc g')).
Proof.
  apply Ast2.Statement_IfStatment_mut.
  - (* if *) intros n IH g u g' H. cbn [statement] in H.
    apply bind_Returned in H as (endBlock & g1 & H1 & H).
    eapply prefixes_trans; [by eapply addBlock_prefixes | by eapply IH].
  - (* return *) intros r g u g' H. cbn [statement] in H. unfold returnSmt in H.
    apply bind_Returned in H as (exp & g1 & H1 & H).
    eapply prefixes_trans; [by eapply expression_prefixes | by eapply emit_prefixes].
  - (* declare *) intros d g u g' H. cbn [statement] in H. unfold declareSmt in H.
    destruct d as [Name Type_ Value_ |]; [| done].
    apply bind_Returned in H as (exp & g1 & H1 & H).
    apply bind_Returned in H as (id & g2 & H2 & H).
    apply bind_Returned in H as (u1 & g3 & H3 & H).
    apply modify_Returned in H as ->. cbn [module setScope].
    eapply prefixes_trans; [by eapply expression_prefixes |].
    eapply prefixes_trans; [by eapply emitNamed_prefixes | by eapply emit_prefixes].
  - (* assignment *) intros L R g u g' H. cbn [statement] in H. unfold assignmentSmt in H.
    apply bind_Returned in H as (name & g1 & H1 & H).
    assert (g1 = g) as ->.
    { destruct L; try done; by apply pure_Returned in H1 as [_ ->]. }
    apply bind_Returned in H as (exp & g2 & H2 & H).
    apply bind_Returned in H as (gg & g3 & H0 & H). apply get_Returned in H0 as [-> ->].
    destruct (GetVar Sc name (scope Sc g2)) as [alloc |]; [| done].
    apply bind_Returned in H as (u1 & g3 & H3 & H).
    apply modify_Returned in H as ->. cbn [module setScope].
    eapply prefixes_trans; [by eapply expression_prefixes | by eapply emit_prefixes].
  - (* other *) intros g u g' H. cbn [statement] in H. apply pure_Returned in H as [_ ->].
    apply prefixes_refl.
  - (* ifSmt *) intros c body IHbody els IHels g blk endBlock u g' H.
    cbn [ifSmt] in H.
    apply bind_Returned in H as (gg & gx & H0 & H). apply get_Returned in H0 as [-> ->].
    apply bind_Returned in H as (block & g1 & Hblock & H).
    assert (P1 : prefixes (module Sc g) (module Sc g1)).
    { destruct blk; [apply pure_Returned in Hblock as [_ ->]; apply prefixes_refl |].
      by eapply addBlock_prefixes. }
    apply bind_Returned in H as (falseBlock & g2 & Hfalse & H).
    assert (P2 : prefixes (module Sc g1) (module Sc g2)).
    { destruct els; [by eapply addBlock_prefixes |].
      apply pure_Returned in Hfalse as [_ ->]. apply prefixes_refl. }
    apply bind_Returned in H as (u1 & g3 & H3 & H). apply modify_Returned in H3 as ->.
    apply bind_Returned in H as (u2 & g4 & Hbody & H).
    unfold block_ in Hbody.
    apply bind_Returned in Hbody as (u3 & g5 & H5 & Hbody). apply modify_Returned in H5 as ->.
    apply list_all_Forall in IHbody.
    pose proof (each_prefixes _ _ IHbody _ _ _ Hbody) as P4.
    cbn [module setScope setParentBlock] in P4.
    apply bind_Returned in H as (t & g6 & Ht & H). injection Ht as Ht1 Ht2. subst t g6.
    apply bind_Returned in H as (u4 & g7 & Hclose & H).
    assert (P7 : prefixes (module Sc g4) (module Sc g7)).
    { destruct (Terminated block (module Sc g4)).
      - apply pure_Returned in Hclose as [_ ->]. apply prefixes_refl.
      - injection Hclose as Hclose. subst g7. apply prefixes_append. }
    apply bind_Returned in H as (u5 & g8 & Hcond & H).
    assert (P8 : prefixes (module Sc g7) (module Sc g8)).
    { destruct (Ast2.isNil c).
      - apply pure_Returned in Hcond as [_ ->]. apply prefixes_refl.
      - apply bind_Returned in Hcond as (u6 & g9 & H9 & Hcond). apply modify_Returned in H9 as ->.
        apply bind_Returned in Hcond as (cond & g10 & H10 & Hcond).
        apply bind_Returned in Hcond as (p & g11 & H11 & Hcond).
        assert (g11 = g10) as ->.
        { destruct (parentBlock Sc g); [by injection H11 as -> -> | done]. }
        injection Hcond as Hcond. subst g8. cbn [module setModule].
        eapply prefixes_trans; [| apply prefixes_append].
        apply (expression_prefixes _ _ _ _ H10). }
    apply bind_Returned in H as (u7 & g12 & H12 & H). apply modify_Returned in H12 as ->.
    apply bind_Returned in H as (u8 & g13 & Helse & H).
    apply modify_Returned in H as ->. cbn [module setParentBlock].
    assert (P13 : prefixes (module Sc g8) (module Sc g13)).
    { destruct IHels as [els IHel |].
      - apply (IHel _ _ _ _ _ Helse).
      - apply pure_Returned in Helse as [_ ->]. apply prefixes_refl. }
    repeat (eapply prefixes_trans; [eassumption |]). apply prefixes_refl.
Qed.

End Stmt.
End StmtPrefix.

(** X17.  [statement] of src/unnamed/part_001, with [ifSmt], [returnSmt],
    [declareSmt] and [assignmentSmt] behind it: whatever statement is
    lowered, the functions of the module are unchanged, no block is removed,
    every block that existed keeps its owner and its instructions as a prefix
    of what it holds afterwards, and only the block that was the parent block
    can have received more; what was added anywhere branches only to blocks
    created during the call; the parent block afterwards is the one it was or
    a block created during the call. *)
Theorem X17_statements_only_append :
  forall Sc s (g : IrgenStmt.Irgen Sc) u g',
    IrgenStmt.statement Sc s g = Returned u g' ->
    Goory.functions (IrgenStmt.module Sc g') = Goory.functions (IrgenStmt.module Sc g)
    /\ nblocks (IrgenStmt.module Sc g) <= nblocks (IrgenStmt.module Sc g')
    /\ (forall b blk, blocks (IrgenStmt.module Sc g) !! b = Some blk ->
          exists suffix,
            blocks (IrgenStmt.module Sc g') !! b
            = Some (mkBlock (owner blk) (instrs blk ++ suffix))
            /\ (IrgenStmt.parentBlock Sc g <> Some b -> suffix = [])
            /\ Forall (targetsIn (nblocks (IrgenStmt.module Sc g))
                                 (nblocks (IrgenStmt.module Sc g'))) suffix)
    /\ (forall b blk, nblocks (IrgenStmt.module Sc g) <= b ->
          blocks (IrgenStmt.module Sc g') !! b = Some blk ->
          Forall (targetsIn (nblocks (IrgenStmt.module Sc g))
                            (nblocks (IrgenStmt.module Sc g'))) (instrs blk))
    /\ (IrgenStmt.parentBlock Sc g' = IrgenStmt.parentBlock Sc g
        \/ exists b', IrgenStmt.parentBlock Sc g' = Some b'
                      /\ nblocks (IrgenStmt.module Sc g) <= b'
                         < nblocks (IrgenStmt.module Sc g')).
Proof.
  intros Sc s g u g' H.
  destruct (proj1 (StmtSteps.statement_Grows Sc) s g g u g' (StmtSteps.Grows_refl Sc g) H)
    as [[F T N C O W] _].
  done.
Qed.

(** X17 at [if true { let x = 7 }] in the body of [main]. *)
Lemma X17_witness :
  nblocks (IrgenStmt.module SpecScope.impl Examples.inMain2)
  <= nblocks (IrgenStmt.module SpecScope.impl
                (Examples.stateAfter
                   (IrgenStmt.statement SpecScope.impl
                      (Ast2.IfStatment_
                         (Ast2.mkIfStatment
                            (Ast2.IdentExpression (Examples.tok Lexer.IDENT "true"))
                            [Ast2.DeclareStatement
                               (Ast2.VaribleDeclaration (Examples.tok Lexer.IDENT "x")
                                  Examples.i64
                                  (Ast2.LiteralExpression (Examples.tok Lexer.INT "7")))]
                            None)))
                   Examples.inMain2)).
Proof.
  apply (X17_statements_only_append SpecScope.impl
           (Ast2.IfStatment_
              (Ast2.mkIfStatment
                 (Ast2.IdentExpression (Examples.tok Lexer.IDENT "true"))
                 [Ast2.DeclareStatement
                    (Ast2.VaribleDeclaration (Examples.tok Lexer.IDENT "x")
                       Examples.i64
                       (Ast2.LiteralExpression (Examples.tok Lexer.INT "7")))]
                 None))
           Examples.inMain2 tt).
  vm_compute. reflexivity.
Defined.

(** ** The shape of an if statement *)

Module StmtIf.
Import IrgenStmt StmtStep StmtSteps StmtStraight StmtPrefix Construct.

Section Stmt.
Variable Sc : ScopeImpl.

Lemma body_Grows (body : list Ast2.Statement) (g : Irgen Sc) u g' :
  each (statement Sc) body g = Returned u g' -> Grows g g'.
Proof.
  intros H. eapply (each_Grows Sc (statement Sc) body); [| apply Grows_refl | exact H].
  apply Forall_forall. intros s _. apply statement_Grows.
Qed.

Lemma body_prefixes (body : list Ast2.Statement) (g : Irgen Sc) u g' :
  each (statement Sc) body g = Returned u g' -> prefixes (module Sc g) (module Sc g').
Proof.
  intros H. eapply (each_prefixes Sc (statement Sc) body); [| exact H].
  apply Forall_forall. intros s _. apply statement_prefixes.
Qed.

Lemma stmt_terminated_Returned b (g : Irgen Sc) t g' :
  terminated Sc b g = Returned t g' -> g' = g /\ t = Terminated b (module Sc g).
Proof. by intros [= <- <-]. Qed.

Lemma stmt_emitAt_Returned b i (g : Irgen Sc) u g' :
  emitAt Sc b i g = Returned u g' -> g' = setModule Sc (append b i (module Sc g)) g.
Proof. by intros [= _ <-]. Qed.

Lemma stmt_deref_Returned x (g : Irgen Sc) b g' :
  deref Sc x g = Returned b g' -> g' = g /\ x = Some b.
Proof. destruct x; [by intros [= -> ->] | done]. Qed.

Lemma if_statement_run c body (g : Irgen Sc) u g' p :
  Ast2.isNil c = false ->
  parentBlock Sc g = Some p -> p < nblocks (module Sc g) ->
  statement Sc (Ast2.IfStatment_ (Ast2.mkIfStatment c body None)) g = Returned u g' ->
  exists gB cond gC code,
    each (statement Sc) body
      (setScope Sc (Push Sc (scope Sc g))
         (setParentBlock Sc (Some (S (nblocks (module Sc g))))
            (setModule Sc (AddBlock p (AddBlock p (module Sc g)).2).2 g)))
    = Returned tt gB
    /\ expression Sc c
         (setParentBlock Sc (Some p)
            (if Terminated (S (nblocks (module Sc g))) (module Sc gB) then gB
             else setModule Sc
                    (append (S (nblocks (module Sc g))) (Br (nblocks (module Sc g)))
                       (module Sc gB)) gB))
       = Returned cond gC
    /\ g' = setParentBlock Sc (Some (nblocks (module Sc g)))
              (setModule Sc
                 (append p (CondBr cond (S (nblocks (module Sc g))) (nblocks (module Sc g)))
                    (module Sc gC)) gC)
    /\ instrsOf p (module Sc g')
       = instrsOf p (module Sc g) ++ code
         ++ [CondBr cond (S (nblocks (module Sc g))) (nblocks (module Sc g))]
    /\ Forall (fun i => isTerminator i = false) code
    /\ instrsOf (nblocks (module Sc g)) (module Sc g') = []
    /\ scope Sc g' = scope Sc gB
    /\ (forall e, e <> S (nblocks (module Sc g)) -> e <> p ->
          instrsOf e (module Sc g') = instrsOf e (module Sc gB)).
Proof.
  intros Hc Hp Hlt H. cbn [statement] in H.
  apply bind_Returned in H as (endBlock & g1 & H1 & H).
  apply stmt_addBlock_Returned in H1 as (p1 & Hp1 & HendBlock & ->).
  rewrite Hp in Hp1. injection Hp1 as <-.
  cbn [ifSmt] in H.
  apply bind_Returned in H as (gg & gx & H0 & H). apply get_Returned in H0 as [-> ->].
  apply bind_Returned in H as (blk & g2 & H2 & H).
  apply stmt_addBlock_Returned in H2 as (p2 & Hp2 & Hblk & ->).
  cbn [parentBlock module setModule] in Hp2, Hblk. rewrite Hp in Hp2. injection Hp2 as <-.
  rewrite AddBlock_nblocks in Hblk.
  apply bind_Returned in H as (falseBlock & g3 & H3 & H).
  apply pure_Returned in H3 as [-> ->].
  apply bind_Returned in H as (u1 & g4 & H4 & H). apply modify_Returned in H4 as ->.
  apply bind_Returned in H as (u2 & gB & Hbody & H).
  unfold block_ in Hbody.
  apply bind_Returned in Hbody as (u3 & g5 & H5 & Hbody). apply modify_Returned in H5 as ->.
  destruct u2.
  apply bind_Returned in H as (t & g6 & Ht & H).
  apply stmt_terminated_Returned in Ht as [-> ->].
  apply bind_Returned in H as (u4 & g7 & Hclose & H).
  apply bind_Returned in H as (u5 & g8 & Hcond & H).
  rewrite Hc in Hcond.
  apply bind_Returned in Hcond as (u6 & g9 & H9 & Hcond). apply modify_Returned in H9 as ->.
  apply bind_Returned in Hcond as (cond & gC & HC & Hcond).
  apply bind_Returned in Hcond as (p' & g11 & H11 & Hcond).
  apply stmt_deref_Returned in H11 as [-> H11].
  cbn [parentBlock module setModule] in H11, HC. rewrite Hp in H11, HC. injection H11 as <-.
  apply stmt_emitAt_Returned in Hcond as ->.
  apply bind_Returned in H as (u7 & g12 & H12 & H). apply modify_Returned in H12 as ->.
  apply bind_Returned in H as (u8 & g13 & Helse & H). apply pure_Returned in Helse as [_ ->].
  apply modify_Returned in H as ->.
  cbn [parentBlock module scope setModule setParentBlock setScope] in *.
  set (n := nblocks (module Sc g)) in *. subst endBlock blk.
  assert (Hn2 : nblocks (AddBlock p (AddBlock p (module Sc g)).2).2 = S (S n)).
  { by rewrite !AddBlock_nblocks. }
  (* the body leaves the parent block and the end block as they were *)
  pose proof (body_Grows _ _ _ _ Hbody) as EB. unfold Grows in EB.
  cbn [parentBlock module setModule setParentBlock setScope] in EB.
  pose proof (Growth.ext_nblocks _ _ _ _ EB) as HnB. rewrite Hn2 in HnB.
  assert (HpB : instrsOf p (module Sc gB) = instrsOf p (module Sc g)).
  { rewrite (Extends_instrsOf_other _ _ _ _ p EB); [| rewrite Hn2; lia | intros [= E]; lia].
    by rewrite !instrsOf_AddBlock_any. }
  assert (HeB : instrsOf n (module Sc gB) = []).
  { rewrite (Extends_instrsOf_other _ _ _ _ n EB); [| rewrite Hn2; lia | intros [= E]; lia].
    rewrite instrsOf_AddBlock_any. apply instrsOf_AddBlock_new. }
  (* closing the body block touches neither *)
  assert (H7 : g7 = (if Terminated (S n) (module Sc gB) then gB
                     else setModule Sc (append (S n) (Br n) (module Sc gB)) gB)).
  { destruct (Terminated (S n) (module Sc gB)).
    - by apply pure_Returned in Hclose as [_ ->].
    - by apply stmt_emitAt_Returned in Hclose as ->. }
  assert (Hp7 : instrsOf p (module Sc g7) = instrsOf p (module Sc g)
                /\ instrsOf n (module Sc g7) = []
                /\ S (S n) <= nblocks (module Sc g7)
                /\ scope Sc g7 = scope Sc gB
                /\ (forall e, e <> S n -> instrsOf e (module Sc g7) = instrsOf e (module Sc gB))).
  { rewrite H7. destruct (Terminated (S n) (module Sc gB)); [done |].
    cbn [module scope setModule]. rewrite !instrsOf_append_ne by lia.
    rewrite nblocks_append. repeat (split; [done |]).
    intros e He. by rewrite instrsOf_append_ne. }
  destruct Hp7 as (Hp7 & He7 & Hn7 & Hs7 & Ho7).
  (* the condition is straight-line code in the parent block *)
  destruct (expression_straight Sc _ _ _ _ HC) as [(SP & SS & _ & _ & SN & _ & SI) _].
  cbn [parentBlock module scope setParentBlock] in SP, SS, SN, SI.
  destruct (SI p) as (code & Hcode & Hnt & _).
  destruct (SI n) as (none & Hnone & _ & Hnil).
  rewrite (Hnil ltac:(intros [= E]; lia)), app_nil_r in Hnone.
  exists gB, cond, gC, code.
  split; [done | split; [by rewrite <- H7 | split; [done |]]].
  split; [| split; [done | split; [| split]]].
  - rewrite instrsOf_append_eq by lia. by rewrite Hcode, Hp7, <- app_assoc.
  - rewrite instrsOf_append_ne by lia. by rewrite Hnone.
  - congruence.
  - intros e He1 He2. rewrite instrsOf_append_ne by done.
    destruct (SI e) as (se & Hse & _ & Hsnil).
    rewrite Hse, (Hsnil ltac:(intros [= E]; done)), app_nil_r. by apply Ho7.
Qed.



End Stmt.
End StmtIf.

(** X18.  [statement] and [ifSmt] of src/unnamed/part_001 on an if statement
    without else, from a state whose parent block [p] is a block of the
    module.  The end block is created first and the block of the body after
    it.  The body is lowered before the condition, into its block and in a
    scope pushed on the current one; its block then receives a branch to the
    end block unless it is terminated.  Only then is the condition lowered,
    into [p] and in the scope the body left, and [p] receives the conditional
    branch to the body and to the end block.  The end block is empty and is
    the parent block afterwards.  The branch that closes the body is given to
    the first block of the body, also when the body ended in another block
    (after a nested if, say): once the body is lowered, no block other than
    that first block and [p] receives anything. *)
Theorem X18_if_statement_lowers_the_body_before_the_condition :
  forall Sc c body (g : IrgenStmt.Irgen Sc) u g' p,
    Ast2.isNil c = false ->
    IrgenStmt.parentBlock Sc g = Some p -> p < nblocks (IrgenStmt.module Sc g) ->
    IrgenStmt.statement Sc (Ast2.IfStatment_ (Ast2.mkIfStatment c body None)) g
      = Returned u g' ->
    exists gB cond gC code,
      each (IrgenStmt.statement Sc) body
        (IrgenStmt.setScope Sc (IrgenStmt.Push Sc (IrgenStmt.scope Sc g))
           (IrgenStmt.setParentBlock Sc (Some (S (nblocks (IrgenStmt.module Sc g))))
              (IrgenStmt.setModule Sc
                 (AddBlock p (AddBlock p (IrgenStmt.module Sc g)).2).2 g)))
      = Returned tt gB
      /\ IrgenStmt.expression Sc c
           (IrgenStmt.setParentBlock Sc (Some p)
              (if Terminated (S (nblocks (IrgenStmt.module Sc g))) (IrgenStmt.module Sc gB)
               then gB
               else IrgenStmt.setModule Sc
                      (append (S (nblocks (IrgenStmt.module Sc g)))
                         (Br (nblocks (IrgenStmt.module Sc g)))
                         (IrgenStmt.module Sc gB)) gB))
         = Returned cond gC
      /\ g' = IrgenStmt.setParentBlock Sc (Some (nblocks (IrgenStmt.module Sc g)))
                (IrgenStmt.setModule Sc
                   (append p (CondBr cond (S (nblocks (IrgenStmt.module Sc g)))
                                (nblocks (IrgenStmt.module Sc g)))
                      (IrgenStmt.module Sc gC)) gC)
      /\ instrsOf p (IrgenStmt.module Sc g')
         = instrsOf p (IrgenStmt.module Sc g) ++ code
           ++ [CondBr cond (S (nblocks (IrgenStmt.module Sc g)))
                 (nblocks (IrgenStmt.module Sc g))]
      /\ Forall (fun i => isTerminator i = false) code
      /\ instrsOf (nblocks (IrgenStmt.module Sc g)) (IrgenStmt.module Sc g') = []
      /\ IrgenStmt.scope Sc g' = IrgenStmt.scope Sc gB
      /\ (forall e, e <> S (nblocks (IrgenStmt.module Sc g)) -> e <> p ->
            instrsOf e (IrgenStmt.module Sc g') = instrsOf e (IrgenStmt.module Sc gB)).
Proof. intros. by eapply StmtIf.if_statement_run. Qed.

(** X18 at [if true { let x = 7 }] in the body of [main]: block 1, the
    end block, is empty. *)
Lemma X18_witness :
  instrsOf 1
    (IrgenStmt.module SpecScope.impl
       (Examples.stateAfter (IrgenStmt.statement SpecScope.impl Construct.ifThen2)
          Examples.inMain2))
  = [].
Proof.
  destruct (X18_if_statement_lowers_the_body_before_the_condition SpecScope.impl
              (Ast2.IdentExpression (Examples.tok Lexer.IDENT "true"))
              [Ast2.DeclareStatement
                 (Ast2.VaribleDeclaration (Examples.tok Lexer.IDENT "x") Examples.i64
                    (Ast2.LiteralExpression (Examples.tok Lexer.INT "7")))]
              Examples.inMain2 tt
              (Examples.stateAfter (IrgenStmt.statement SpecScope.impl Construct.ifThen2)
                 Examples.inMain2) 0)
    as (gB & cond & gC & code & _ & _ & _ & _ & _ & He & _ & _).
  - reflexivity.
  - reflexivity.
  - vm_compute. lia.
  - vm_compute. reflexivity.
  - exact He.
Defined.



(** * Beyond the claims: the module the statement-oriented [Generate] returns *)

Lemma closed_append b i m :
  closed m -> targetsIn 0 (nblocks m) i -> closed (append b i m).
Proof.
  intros Hc Hi. apply closed_instrsOf. intros b'. rewrite nblocks_append.
  rewrite instrsOf_append_cases. apply Forall_app. split.
  - by apply closed_instrsOf.
  - destruct (decide _); [by repeat constructor | constructor].
Qed.

Lemma closed_blocks m m' :
  blocks m' = blocks m -> closed m -> closed m'.
Proof. unfold closed, nblocks. intros ->. done. Qed.

Module StmtGenerate.
Import IrgenStmt StmtStep StmtSteps StmtStraight StmtPrefix StmtIf Construct SpecPrologue.

Section Stmt.
Variable Sc : ScopeImpl.

(** The loop over the arguments, on the functions and the blocks of the module. *)
Lemma arguments_module f (args : list Ast2.ArgumentDeclaration) :
  forall (g : Irgen Sc) u g',
    each (fun arg =>
        let name := Lexer.tokenValue (Ast2.argName arg) in
        let argType := Llvm (Ast2.argType arg) in
        do argValue <- addArgument Sc f argType name;
        do id <- emitNamed Sc (fun id => Alloca id argType);
        do _ <- emit Sc (Store (Pointer id) (Some argValue));
        modify (fun g => setScope Sc (AddVar Sc name (Pointer id) (scope Sc g)) g)) args g
      = Returned u g' ->
    Goory.functions (module Sc g')
    = alter (withArguments
               (map (fun a => (Llvm (Ast2.argType a), Lexer.tokenValue (Ast2.argName a))) args))
        f (Goory.functions (module Sc g))
    /\ nblocks (module Sc g') = nblocks (module Sc g)
    /\ (closed (module Sc g) -> closed (module Sc g')).
Proof.
  induction args as [| x rest IH]; intros g u g' H; simpl in H.
  - apply pure_Returned in H as [_ ->]. simpl. split; [| done].
    symmetry. apply list_alter_id, withArguments_nil.
  - apply bind_Returned in H as (u1 & g1 & Hbody & H).
    apply bind_Returned in Hbody as (argValue & gA & HA & Hbody).
    apply stmt_addArgument_Returned in HA as [_ ->].
    apply bind_Returned in Hbody as (id & gB & HB & Hbody).
    apply stmt_emitNamed_Returned in HB as (b1 & Hb1 & -> & ->).
    apply bind_Returned in Hbody as (u2 & gC & HC & Hbind).
    apply stmt_emit_Returned in HC as (b2 & Hb2 & ->).
    apply modify_Returned in Hbind as ->.
    destruct (IH _ _ _ H) as (I1 & I2 & I3).
    cbn [module setModule setScope] in I1, I2, I3.
    split; [| split].
    + rewrite I1.
      change (Goory.functions (append b2 _ _)) with
        (alter (fun fn => {| name := name fn; returnType := returnType fn;
                             arguments := arguments fn
                               ++ [(Llvm (Ast2.argType x), Lexer.tokenValue (Ast2.argName x))];
                             entry := entry fn |}) f (Goory.functions (module Sc g))).
      rewrite list_alter_alter_eq. apply list_alter_ext; [| done].
      intros fn _. unfold withArguments. simpl. by rewrite <- app_assoc.
    + rewrite I2, nblocks_append, nblocks_appendNamed. done.
    + intros Hc. apply I3. apply closed_append; [| by repeat constructor].
      apply (closed_append b1 (Alloca (temps (module Sc g)) (Llvm (Ast2.argType x))));
        [| by repeat constructor].
      by eapply closed_blocks; [| exact Hc].
Qed.

Lemma stmt_prologue_module node (g : Irgen Sc) f g1 :
  prologue Sc node g = Returned f g1 ->
  signatureOf <$> Goory.functions (module Sc g1)
  = (signatureOf <$> Goory.functions (module Sc g)) ++ [signature2 node]
  /\ (entriesValid (module Sc g) -> entriesValid (module Sc g1))
  /\ (closed (module Sc g) -> closed (module Sc g1)).
Proof.
  intros H. unfold prologue in H.
  apply bind_Returned in H as (f' & g2 & Hnew & H).
  apply stmt_newFunction_Returned in Hnew as [-> ->].
  apply bind_Returned in H as (u1 & g3 & H0 & H). apply modify_Returned in H0 as ->.
  apply bind_Returned in H as (gg & g4 & H0 & H). apply get_Returned in H0 as [-> ->].
  apply bind_Returned in H as (u2 & g5 & H0 & H). apply modify_Returned in H0 as ->.
  apply bind_Returned in H as (u3 & g6 & Hloop & H).
  apply pure_Returned in H as [-> ->].
  apply arguments_module in Hloop as (I1 & I2 & I3).
  cbn [module setModule setScope setParentBlock] in I1, I2, I3.
  set (m1 := (NewFunction (Lexer.tokenValue (Ast2.Name node)) (Llvm (Ast2.Return node))
                (module Sc g)).2) in *.
  assert (Hfs : Goory.functions m1
                = Goory.functions (module Sc g)
                  ++ [{| name := Lexer.tokenValue (Ast2.Name node);
                         returnType := Llvm (Ast2.Return node);
                         arguments := []; entry := nblocks (module Sc g) |}])
    by reflexivity.
  assert (Hbs : blocks m1
                = blocks (module Sc g)
                  ++ [{| owner := length (Goory.functions (module Sc g)); instrs := [] |}])
    by reflexivity.
  assert (Hn1 : nblocks m1 = S (nblocks (module Sc g))).
  { unfold nblocks. rewrite Hbs, length_app. simpl. lia. }
  split; [| split].
  - rewrite I1, Hfs. rewrite alter_app_r_alt by done. rewrite Nat.sub_diag. simpl.
    rewrite fmap_app. simpl. unfold signatureOf, signature2. simpl. done.
  - intros Hv. eapply (entriesValid_alter _ _ m1); [| exact I1 | lia |]; [done |].
    intros i x Hx. rewrite Hfs in Hx. fold (nblocks m1). rewrite Hn1.
    apply lookup_app_Some in Hx as [Hx | [_ Hx]].
    + specialize (Hv i x Hx). unfold nblocks. lia.
    + destruct (i - length (Goory.functions (module Sc g))) as [| k]; [| done].
      injection Hx as <-. simpl. lia.
  - intros Hc. apply I3. intros b blk Hb. rewrite Hn1. rewrite Hbs in Hb.
    apply lookup_app_Some in Hb as [Hb | [_ Hb]].
    + eapply Forall_impl; [by eapply Hc |]. intros i Hi.
      eapply Forall_impl; [exact Hi |]. simpl. intros t Ht. lia.
    + destruct (b - length (blocks (module Sc g))) as [| k]; [| done].
      injection Hb as <-. constructor.
Qed.

Lemma stmt_function_module node (g : Irgen Sc) u g' :
  function Sc node g = Returned u g' ->
  signatureOf <$> Goory.functions (module Sc g')
  = (signatureOf <$> Goory.functions (module Sc g)) ++ [signature2 node]
  /\ (entriesValid (module Sc g) -> entriesValid (module Sc g'))
  /\ (closed (module Sc g) -> closed (module Sc g')).
Proof.
  intros H. unfold function in H.
  apply bind_Returned in H as (f & g1 & Hpro & Hbody).
  destruct (stmt_prologue_module _ _ _ _ Hpro) as (I1 & I2 & I3).
  pose proof (block_Grows _ _ _ _ _ Hbody) as E. unfold Grows in E.
  pose proof (Growth.ext_functions _ _ _ _ E) as F.
  pose proof (Growth.ext_nblocks _ _ _ _ E) as N.
  split; [by rewrite F | split].
  - intros Hv i x Hx. rewrite F in Hx. specialize (I2 Hv i x Hx). unfold nblocks in N. lia.
  - intros Hc. eapply Extends_closed; [exact E | by apply I3].
Qed.

Lemma stmt_each_function_module (l : list Ast2.FunctionDeclaration) :
  forall (g : Irgen Sc) u g',
    each (function Sc) l g = Returned u g' ->
    signatureOf <$> Goory.functions (module Sc g')
    = (signatureOf <$> Goory.functions (module Sc g)) ++ (signature2 <$> l)
    /\ (entriesValid (module Sc g) -> entriesValid (module Sc g'))
    /\ (closed (module Sc g) -> closed (module Sc g')).
Proof.
  induction l as [| f l IH]; intros g u g' H; simpl in H.
  - apply pure_Returned in H as [_ ->]. by rewrite app_nil_r.
  - apply bind_Returned in H as (u1 & g1 & Hf & H).
    destruct (stmt_function_module _ _ _ _ Hf) as (F1 & V1 & C1).
    destruct (IH _ _ _ H) as (F2 & V2 & C2).
    split; [| split; auto]. rewrite F2, F1, <- app_assoc. done.
Qed.

End Stmt.
End StmtGenerate.

(** X20.  [NewIrgen] followed by [Generate], in src/unnamed/part_001: when
    [Generate] returns, the functions of the module are those of the AST, one
    for one and in the order of the AST, each with the name, the return type
    and the arguments, with their types and names in order, that the AST gives
    it; this holds also when two functions carry the same name, since every
    function gets a handle of its own when it is lowered.  Lowering
    statements adds no function and no argument. *)
Theorem X20_statement_generate_keeps_the_signatures :
  forall Sc ast m g',
    IrgenStmt.Generate Sc (IrgenStmt.NewIrgen Sc ast) = Returned m g' ->
    map Construct.signatureOf (Goory.functions m)
    = map Construct.signature2 (Ast2.Functions ast).
Proof.
  intros Sc ast m g' H. unfold IrgenStmt.Generate in H.
  apply bind_Returned in H as (gg & g1 & H0 & H). apply get_Returned in H0 as [-> ->].
  apply bind_Returned in H as (u & g2 & Heach & H).
  apply bind_Returned in H as (gg & g3 & H0 & H). apply get_Returned in H0 as [-> ->].
  apply pure_Returned in H as [-> ->].
  by apply StmtGenerate.stmt_each_function_module in Heach as (F & _ & _).
Qed.

(** X20 at [proc identity(n i64) -> i64 { return n }]. *)
Lemma X20_witness :
  map Construct.signatureOf
    (Goory.functions
       (IrgenStmt.module SpecScope.impl
          (Examples.stateAfter (IrgenStmt.Generate SpecScope.impl)
             (IrgenStmt.NewIrgen SpecScope.impl Examples.identityProgram2))))
  = [("identity", Llvm Examples.i64, [(Llvm Examples.i64, "n")])].
Proof.
  apply (X20_statement_generate_keeps_the_signatures SpecScope.impl Examples.identityProgram2
           (IrgenStmt.module SpecScope.impl
              (Examples.stateAfter (IrgenStmt.Generate SpecScope.impl)
                 (IrgenStmt.NewIrgen SpecScope.impl Examples.identityProgram2)))
           (Examples.stateAfter (IrgenStmt.Generate SpecScope.impl)
              (IrgenStmt.NewIrgen SpecScope.impl Examples.identityProgram2))).
  vm_compute. reflexivity.
Defined.

(** X21.  The module that [NewIrgen] followed by [Generate] returns, in
    src/unnamed/part_001, has no dangling reference to a block: every branch
    and conditional branch the lowerer emitted goes to a block of the module,
    and the entry block of every function is a block of the module. *)
Theorem X21_statement_generate_branches_to_blocks_of_the_module :
  forall Sc ast m g',
    IrgenStmt.Generate Sc (IrgenStmt.NewIrgen Sc ast) = Returned m g' ->
    closed m /\ SpecPrologue.entriesValid m.
Proof.
  intros Sc ast m g' H. unfold IrgenStmt.Generate in H.
  apply bind_Returned in H as (gg & g1 & H0 & H). apply get_Returned in H0 as [-> ->].
  apply bind_Returned in H as (u & g2 & Heach & H).
  apply bind_Returned in H as (gg & g3 & H0 & H). apply get_Returned in H0 as [-> ->].
  apply pure_Returned in H as [-> ->].
  apply StmtGenerate.stmt_each_function_module in Heach as (_ & V & C).
  split; [apply C | apply V]; by intros ? ? ?.
Qed.

(** X21 at a function whose body is [if true { return 1 } else if false
    { return 2 }]. *)
Lemma X21_witness :
  closed
    (IrgenStmt.module SpecScope.impl
       (Examples.stateAfter (IrgenStmt.Generate SpecScope.impl)
          (IrgenStmt.NewIrgen SpecScope.impl
             (Ast2.mkAst [Ast2.mkFunctionDeclaration (Examples.tok Lexer.IDENT "main")
                            Examples.i64 [] [Construct.elseIf2]])))).
Proof.
  apply (X21_statement_generate_branches_to_blocks_of_the_module SpecScope.impl
           (Ast2.mkAst [Ast2.mkFunctionDeclaration (Examples.tok Lexer.IDENT "main")
                          Examples.i64 [] [Construct.elseIf2]])
           (IrgenStmt.module SpecScope.impl
              (Examples.stateAfter (IrgenStmt.Generate SpecScope.impl)
                 (IrgenStmt.NewIrgen SpecScope.impl
                    (Ast2.mkAst [Ast2.mkFunctionDeclaration (Examples.tok Lexer.IDENT "main")
                                   Examples.i64 [] [Construct.elseIf2]]))))
           (Examples.stateAfter (IrgenStmt.Generate SpecScope.impl)
              (IrgenStmt.NewIrgen SpecScope.impl
                 (Ast2.mkAst [Ast2.mkFunctionDeclaration (Examples.tok Lexer.IDENT "main")
                                Examples.i64 [] [Construct.elseIf2]])))).
  vm_compute. reflexivity.
Defined.

(** * Beyond the claims: return, declaration and assignment statements *)

(** X22.  [returnSmt] of src/unnamed/part_001, from a state whose parent
    block [b] is a block of the module: the result is lowered, as
    straight-line code in [b], and the value it yields is returned as it is;
    no cast to the return type of the function is inserted (src/irgen/irgen.go
    inserts one).  The return is the last instruction of [b], which is
    terminated from then on; scope and parent block are unchanged. *)
Theorem X22_return_statement_returns_the_value_as_lowered :
  forall Sc r (g : IrgenStmt.Irgen Sc) u g' b,
    IrgenStmt.parentBlock Sc g = Some b -> b < nblocks (IrgenStmt.module Sc g) ->
    IrgenStmt.statement Sc (Ast2.ReturnStatement r) g = Returned u g' ->
    exists exp g1 code,
      IrgenStmt.expression Sc r g = Returned (Some exp) g1
      /\ g' = IrgenStmt.setModule Sc (append b (Ret (Some exp)) (IrgenStmt.module Sc g1)) g1
      /\ instrsOf b (IrgenStmt.module Sc g')
         = instrsOf b (IrgenStmt.module Sc g) ++ code ++ [Ret (Some exp)]
      /\ Forall (fun i => isTerminator i = false) code
      /\ Terminated b (IrgenStmt.module Sc g') = true
      /\ IrgenStmt.scope Sc g' = IrgenStmt.scope Sc g
      /\ IrgenStmt.parentBlock Sc g' = Some b.
Proof.
  intros Sc r g u g' b Hb Hlt H. cbn [IrgenStmt.statement] in H. unfold IrgenStmt.returnSmt in H.
  apply bind_Returned in H as (exp & g1 & H1 & H).
  destruct (StmtStraight.expression_straight Sc _ _ _ _ H1)
    as [(SP & SS & _ & _ & SN & _ & SI) [x ->]].
  apply StmtSteps.stmt_emit_Returned in H as (b1 & Hb1 & ->).
  rewrite SP, Hb in Hb1. injection Hb1 as <-.
  destruct (SI b) as (code & Hcode & Hnt & _).
  assert (Hins : instrsOf b (append b (Ret (Some x)) (IrgenStmt.module Sc g1))
                 = instrsOf b (IrgenStmt.module Sc g) ++ code ++ [Ret (Some x)]).
  { rewrite instrsOf_append_eq by lia. by rewrite Hcode, <- app_assoc. }
  exists x, g1, code. cbn [IrgenStmt.module IrgenStmt.scope IrgenStmt.parentBlock IrgenStmt.setModule].
  split; [done | split; [done | split; [done | split; [done | split; [| split]]]]].
  - rewrite Terminated_instrsOf, Hins, !existsb_app. simpl. by rewrite !orb_true_r.
  - done.
  - congruence.
Qed.

(** X22 at [return 123] in the body of [main]: the literal is returned, no
    cast before it. *)
Lemma X22_witness :
  instrsOf 0
    (IrgenStmt.module SpecScope.impl
       (Examples.stateAfter
          (IrgenStmt.statement SpecScope.impl
             (Ast2.ReturnStatement (Ast2.LiteralExpression (Examples.tok Lexer.INT "123"))))
          Examples.inMain2))
  = [Ret (Some (ConstantAtoi (Llvm (Types.IntType 0)) "123"))].
Proof.
  destruct (X22_return_statement_returns_the_value_as_lowered SpecScope.impl
              (Ast2.LiteralExpression (Examples.tok Lexer.INT "123"))
              Examples.inMain2 tt
              (Examples.stateAfter
                 (IrgenStmt.statement SpecScope.impl
                    (Ast2.ReturnStatement
                       (Ast2.LiteralExpression (Examples.tok Lexer.INT "123"))))
                 Examples.inMain2) 0)
    as (exp & g1 & code & He & Hg & _).
  - reflexivity.
  - vm_compute. lia.
  - vm_compute. reflexivity.
  - injection He as <- <-. rewrite Hg. vm_compute. reflexivity.
Defined.

(** X23.  [declareSmt] and [assignmentSmt] of src/unnamed/part_001 lower
    the value first, in the scope as it was: the name being declared is not
    yet bound while its initializer is lowered (src/irgen/irgen.go binds it
    before).  A declaration then allocates a slot of the base type of the
    declared type in the parent block, stores the value and only then binds
    the name to the slot.  An assignment to an identifier looks the name up
    after the value was lowered, stores into the slot found, allocates
    nothing, and binds the name to the same slot again. *)
Theorem X23_declare_and_assign_lower_the_value_first :
  (forall Sc Name Type_ Value_ (g : IrgenStmt.Irgen Sc) u g',
     IrgenStmt.statement Sc
       (Ast2.DeclareStatement (Ast2.VaribleDeclaration Name Type_ Value_)) g
       = Returned u g' ->
     exists exp g1 b,
       IrgenStmt.expression Sc Value_ g = Returned (Some exp) g1
       /\ IrgenStmt.parentBlock Sc g = Some b
       /\ g' = IrgenStmt.setScope Sc
                 (IrgenStmt.AddVar Sc (Lexer.tokenValue Name)
                    (Pointer (temps (IrgenStmt.module Sc g1))) (IrgenStmt.scope Sc g))
                 (IrgenStmt.setModule Sc
                    (append b (Store (Pointer (temps (IrgenStmt.module Sc g1))) (Some exp))
                       (appendNamed b (fun id => Alloca id (LlvmBase Type_))
                          (IrgenStmt.module Sc g1)).2) g1))
  /\
  (forall Sc v Right (g : IrgenStmt.Irgen Sc) u g',
     IrgenStmt.statement Sc (Ast2.AssignmentStatement (Ast2.IdentExpression v) Right) g
       = Returned u g' ->
     exists exp g1 b alloc,
       IrgenStmt.expression Sc Right g = Returned (Some exp) g1
       /\ IrgenStmt.GetVar Sc (Lexer.tokenValue v) (IrgenStmt.scope Sc g) = Some alloc
       /\ IrgenStmt.parentBlock Sc g = Some b
       /\ g' = IrgenStmt.setScope Sc
                 (IrgenStmt.AddVar Sc (Lexer.tokenValue v) alloc (IrgenStmt.scope Sc g))
                 (IrgenStmt.setModule Sc
                    (append b (Store alloc (Some exp)) (IrgenStmt.module Sc g1)) g1)).
Proof.
  split.
  - intros Sc Name Type_ Value_ g u g' H.
    cbn [IrgenStmt.statement] in H. unfold IrgenStmt.declareSmt in H.
    apply bind_Returned in H as (exp & g1 & H1 & H).
    destruct (StmtStraight.expression_straight Sc _ _ _ _ H1)
      as [(SP & SS & _ & _ & SN & _ & SI) [x ->]].
    apply bind_Returned in H as (id & g2 & H2 & H).
    apply StmtSteps.stmt_emitNamed_Returned in H2 as (b & Hb & -> & ->).
    apply bind_Returned in H as (u1 & g3 & H3 & H).
    apply StmtSteps.stmt_emit_Returned in H3 as (b' & Hb' & ->).
    cbn [IrgenStmt.parentBlock IrgenStmt.setModule] in Hb'.
    rewrite Hb in Hb'. injection Hb' as <-.
    apply modify_Returned in H as ->.
    exists x, g1, b. split; [done | split; [congruence |]].
    cbn [IrgenStmt.scope IrgenStmt.module IrgenStmt.setModule]. by rewrite SS.
  - intros Sc v Right g u g' H.
    cbn [IrgenStmt.statement] in H. unfold IrgenStmt.assignmentSmt in H.
    apply bind_Returned in H as (name & g0 & H0 & H). apply pure_Returned in H0 as [-> ->].
    apply bind_Returned in H as (exp & g1 & H1 & H).
    destruct (StmtStraight.expression_straight Sc _ _ _ _ H1)
      as [(SP & SS & _ & _ & SN & _ & SI) [x ->]].
    apply bind_Returned in H as (gg & g2 & H2 & H). apply get_Returned in H2 as [-> ->].
    destruct (IrgenStmt.GetVar Sc (Lexer.tokenValue v) (IrgenStmt.scope Sc g1))
      as [alloc |] eqn:Ealloc; [| done].
    apply bind_Returned in H as (u1 & g3 & H3 & H).
    apply StmtSteps.stmt_emit_Returned in H3 as (b & Hb & ->).
    apply modify_Returned in H as ->.
    exists x, g1, b, alloc. split; [done | split; [congruence | split; [congruence |]]].
    cbn [IrgenStmt.scope IrgenStmt.module IrgenStmt.setModule]. by rewrite SS.
Qed.

(** X23 at [let x = 7] in the body of [main]. *)
Lemma X23_witness :
  instrsOf 0
    (IrgenStmt.module SpecScope.impl
       (Examples.stateAfter
          (IrgenStmt.statement SpecScope.impl
             (Ast2.DeclareStatement
                (Ast2.VaribleDeclaration (Examples.tok Lexer.IDENT "x") Examples.i64
                   (Ast2.LiteralExpression (Examples.tok Lexer.INT "7")))))
          Examples.inMain2))
  = [Alloca 0 (LlvmBase Examples.i64);
     Store (Pointer 0) (Some (ConstantAtoi (Llvm (Types.IntType 0)) "7"))].
Proof.
  destruct (proj1 X23_declare_and_assign_lower_the_value_first SpecScope.impl
              (Examples.tok Lexer.IDENT "x") Examples.i64
              (Ast2.LiteralExpression (Examples.tok Lexer.INT "7"))
              Examples.inMain2 tt
              (Examples.stateAfter
                 (IrgenStmt.statement SpecScope.impl
                    (Ast2.DeclareStatement
                       (Ast2.VaribleDeclaration (Examples.tok Lexer.IDENT "x") Examples.i64
                          (Ast2.LiteralExpression (Examples.tok Lexer.INT "7")))))
                 Examples.inMain2))
    as (exp & g1 & b & He & Hb & Hg).
  - vm_compute. reflexivity.
  - injection He as <- <-. injection Hb as <-. rewrite Hg. vm_compute. reflexivity.
Defined.

(** * Beyond the claims: calls *)

(** X15.  [call] of src/irgen/irgen.go and [callExp] of
    src/unnamed/part_001.  The callee is resolved by name before the
    arguments are lowered, in the table of function handles in the first
    lowerer (a variable of the same name plays no role) and among the
    functions of the scope in the second; a name that is not found is no
    error for the lowerer, the builder receives nil.  The arguments are
    lowered from left to right, each in the state the one before it left;
    then the block current after the last argument receives one call with the
    values in the order of the arguments, one value per argument, and the
    expression yields the result of that call. *)
Theorem X15_call_lowers_arguments_in_order :
  (forall fip callee args g v g',
     expression fip (Ast.Call callee args) g = Returned v g' ->
     exists ops gA b,
       collect (expression fip) args g = Returned ops gA
       /\ length ops = length args
       /\ functions gA = functions g
       /\ block gA = Some b
       /\ v = Some (Temp (temps (module gA)))
       /\ g' = setModule
                 (appendNamed b (fun id => Call id (functions g !! callee) ops) (module gA)).2
                 gA)
  /\
  (forall Sc callee Elements (g : IrgenStmt.Irgen Sc) v g',
     IrgenStmt.expression Sc
       (Ast2.CallExpression (Ast2.IdentExpression callee) Elements) g = Returned v g' ->
     exists ops gA b,
       collect (IrgenStmt.expression Sc) Elements g = Returned ops gA
       /\ length ops = length Elements
       /\ IrgenStmt.scope Sc gA = IrgenStmt.scope Sc g
       /\ IrgenStmt.parentBlock Sc g = Some b
       /\ v = Some (Temp (temps (IrgenStmt.module Sc gA)))
       /\ g' = IrgenStmt.setModule Sc
                 (appendNamed b
                    (fun id => Call id
                       (IrgenStmt.GetFunction Sc (Lexer.tokenValue callee)
                          (IrgenStmt.scope Sc g)) ops)
                    (IrgenStmt.module Sc gA)).2 gA).
Proof.
  assert (Hlen : forall St A B (f : A -> M St B) (l : list A) g ops gA,
            collect f l g = Returned ops gA -> length ops = length l).
  { intros St A B f l. induction l as [| x l IH]; intros g ops gA H; simpl in H.
    - by apply pure_Returned in H as [-> _].
    - apply bind_Returned in H as (y & g1 & _ & H).
      apply bind_Returned in H as (ys & g2 & H2 & H).
      apply pure_Returned in H as [-> _]. simpl. f_equal. by eapply IH. }
  split.
  - intros fip callee args g v g' H.
    destruct (call_resolves fip _ _ _ _ _ H) as (ops & gA & b & Hc & Hb & -> & ->).
    exists ops, gA, b. split; [done | split; [by eapply Hlen | split; [| done]]].
    eapply (collect_Step (expression fip) args); [| exact Hc].
    apply Forall_forall. intros x _ gx vx gx'. apply expression_Step.
  - intros Sc callee Elements g v g' H. cbn [IrgenStmt.expression] in H.
    apply bind_Returned in H as (name & g0 & H0 & H). apply pure_Returned in H0 as [-> ->].
    apply bind_Returned in H as (gg & g1 & H1 & H). apply get_Returned in H1 as [-> ->].
    apply bind_Returned in H as (ops & gA & Hc & H).
    apply bind_Returned in H as (id & g2 & H2 & H). apply pure_Returned in H as [-> ->].
    apply StmtSteps.stmt_emitNamed_Returned in H2 as (b & Hb & -> & ->).
    assert (HS : Construct.straight g gA).
    { eapply (StmtStraight.collect_straight Sc (IrgenStmt.expression Sc) Elements); [| exact Hc].
      apply Forall_forall. intros x _ gx vx gx' Hx.
      by eapply StmtStraight.expression_straight. }
    destruct HS as (SP & SS & _).
    exists ops, gA, b. split; [done | split; [by eapply Hlen | split; [done |]]].
    split; [congruence | done].
Qed.

(** X15 at [second()] in the body of [first], declared before [second]. *)
Lemma X15_witness :
  exists ops gA b,
    collect (expression false) [] Examples.inFirst = Returned ops gA
    /\ length ops = 0
    /\ functions gA = functions Examples.inFirst
    /\ block gA = Some b
    /\ Some (Temp 0) = Some (Temp (temps (module gA)))
    /\ Examples.stateAfter (expression false (Ast.Call "second" [])) Examples.inFirst
       = setModule
           (appendNamed b (fun id => Call id (functions Examples.inFirst !! "second") ops)
              (module gA)).2 gA.
Proof.
  apply (proj1 X15_call_lowers_arguments_in_order false "second" [] Examples.inFirst
           (Some (Temp 0))
           (Examples.stateAfter (expression false (Ast.Call "second" [])) Examples.inFirst)).
  vm_compute. reflexivity.
Defined.

(** * Beyond the claims: the entry blocks of a whole program *)

Import Construct SpecPrologue.

(** In the state [NewIrgen] builds, the handle at index [k] has block [k]
    as its entry and no arguments, and there is one block per handle. *)
Lemma NewIrgen_entries (ast : Ast.Ast) :
  (forall k fn, Goory.functions (module (NewIrgen ast)) !! k = Some fn ->
     entry fn = k /\ arguments fn = [])
  /\ nblocks (module (NewIrgen ast)) = length (Ast.Functions ast)
  /\ length (Goory.functions (module (NewIrgen ast))) = length (Ast.Functions ast).
Proof.
  unfold NewIrgen. cbn [functions module setScopes].
  set (step := fun (g : Irgen) (f : Ast.Function) =>
                 let '(function, m) :=
                   NewFunction (Ast.Name f) (Llvm (Ast.ReturnType f)) (module g) in
                 setFunctions (<[Ast.Name f := function]> (functions g)) (setModule m g)).
  set (g0 := {| root := ast; currentFunction := None; functions := ∅; scopes := [];
                currentScope := 0; module := NewModule "furlang"; block := None |}).
  assert (Inv : forall l g,
            (forall k fn, Goory.functions (module g) !! k = Some fn ->
               entry fn = k /\ arguments fn = []) ->
            nblocks (module g) = length (Goory.functions (module g)) ->
            (forall k fn, Goory.functions (module (fold_left step l g)) !! k = Some fn ->
               entry fn = k /\ arguments fn = [])
            /\ nblocks (module (fold_left step l g))
               = length (Goory.functions (module (fold_left step l g)))
            /\ length (Goory.functions (module (fold_left step l g)))
               = length (Goory.functions (module g)) + length l).
  { induction l as [| x l IH]; intros g He Hn; simpl.
    - split; [done | split; [done | lia]].
    - assert (Hfs : Goory.functions (module (step g x))
                    = Goory.functions (module g)
                      ++ [{| name := Ast.Name x; returnType := Llvm (Ast.ReturnType x);
                             arguments := []; entry := length (blocks (module g)) |}])
        by reflexivity.
      assert (Hbs : blocks (module (step g x))
                    = blocks (module g)
                      ++ [{| owner := length (Goory.functions (module g)); instrs := [] |}])
        by reflexivity.
      destruct (IH (step g x)) as (I1 & I2 & I3).
      + intros k fn Hk. rewrite Hfs in Hk.
        apply lookup_app_Some in Hk as [Hk | [Hge Hk]]; [by apply He |].
        destruct (k - length (Goory.functions (module g))) as [| j] eqn:E; [| done].
        injection Hk as <-. simpl. unfold nblocks in Hn. split; [lia | done].
      + unfold nblocks in *. rewrite Hbs, Hfs, !length_app. simpl. lia.
      + split; [exact I1 | split; [exact I2 |]]. rewrite I3, Hfs, length_app. simpl. lia. }
  destruct (Inv (Ast.Functions ast) g0) as (I1 & I2 & I3); [done | done |].
  split; [exact I1 | split; [| exact I3]]. by rewrite I2, I3.
Qed.

Section IrgenEntries.
Variable fip : bool.

(** What lowering one function leaves alone. *)
Lemma function_other_blocks node g u g' fn f0 :
  entriesValid (module g) ->
  functions g !! Ast.Name node = Some fn ->
  Goory.functions (module g) !! fn = Some f0 ->
  function fip node g = Returned u g' ->
  nblocks (module g) <= nblocks (module g')
  /\ (forall b, b < nblocks (module g) -> b <> entry f0 ->
        instrsOf b (module g') = instrsOf b (module g))
  /\ exists rest,
       instrsOf (entry f0) (module g')
       = instrsOf (entry f0) (module g)
         ++ paramSlots fn (temps (module g)) (length (arguments f0))
              (map (fun p => Llvm (Ast.paramType p)) (Ast.Parameters node))
         ++ rest.
Proof.
  intros Hv Hfn Hf0 H.
  destruct (function_run fip _ _ _ _ Hv H)
    as (fn' & f0' & g1 & rest & Hfn' & Hf0' & Hpro & Hbody & Hb1 & _ & _ & Hins).
  rewrite Hfn in Hfn'. injection Hfn' as <-. rewrite Hf0 in Hf0'. injection Hf0' as <-.
  destruct (prologue_run _ _ _ _ Hv Hpro)
    as (f0' & _ & Hf0' & _ & Hent & Hn1 & _ & _ & Hother & _).
  rewrite Hf0 in Hf0'. injection Hf0' as <-.
  pose proof (body_Step fip _ _ _ _ Hbody) as HS.
  pose proof (Step_nblocks _ _ HS) as HN.
  split; [lia | split; [| by exists rest]].
  intros b Hb Hne. rewrite (Step_instrsOf_other _ _ _ HS).
  - by apply Hother.
  - lia.
  - rewrite Hb1. intros [= E]. done.
Qed.

Lemma each_function_slots (rest : list Ast.Function) :
  forall (ready : list Ast.Function) g u g',
    each (function fip) rest g = Returned u g' ->
    (forall k f, rest !! k = Some f -> functions g !! Ast.Name f = Some (length ready + k)) ->
    entriesValid (module g) -> closed (module g) ->
    (forall k fn, Goory.functions (module g) !! k = Some fn -> entry fn = k) ->
    (forall k, length ready <= k < length ready + length rest ->
       exists fn, Goory.functions (module g) !! k = Some fn /\ arguments fn = []) ->
    (forall k, length ready <= k < length ready + length rest ->
       instrsOf k (module g) = []) ->
    length ready + length rest <= nblocks (module g) ->
    (forall k f, ready !! k = Some f ->
       exists t more,
         instrsOf k (module g)
         = paramSlots k t 0 (map (fun p => Llvm (Ast.paramType p)) (Ast.Parameters f))
           ++ more) ->
    (forall k fn, Goory.functions (module g') !! k = Some fn -> entry fn = k)
    /\ forall k f, (ready ++ rest) !! k = Some f ->
         exists t more,
           instrsOf k (module g')
           = paramSlots k t 0 (map (fun p => Llvm (Ast.paramType p)) (Ast.Parameters f))
             ++ more.
Proof.
  induction rest as [| f rest IH];
    intros ready g u g' H Htab Hv Hc Hentry Hargs Hempty Hnb Hready; simpl in H.
  - apply pure_Returned in H as [_ ->]. rewrite app_nil_r. done.
  - apply bind_Returned in H as (u1 & g1 & Hf & H).
    set (j := length ready) in *.
    pose proof (Htab 0 f eq_refl) as Hfn. rewrite Nat.add_0_r in Hfn.
    destruct (Hargs j) as (f0 & Hf0 & Hnoargs); [simpl; lia |].
    pose proof (Hentry _ _ Hf0) as Hej.
    destruct (function_other_blocks _ _ _ _ _ _ Hv Hfn Hf0 Hf) as (HN & Hother & more & Hins).
    rewrite Hej in Hother, Hins. rewrite Hnoargs in Hins. simpl in Hins.
    rewrite (Hempty j) in Hins by (simpl; lia). simpl in Hins.
    destruct (function_closed fip _ _ _ _ Hv Hc Hf) as [Hv1 Hc1].
    destruct (function_module_functions fip _ _ _ _ Hf) as (fn' & Hfn' & Ht & Hfs).
    rewrite Hfn in Hfn'. injection Hfn' as <-.
    replace (ready ++ f :: rest) with ((ready ++ [f]) ++ rest) by (by rewrite <- app_assoc).
    assert (Hlen : length (ready ++ [f]) = S j) by (rewrite length_app; simpl; lia).
    simpl in Hnb, Hargs, Hempty.
    apply (IH (ready ++ [f]) g1 u g' H).
    + intros k x Hx. rewrite Ht, (Htab (S k) x Hx), Hlen. f_equal. lia.
    + exact Hv1.
    + exact Hc1.
    + intros k fn Hk. rewrite Hfs in Hk.
      destruct (decide (j = k)) as [<- | Hne].
      * rewrite list_lookup_alter_eq, Hf0 in Hk. injection Hk as <-. done.
      * rewrite list_lookup_alter_ne in Hk by done. by apply Hentry.
    + intros k Hk. rewrite Hlen in Hk. destruct (Hargs k) as (fn & Hk1 & Hk2); [lia |].
      exists fn. split; [| done]. rewrite Hfs, list_lookup_alter_ne by lia. done.
    + intros k Hk. rewrite Hlen in Hk. rewrite Hother by lia. apply Hempty. lia.
    + rewrite Hlen. lia.
    + intros k x Hx. apply lookup_app_Some in Hx as [Hx | [Hge Hx]].
      * destruct (Hready k x Hx) as (t & more' & Hk).
        apply lookup_lt_Some in Hx. fold j in Hx.
        exists t, more'. rewrite Hother by lia. exact Hk.
      * fold j in Hge, Hx. destruct (k - j) as [| d] eqn:E; [| done].
        injection Hx as <-. assert (k = j) as -> by lia.
        exists (temps (module g)), more. exact Hins.
Qed.

End IrgenEntries.

(** X26.  [NewIrgen] followed by [Generate], in src/irgen/irgen.go, for an
    AST whose functions have pairwise different names: when [Generate]
    returns, the function at position [k] of the AST has block [k] of the
    module as its entry block, and that block begins with the slots of the
    function's parameters, in order: for each parameter an allocation of its
    type and the store of the incoming argument into it.  What the body put
    into the entry block comes after them, and no other function put
    anything there. *)
Theorem X26_generate_entry_blocks_begin_with_the_parameter_slots :
  forall fip ast m g',
    NoDup (map Ast.Name (Ast.Functions ast)) ->
    Generate fip (NewIrgen ast) = Returned m g' ->
    forall k f,
      Ast.Functions ast !! k = Some f ->
      (exists fn, Goory.functions m !! k = Some fn /\ entry fn = k)
      /\ exists t more,
           instrsOf k m
           = paramSlots k t 0 (map (fun p => Llvm (Ast.paramType p)) (Ast.Parameters f))
             ++ more.
Proof.
  intros fip ast m g' Hnd H k f Hk.
  unfold Generate in H.
  apply bind_Returned in H as (gg & g1 & H0 & H). apply get_Returned in H0 as [-> ->].
  apply bind_Returned in H as (u & g2 & Heach & H).
  apply bind_Returned in H as (gg & g3 & H0 & H). apply get_Returned in H0 as [-> ->].
  apply pure_Returned in H as [-> ->].
  destruct (NewIrgen_shape ast) as (Hsig0 & Hempty & Htab & Hroot).
  destruct (NewIrgen_entries ast) as (Hent & Hnb & Hlen).
  rewrite Hroot in Heach.
  assert (Hsig : signatureOf <$> Goory.functions (module g2)
                 = signature <$> ([] ++ Ast.Functions ast)).
  { apply (each_function_signatures fip (Ast.Functions ast) [] _ _ _ Heach).
    - intros j x Hx. by apply Htab.
    - exact Hsig0. }
  destruct (each_function_slots fip (Ast.Functions ast) [] _ _ _ Heach) as [He Hs].
  - intros j x Hx. by apply Htab.
  - apply NewIrgen_entriesValid.
  - intros b blk Hb. rewrite Forall_forall in Hempty.
    rewrite (Hempty blk); [constructor |]. by eapply list_elem_of_lookup_2.
  - intros j fn Hj. by apply Hent.
  - intros j Hj. simpl in Hj.
    destruct (lookup_lt_is_Some_2 (Goory.functions (module (NewIrgen ast))) j) as [fn Hfn];
      [lia |].
    exists fn. split; [done |]. by apply (Hent j fn).
  - intros j Hj. unfold instrsOf.
    destruct (blocks (module (NewIrgen ast)) !! j) as [blk |] eqn:E; [| done]. simpl.
    rewrite Forall_forall in Hempty. apply Hempty. by eapply list_elem_of_lookup_2.
  - rewrite Hnb. simpl. lia.
  - intros j x Hx. done.
  - split; [| by apply Hs].
    assert (Hlt : k < length (Goory.functions (module g2))).
    { apply lookup_lt_Some in Hk.
      assert (L : length (signatureOf <$> Goory.functions (module g2))
                  = length (signature <$> ([] ++ Ast.Functions ast))) by (by rewrite Hsig).
      rewrite !length_fmap in L. simpl in L. lia. }
    destruct (lookup_lt_is_Some_2 _ _ Hlt) as [fn Hfn]. exists fn. split; [done |].
    by apply He.
Qed.

(** X26 at [proc identity(n i64) -> i64 { return n }]. *)
Lemma X26_witness :
  exists t more,
    instrsOf 0 (module (Examples.stateAfter (Generate false)
                          (NewIrgen Examples.identityProgram)))
    = paramSlots 0 t 0 [Llvm Examples.i64] ++ more.
Proof.
  apply (X26_generate_entry_blocks_begin_with_the_parameter_slots false
           Examples.identityProgram
           (module (Examples.stateAfter (Generate false) (NewIrgen Examples.identityProgram)))
           (Examples.stateAfter (Generate false) (NewIrgen Examples.identityProgram))
           ltac:(apply NoDup_singleton) ltac:(vm_compute; reflexivity)
           0 Examples.identity eq_refl).
Defined.

Module StmtEntries.
Import IrgenStmt StmtStep StmtSteps StmtStraight StmtPrefix StmtIf StmtGenerate.

Section Stmt.
Variable Sc : ScopeImpl.

Lemma arguments_prefixes f (args : list Ast2.ArgumentDeclaration) :
  forall (g : Irgen Sc) u g',
    each (fun arg =>
        let name := Lexer.tokenValue (Ast2.argName arg) in
        let argType := Llvm (Ast2.argType arg) in
        do argValue <- addArgument Sc f argType name;
        do id <- emitNamed Sc (fun id => Alloca id argType);
        do _ <- emit Sc (Store (Pointer id) (Some argValue));
        modify (fun g => setScope Sc (AddVar Sc name (Pointer id) (scope Sc g)) g)) args g
      = Returned u g' ->
    prefixes (module Sc g) (module Sc g').
Proof.
  induction args as [| x rest IH]; intros g u g' H; simpl in H.
  - apply pure_Returned in H as [_ ->]. apply prefixes_refl.
  - apply bind_Returned in H as (u1 & g1 & Hbody & H).
    apply bind_Returned in Hbody as (argValue & gA & HA & Hbody).
    apply stmt_addArgument_Returned in HA as [_ ->].
    apply bind_Returned in Hbody as (id & gB & HB & Hbody).
    apply emitNamed_prefixes in HB.
    apply bind_Returned in Hbody as (u2 & gC & HC & Hbind).
    apply emit_prefixes in HC.
    apply modify_Returned in Hbind as ->.
    apply IH in H. cbn [module setScope] in H.
    eapply prefixes_trans; [| exact H].
    eapply prefixes_trans; [| exact HC].
    eapply prefixes_trans; [| exact HB].
    cbn [module setModule]. split; [done |]. intros b. exists []. by rewrite app_nil_r.
Qed.

Lemma stmt_function_entry node (g : Irgen Sc) u g' :
  function Sc node g = Returned u g' ->
  prefixes (module Sc g) (module Sc g')
  /\ exists fn t more,
       Goory.functions (module Sc g') = Goory.functions (module Sc g) ++ [fn]
       /\ instrsOf (entry fn) (module Sc g')
          = paramSlots (length (Goory.functions (module Sc g))) t 0
              (map (fun a => Llvm (Ast2.argType a)) (Ast2.Arguments node))
            ++ more.
Proof.
  intros H.
  destruct (stmt_function_run _ _ _ _ _ H) as (g1 & more & Hpro & Hbody & _ & _ & Hins).
  assert (Hpro' := Hpro). unfold prologue in Hpro'.
  apply bind_Returned in Hpro' as (f' & g2 & Hnew & Hp).
  apply stmt_newFunction_Returned in Hnew as [-> ->].
  apply bind_Returned in Hp as (u1 & g3 & H0 & Hp). apply modify_Returned in H0 as ->.
  apply bind_Returned in Hp as (gg & g4 & H0 & Hp). apply get_Returned in H0 as [-> ->].
  apply bind_Returned in Hp as (u2 & g5 & H0 & Hp). apply modify_Returned in H0 as ->.
  apply bind_Returned in Hp as (u3 & g6 & Hloop & Hp).
  apply pure_Returned in Hp as [_ Hg1]. subst g6.
  pose proof (arguments_prefixes _ _ _ _ _ Hloop) as P1.
  apply arguments_module in Hloop as (I1 & _ & _).
  cbn [module setModule setScope setParentBlock] in I1, P1.
  pose proof (block_Grows _ _ _ _ _ Hbody) as E. unfold Grows in E.
  pose proof (Growth.ext_functions _ _ _ _ E) as F.
  assert (PB : prefixes (module Sc g1) (module Sc g')).
  { unfold block, block_ in Hbody.
    apply bind_Returned in Hbody as (u4 & g7 & H7 & Hbody). apply modify_Returned in H7 as ->.
    apply body_prefixes in Hbody. exact Hbody. }
  split.
  - eapply prefixes_trans; [| exact PB]. eapply prefixes_trans; [| exact P1].
    split; [unfold nblocks; simpl; rewrite length_app; lia |].
    intros b. exists []. rewrite app_nil_r. unfold instrsOf. simpl.
    destruct (decide (b < length (blocks (module Sc g)))) as [Hlt | Hge].
    + by rewrite lookup_app_l.
    + rewrite lookup_app_r by lia. rewrite (lookup_ge_None_2 (blocks (module Sc g)) b) by lia.
      by destruct (b - length (blocks (module Sc g))) as [| [| j]].
  - eexists _, (temps (module Sc g)), more. split.
    + rewrite F, I1. simpl. rewrite alter_app_r_alt by done. rewrite Nat.sub_diag. simpl.
      reflexivity.
    + simpl. exact Hins.
Qed.

Lemma stmt_each_function_entries (l : list Ast2.FunctionDeclaration) :
  forall (g : Irgen Sc) u g',
    each (function Sc) l g = Returned u g' ->
    prefixes (module Sc g) (module Sc g')
    /\ exists fns,
         Goory.functions (module Sc g') = Goory.functions (module Sc g) ++ fns
         /\ forall k f, l !! k = Some f ->
              exists fn t more,
                fns !! k = Some fn
                /\ instrsOf (entry fn) (module Sc g')
                   = paramSlots (length (Goory.functions (module Sc g)) + k) t 0
                       (map (fun a => Llvm (Ast2.argType a)) (Ast2.Arguments f))
                     ++ more.
Proof.
  induction l as [| f l IH]; intros g u g' H; simpl in H.
  - apply pure_Returned in H as [_ ->]. split; [apply prefixes_refl |].
    exists []. by rewrite app_nil_r.
  - apply bind_Returned in H as (u1 & g1 & Hf & H).
    destruct (stmt_function_entry _ _ _ _ Hf) as (P1 & fn & t & more & F1 & I1).
    destruct (IH _ _ _ H) as (P2 & fns & F2 & I2).
    split; [by eapply prefixes_trans |].
    exists (fn :: fns). split; [rewrite F2, F1, <- app_assoc; done |].
    intros k x Hx. destruct k as [| k]; simpl in Hx.
    + injection Hx as <-. destruct P2 as [_ P2]. destruct (P2 (entry fn)) as (s & Hs).
      exists fn, t, (more ++ s). split; [done |].
      rewrite Hs, I1, Nat.add_0_r, <- app_assoc. done.
    + destruct (I2 k x Hx) as (fn' & t' & more' & Hk & Hins).
      exists fn', t', more'. split; [done |].
      rewrite Hins, F1, length_app. simpl. do 2 f_equal. lia.
Qed.

End Stmt.
End StmtEntries.

(** X27.  [NewIrgen] followed by [Generate], in src/unnamed/part_001: when
    [Generate] returns, the function at position [k] of the AST has the handle
    at position [k] of the module, and the entry block of that handle begins
    with the slots of the function's arguments, in order: for each argument an
    allocation of its type and the store of the incoming argument into it.
    What the body put into the entry block comes after them. *)
Theorem X27_statement_generate_entry_blocks_begin_with_the_argument_slots :
  forall Sc ast m g',
    IrgenStmt.Generate Sc (IrgenStmt.NewIrgen Sc ast) = Returned m g' ->
    forall k f,
      Ast2.Functions ast !! k = Some f ->
      exists fn t more,
        Goory.functions m !! k = Some fn
        /\ instrsOf (entry fn) m
           = paramSlots k t 0 (map (fun a => Llvm (Ast2.argType a)) (Ast2.Arguments f))
             ++ more.
Proof.
  intros Sc ast m g' H k f Hk. unfold IrgenStmt.Generate in H.
  apply bind_Returned in H as (gg & g1 & H0 & H). apply get_Returned in H0 as [-> ->].
  apply bind_Returned in H as (u & g2 & Heach & H).
  apply bind_Returned in H as (gg & g3 & H0 & H). apply get_Returned in H0 as [-> ->].
  apply pure_Returned in H as [-> ->].
  apply StmtEntries.stmt_each_function_entries in Heach as (_ & fns & F & I).
  destruct (I k f Hk) as (fn & t & more & Hfn & Hins).
  exists fn, t, more. split; [| exact Hins]. rewrite F. exact Hfn.
Qed.

(** X27 at [proc identity(n i64) -> i64 { return n }]. *)
Lemma X27_witness :
  exists fn t more,
    Goory.functions
      (IrgenStmt.module SpecScope.impl
         (Examples.stateAfter (IrgenStmt.Generate SpecScope.impl)
            (IrgenStmt.NewIrgen SpecScope.impl Examples.identityProgram2))) !! 0 = Some fn
    /\ instrsOf (entry fn)
         (IrgenStmt.module SpecScope.impl
            (Examples.stateAfter (IrgenStmt.Generate SpecScope.impl)
               (IrgenStmt.NewIrgen SpecScope.impl Examples.identityProgram2)))
       = paramSlots 0 t 0 [Llvm Examples.i64] ++ more.
Proof.
  apply (X27_statement_generate_entry_blocks_begin_with_the_argument_slots SpecScope.impl
           Examples.identityProgram2
           (IrgenStmt.module SpecScope.impl
              (Examples.stateAfter (IrgenStmt.Generate SpecScope.impl)
                 (IrgenStmt.NewIrgen SpecScope.impl Examples.identityProgram2)))
           (Examples.stateAfter (IrgenStmt.Generate SpecScope.impl)
              (IrgenStmt.NewIrgen SpecScope.impl Examples.identityProgram2))
           ltac:(vm_compute; reflexivity) 0 Examples.identity2 eq_refl).
Defined.
